(** * Guest-RAM mapper and coroutine runtime (util/mmap-alloc.c,
      util/qemu-coroutine.c): shallow embedding and verified properties. *)

From stdpp Require Import gmap strings list pretty.
From Stdlib Require Import ZArith Lia.

Local Open Scope Z_scope.

(** ** Part I: util/mmap-alloc.c *)
Module MmapAlloc.

(** *** Machine integers

    [size_t] and [uintptr_t] are 64-bit unsigned on the LP64 hosts the file
    targets; arithmetic on them wraps modulo [2^64]. *)
Definition SIZE_BITS : Z := 64.
Definition to_size_t (z : Z) : Z := z mod 2 ^ SIZE_BITS.

(** [MAP_FAILED] is the all-ones pointer. *)
Definition MAP_FAILED : Z := 2 ^ SIZE_BITS - 1.

Definition HUGETLBFS_MAGIC : Z := 0x958458f6.

(** *** Build configuration

    The preprocessor conditionals of the file and the constants it takes from
    system headers.  [hdr_MAP_SYNC] and [hdr_MAP_SHARED_VALIDATE] are the
    values of <linux/mman.h>; without [CONFIG_LINUX] the file defines both
    flags as [0x0]. *)
Record Platform := {
  CONFIG_LINUX : bool;
  arch_sparc : bool;
  powerpc64_linux : bool;
  hdr_MAP_SYNC : Z;
  hdr_MAP_SHARED_VALIDATE : Z;
  MAP_PRIVATE : Z;
  MAP_SHARED : Z;
  MAP_ANONYMOUS : Z;
  MAP_NORESERVE : Z;
  PROT_READ : Z;
  PROT_WRITE : Z;
  PROT_NONE : Z;
  PATH_MAX : Z;
  qemu_real_host_page_size : Z;
  QEMU_VMALLOC_ALIGN : Z
}.

Definition MAP_SYNC (P : Platform) : Z :=
  if CONFIG_LINUX P then hdr_MAP_SYNC P else 0x0.
Definition MAP_SHARED_VALIDATE (P : Platform) : Z :=
  if CONFIG_LINUX P then hdr_MAP_SHARED_VALIDATE P else 0x0.

(** *** The host kernel

    System calls are answered by the host.  A reply may depend on everything
    that happened before, so the host is a family of functions of the event
    history. *)
Inductive Errno :=
  EINTR | ENOTSUP | EBADF | ENOMEM | EINVAL | EACCES | ENOENT | ENODEV.

Global Instance Errno_eq_dec : EqDecision Errno.
Proof. solve_decision. Defined.

Record statfs := { f_type : Z; f_bsize : Z }.

Inductive statfs_reply := StatfsOk (fs : statfs) | StatfsErr (e : Errno).
Inductive mmap_reply := MmapOk (addr : Z) | MmapErr (e : Errno).
Inductive readlink_reply := ReadlinkOk (target : string) | ReadlinkErr (e : Errno).

Inductive event :=
| EvFstatfs (fd : Z) (r : statfs_reply)
| EvStatfs (path : string) (r : statfs_reply)
| EvMmap (len prot flags fd : Z) (r : mmap_reply)
| EvMprotect (addr len prot : Z) (ret : Z)
| EvMunmap (addr len : Z) (ret : Z)
| EvReadlink (path : string) (bufsiz : Z) (r : readlink_reply)
| EvStderr (msg : string).

Record Host := {
  k_fstatfs : list event -> Z -> statfs_reply;
  k_statfs : list event -> string -> statfs_reply;
  k_mmap : list event -> Z -> Z -> Z -> Z -> mmap_reply;
  k_mprotect : list event -> Z -> Z -> Z -> Z;
  k_munmap : list event -> Z -> Z -> Z;
  k_readlink : list event -> string -> readlink_reply;
  k_strerror : Errno -> string
}.

(** The process as seen from outside: the events so far, and [errno]. *)
Record World := { events : list event; errno : Errno }.

Definition log (e : event) (w : World) : World :=
  {| events := events w ++ [e]; errno := errno w |}.
Definition set_errno (e : Errno) (w : World) : World :=
  {| events := events w; errno := e |}.

(** *** Outcomes and the monad of the embedding

    A call returns, or ends the process ([exit], [abort] and failed
    assertions, which write their diagnostic first).  [None] is reserved
    for a retry loop that ran out of fuel. *)
Inductive Outcome (A : Type) :=
| Ret (a : A)
| Exit (code : Z)
| Abort.
Arguments Ret {A} a.
Arguments Exit {A} code.
Arguments Abort {A}.

Definition M (A : Type) : Type := World -> option (Outcome A * World).

Definition ret {A} (a : A) : M A := fun w => Some (Ret a, w).
Definition bind {A B} (m : M A) (k : A -> M B) : M B := fun w =>
  match m w with
  | None => None
  | Some (Ret a, w') => k a w'
  | Some (Exit c, w') => Some (Exit c, w')
  | Some (Abort, w') => Some (Abort, w')
  end.
Definition c_abort {A} : M A := fun w => Some (Abort, w).
Definition c_exit {A} (code : Z) : M A := fun w => Some (Exit code, w).
Definition get_errno : M Errno := fun w => Some (Ret (errno w), w).
Definition fprintf_stderr (msg : string) : M unit :=
  fun w => Some (Ret tt, log (EvStderr msg) w).

Declare Scope c_scope.
Delimit Scope c_scope with C.
Notation "x <- m ;; k" := (bind m (fun x => k))
  (at level 100, m at next level, right associativity) : c_scope.
Notation "m ;;; k" := (bind m (fun _ => k))
  (at level 100, k at level 200, right associativity) : c_scope.
Local Open Scope c_scope.

Section Syscalls.
Variable P : Platform.
Variable K : Host.

(** fstatfs(2): a negative descriptor is never open, the kernel answers
    EBADF without looking any further. *)
Definition sys_fstatfs (fd : Z) : M statfs_reply := fun w =>
  let r := if fd <? 0 then StatfsErr EBADF else k_fstatfs K (events w) fd in
  let w' := log (EvFstatfs fd r) w in
  match r with
  | StatfsOk _ => Some (Ret r, w')
  | StatfsErr e => Some (Ret r, set_errno e w')
  end.

Definition sys_statfs (path : string) : M statfs_reply := fun w =>
  let r := k_statfs K (events w) path in
  let w' := log (EvStatfs path r) w in
  match r with
  | StatfsOk _ => Some (Ret r, w')
  | StatfsErr e => Some (Ret r, set_errno e w')
  end.

(** mmap(0, len, prot, flags, fd, 0): the pointer returned, [MAP_FAILED]
    with [errno] set on error. *)
Definition sys_mmap (len prot flags fd : Z) : M Z := fun w =>
  let r := k_mmap K (events w) len prot flags fd in
  let w' := log (EvMmap len prot flags fd r) w in
  match r with
  | MmapOk a => Some (Ret (to_size_t a), w')
  | MmapErr e => Some (Ret MAP_FAILED, set_errno e w')
  end.

Definition sys_mprotect (addr len prot : Z) : M Z := fun w =>
  let r := k_mprotect K (events w) addr len prot in
  Some (Ret r, log (EvMprotect addr len prot r) w).

Definition sys_munmap (addr len : Z) : M Z := fun w =>
  let r := k_munmap K (events w) addr len in
  Some (Ret r, log (EvMunmap addr len r) w).

(** readlink(path, buf, bufsiz) into a zeroed buffer: the bytes placed in
    the buffer (at most [bufsiz] of the target) and the count returned,
    [-1] on error. *)
Definition sys_readlink (path : string) (bufsiz : Z) : M (Z * string) := fun w =>
  let r := k_readlink K (events w) path in
  let w' := log (EvReadlink path bufsiz r) w in
  match r with
  | ReadlinkOk target =>
      let written := String.substring 0 (Z.to_nat bufsiz) target in
      Some (Ret (Z.of_nat (String.length written), written), w')
  | ReadlinkErr e => Some (Ret (-1, EmptyString), set_errno e w')
  end.
End Syscalls.

(** *** Helpers from headers outside this directory *)

(** Modelled from the spec: [is_power_of_2] (qemu/host-utils.h) is not part
    of util/; the spec requires of [align] that it "is a power of two". *)
Definition is_power_of_2 (value : Z) : bool :=
  (0 <? value) && (value =? 2 ^ Z.log2 value).

(** Modelled from the spec: the [QEMU_ALIGN_UP] macro (qemu/osdep.h) is not
    part of util/; the spec's [align_up(base_raw, align)] rounds
    [base_raw] up to the next multiple of [align], here in [uintptr_t]
    arithmetic. *)
Definition QEMU_ALIGN_DOWN (n m : Z) : Z := to_size_t (n / m * m).
Definition QEMU_ALIGN_UP (n m : Z) : Z :=
  QEMU_ALIGN_DOWN (to_size_t (n + m - 1)) m.

Definition newline : string := String (Ascii.ascii_of_nat 10) EmptyString.

Definition pmem_warning (file_name : string) : string :=
  "Warning: requesting persistence across crashes for backend file "
  +:+ file_name
  +:+ " failed. Proceeding without persistence, data might become corrupted in case of host crash."
  +:+ newline.

Definition proc_link_of (fd : Z) : string := "/proc/self/fd/" +:+ pretty fd.

(** assert(3).  A failed assertion writes a diagnostic to stderr and aborts
    the process.  The diagnostic names the program, the source file, the
    line, the function and the expression, in the format of the GNU C
    library; the name of the program and the path of the file are the ones
    of a build in the root of the source tree that is run as [qemu]. *)
Definition program_name : string := "qemu".
Definition assert_failed_msg (file : string) (line : Z) (func expr : string)
    : string :=
  program_name +:+ ": " +:+ file +:+ ":" +:+ pretty line +:+ ": " +:+ func
  +:+ ": Assertion `" +:+ expr +:+ "' failed." +:+ newline.
Definition c_assert (file : string) (line : Z) (func expr : string) (b : bool)
    : M unit :=
  if b then ret tt
  else fprintf_stderr (assert_failed_msg file line func expr) ;;; c_abort.

Definition this_file : string := "util/mmap-alloc.c".

Section Program.
Variable P : Platform.
Variable K : Host.

(** The page size every path falls back to: [QEMU_VMALLOC_ALIGN] on SPARC
    Linux, the real host page size anywhere else. *)
Definition fallback_pagesize : Z :=
  if CONFIG_LINUX P && arch_sparc P
  then QEMU_VMALLOC_ALIGN P else qemu_real_host_page_size P.

(** [do { ret = fstatfs(fd, &fs); } while (ret != 0 && errno == EINTR);] *)
Fixpoint fstatfs_retry (fuel : nat) (fd : Z) : M statfs_reply :=
  match fuel with
  | O => fun _ => None
  | S fuel' =>
      r <- sys_fstatfs K fd ;;
      match r with
      | StatfsOk _ => ret r
      | StatfsErr _ =>
          e <- get_errno ;;
          if decide (e = EINTR) then fstatfs_retry fuel' fd else ret r
      end
  end.

Fixpoint statfs_retry (fuel : nat) (path : string) : M statfs_reply :=
  match fuel with
  | O => fun _ => None
  | S fuel' =>
      r <- sys_statfs K path ;;
      match r with
      | StatfsOk _ => ret r
      | StatfsErr _ =>
          e <- get_errno ;;
          if decide (e = EINTR) then statfs_retry fuel' path else ret r
      end
  end.

Definition qemu_fd_getpagesize (fuel : nat) (fd : Z) : M Z :=
  if CONFIG_LINUX P then
    if negb (fd =? -1) then
      r <- fstatfs_retry fuel fd ;;
      match r with
      | StatfsOk fs =>
          if f_type fs =? HUGETLBFS_MAGIC
          then ret (to_size_t (f_bsize fs))
          else ret fallback_pagesize
      | StatfsErr _ => ret fallback_pagesize
      end
    else ret fallback_pagesize
  else ret fallback_pagesize.

Definition qemu_mempath_getpagesize (fuel : nat) (mem_path : option string) : M Z :=
  if CONFIG_LINUX P then
    match mem_path with
    | Some path =>
        r <- statfs_retry fuel path ;;
        match r with
        | StatfsErr _ =>
            e <- get_errno ;;
            fprintf_stderr ("Couldn't statfs() memory path: "
                            +:+ k_strerror K e +:+ newline) ;;;
            c_exit 1
        | StatfsOk fs =>
            if f_type fs =? HUGETLBFS_MAGIC
            then ret (to_size_t (f_bsize fs))
            else ret fallback_pagesize
        end
    | None => ret fallback_pagesize
    end
  else ret fallback_pagesize.

(** The first block of [qemu_ram_mmap]: flags, page size and descriptor of
    the reservation, by platform. *)
Definition reservation_params (fuel : nat) (fd : Z) : M (Z * Z * Z) :=
  if powerpc64_linux P then
    pagesize <- qemu_fd_getpagesize fuel fd ;;
    if (fd =? -1) || (pagesize =? qemu_real_host_page_size P)
    then ret (Z.lor (MAP_PRIVATE P) (MAP_ANONYMOUS P), pagesize, -1)
    else ret (Z.lor (MAP_PRIVATE P) (MAP_NORESERVE P), pagesize, fd)
  else
    ret (Z.lor (MAP_PRIVATE P) (MAP_ANONYMOUS P), qemu_real_host_page_size P, -1).

Definition qemu_ram_mmap (fuel : nat) (fd size align : Z)
    (shared is_pmem : bool) : M Z :=
  params <- reservation_params fuel fd ;;
  let '(flags, pagesize, mapfd) := params in
  c_assert this_file 129 "qemu_ram_mmap" "is_power_of_2(align)"
           (is_power_of_2 align) ;;;
  c_assert this_file 131 "qemu_ram_mmap" "align >= pagesize"
           (align >=? pagesize) ;;;
  let flags := Z.lor flags (if fd =? -1 then MAP_ANONYMOUS P else 0) in
  let flags := Z.lor flags (if shared then MAP_SHARED P else MAP_PRIVATE P) in
  let map_sync_flags :=
    if shared && is_pmem then Z.lor (MAP_SYNC P) (MAP_SHARED_VALIDATE P) else 0 in
  let total := to_size_t (size + align + pagesize) in
  ptr <- sys_mmap K total (Z.lor (PROT_READ P) (PROT_WRITE P))
                  (Z.lor flags map_sync_flags) mapfd ;;
  ptr <- (if (ptr =? MAP_FAILED) && negb (map_sync_flags =? 0) then
            e <- get_errno ;;
            (if decide (e = ENOTSUP) then
               let proc_link := proc_link_of fd in
               rl <- sys_readlink K proc_link (PATH_MAX P - 1) ;;
               let '(len, buf) := rl in
               let len := if len <? 0 then 0 else len in
               let file_name := String.substring 0 (Z.to_nat len) buf in
               fprintf_stderr (pmem_warning file_name)
             else ret tt) ;;;
            sys_mmap K size (Z.lor (PROT_READ P) (PROT_WRITE P)) flags mapfd
          else ret ptr) ;;
  if ptr =? MAP_FAILED then ret MAP_FAILED else
  let offset := to_size_t (QEMU_ALIGN_UP ptr align - ptr) in
  r <- sys_mprotect K ptr offset (PROT_NONE P) ;;
  (if r <? 0 then sys_munmap K ptr total ;;; ret tt else ret tt) ;;;
  let total := to_size_t (total - offset) in
  (if total >? to_size_t (size + pagesize)
   then sys_mprotect K (to_size_t (ptr + offset + size)) pagesize (PROT_NONE P) ;;; ret tt
   else ret tt) ;;;
  ret (to_size_t (ptr + offset)).

Definition qemu_ram_munmap (fuel : nat) (fd ptr size : Z) : M unit :=
  if negb (ptr =? 0) then
    pagesize <- (if powerpc64_linux P then qemu_fd_getpagesize fuel fd
                 else ret (qemu_real_host_page_size P)) ;;
    sys_munmap K ptr (to_size_t (size + pagesize)) ;;; ret tt
  else ret tt.
End Program.

(** *** Concrete platforms and hosts *)

Definition linux_x86_64 : Platform := {|
  CONFIG_LINUX := true; arch_sparc := false; powerpc64_linux := false;
  hdr_MAP_SYNC := 0x80000; hdr_MAP_SHARED_VALIDATE := 0x03;
  MAP_PRIVATE := 0x02; MAP_SHARED := 0x01; MAP_ANONYMOUS := 0x20;
  MAP_NORESERVE := 0x4000;
  PROT_READ := 0x1; PROT_WRITE := 0x2; PROT_NONE := 0x0;
  PATH_MAX := 4096;
  qemu_real_host_page_size := 4096; QEMU_VMALLOC_ALIGN := 4096 |}.

Definition linux_ppc64 : Platform := {|
  CONFIG_LINUX := true; arch_sparc := false; powerpc64_linux := true;
  hdr_MAP_SYNC := 0x80000; hdr_MAP_SHARED_VALIDATE := 0x03;
  MAP_PRIVATE := 0x02; MAP_SHARED := 0x01; MAP_ANONYMOUS := 0x20;
  MAP_NORESERVE := 0x40;
  PROT_READ := 0x1; PROT_WRITE := 0x2; PROT_NONE := 0x0;
  PATH_MAX := 4096;
  qemu_real_host_page_size := 65536; QEMU_VMALLOC_ALIGN := 65536 |}.

(** A host built without [CONFIG_LINUX]: both persistence flags are [0x0]. *)
Definition bsd_x86_64 : Platform := {|
  CONFIG_LINUX := false; arch_sparc := false; powerpc64_linux := false;
  hdr_MAP_SYNC := 0x0; hdr_MAP_SHARED_VALIDATE := 0x0;
  MAP_PRIVATE := 0x02; MAP_SHARED := 0x01; MAP_ANONYMOUS := 0x1000;
  MAP_NORESERVE := 0x40;
  PROT_READ := 0x1; PROT_WRITE := 0x2; PROT_NONE := 0x0;
  PATH_MAX := 1024;
  qemu_real_host_page_size := 4096; QEMU_VMALLOC_ALIGN := 4096 |}.

Definition strerror_text (e : Errno) : string :=
  match e with
  | EINTR => "Interrupted system call"
  | ENOTSUP => "Operation not supported"
  | EBADF => "Bad file descriptor"
  | ENOMEM => "Cannot allocate memory"
  | EINVAL => "Invalid argument"
  | EACCES => "Permission denied"
  | ENOENT => "No such file or directory"
  | ENODEV => "No such device"
  end.

(** A host on which every call succeeds; reservations land at
    [0x7f0000001000], descriptors sit on an ordinary filesystem. *)
Definition plain_host : Host := {|
  k_fstatfs := fun _ _ => StatfsOk {| f_type := 0xEF53; f_bsize := 4096 |};
  k_statfs := fun _ _ => StatfsOk {| f_type := 0xEF53; f_bsize := 4096 |};
  k_mmap := fun _ _ _ _ _ => MmapOk 0x7f0000001000;
  k_mprotect := fun _ _ _ _ => 0;
  k_munmap := fun _ _ _ => 0;
  k_readlink := fun _ _ => ReadlinkOk "/dev/dax0.0";
  k_strerror := strerror_text |}.

(** The same host when protection changes are refused. *)
Definition mprotect_failing_host : Host := {|
  k_fstatfs := k_fstatfs plain_host;
  k_statfs := k_statfs plain_host;
  k_mmap := k_mmap plain_host;
  k_mprotect := fun _ _ _ _ => -1;
  k_munmap := k_munmap plain_host;
  k_readlink := k_readlink plain_host;
  k_strerror := strerror_text |}.

(** A host whose kernel rejects the persistence flags: the first mapping
    request of a run is refused with ENOTSUP. *)
Definition no_pmem_host : Host := {|
  k_fstatfs := k_fstatfs plain_host;
  k_statfs := k_statfs plain_host;
  k_mmap := fun tr _ _ _ _ =>
    match tr with [] => MmapErr ENOTSUP | _ => MmapOk 0x7f0000001000 end;
  k_mprotect := k_mprotect plain_host;
  k_munmap := k_munmap plain_host;
  k_readlink := k_readlink plain_host;
  k_strerror := strerror_text |}.

(** A host with a hugetlbfs mount of 2 MiB pages whose probe is interrupted
    twice before it answers. *)
Definition hugetlbfs_host : Host := {|
  k_fstatfs := fun tr _ =>
    if (length tr <? 2)%nat then StatfsErr EINTR
    else StatfsOk {| f_type := HUGETLBFS_MAGIC; f_bsize := 2097152 |};
  k_statfs := fun _ _ => StatfsOk {| f_type := HUGETLBFS_MAGIC; f_bsize := 2097152 |};
  k_mmap := k_mmap plain_host;
  k_mprotect := k_mprotect plain_host;
  k_munmap := k_munmap plain_host;
  k_readlink := k_readlink plain_host;
  k_strerror := strerror_text |}.

Definition w0 : World := {| events := []; errno := EINVAL |}.

(** *** Specification-level notions *)

(** The host interrupts the probe of [fd] [n] times and then answers [r]:
    [w] is the world before the first try, [w'] the world after the last. *)
Inductive probe_answers (K : Host) (fd : Z) :
    nat -> World -> statfs_reply -> World -> Prop :=
| probe_final w r w' :
    sys_fstatfs K fd w = Some (Ret r, w') ->
    r <> StatfsErr EINTR ->
    probe_answers K fd 0 w r w'
| probe_interrupted n w w1 r w' :
    sys_fstatfs K fd w = Some (Ret (StatfsErr EINTR), w1) ->
    probe_answers K fd n w1 r w' ->
    probe_answers K fd (S n) w r w'.

(** The spec's [page_size_for_fd], as a function of the descriptor and of the
    final answer of the probe: the block size of a hugepage filesystem (as the
    [size_t] the function returns), the fallback page size in every other
    case. *)
Definition spec_page_size_for_fd (P : Platform) (fd : Z) (r : statfs_reply) : Z :=
  match r with
  | StatfsOk fs =>
      if (0 <=? fd) && (f_type fs =? HUGETLBFS_MAGIC)
      then to_size_t (f_bsize fs)
      else fallback_pagesize P
  | StatfsErr _ => fallback_pagesize P
  end.

(** The per-platform page-size rule shared by the mapper and the unmapper:
    the probe of the descriptor on 64-bit PowerPC Linux, the real host page
    size elsewhere. *)
Definition spec_pagesize_rule (P : Platform) (K : Host) (fuel : nat) (fd : Z) : M Z :=
  if powerpc64_linux P then qemu_fd_getpagesize P K fuel fd
  else ret (qemu_real_host_page_size P).

(** What was written to stderr, in order. *)
Definition stderr_of (evs : list event) : list string :=
  omap (fun e => match e with EvStderr msg => Some msg | _ => None end) evs.

(** The mapping requests among the events, in order. *)
Definition mmaps_of (evs : list event) : list event :=
  omap (fun e => match e with EvMmap _ _ _ _ _ => Some e | _ => None end) evs.

(** The bytes released between two worlds: the addresses covered by the
    [munmap] requests among the events added from [w] to [w']. *)
Definition released_between (w w' : World) (a : Z) : Prop :=
  exists addr len r,
    EvMunmap addr len r ∈ drop (length (events w)) (events w') /\
    addr <= a < addr + len.

(** *** The stages of [qemu_ram_mmap]

    Names for the values the body computes on the way, and for its last
    stage (from the computation of [offset] to the return), so that the
    theorems can speak about them. *)
Definition map_flags (P : Platform) (flags0 fd : Z) (shared : bool) : Z :=
  Z.lor (Z.lor flags0 (if fd =? -1 then MAP_ANONYMOUS P else 0))
        (if shared then MAP_SHARED P else MAP_PRIVATE P).

Definition map_sync_flags (P : Platform) (shared is_pmem : bool) : Z :=
  if shared && is_pmem then Z.lor (MAP_SYNC P) (MAP_SHARED_VALIDATE P) else 0.

Definition map_prot (P : Platform) : Z := Z.lor (PROT_READ P) (PROT_WRITE P).

Definition map_offset (ptr align : Z) : Z :=
  to_size_t (QEMU_ALIGN_UP ptr align - ptr).

Definition map_guards (P : Platform) (K : Host)
    (size align pagesize total ptr : Z) : M Z :=
  let offset := map_offset ptr align in
  r <- sys_mprotect K ptr offset (PROT_NONE P) ;;
  (if r <? 0 then sys_munmap K ptr total ;;; ret tt else ret tt) ;;;
  let total := to_size_t (total - offset) in
  (if total >? to_size_t (size + pagesize)
   then sys_mprotect K (to_size_t (ptr + offset + size)) pagesize (PROT_NONE P) ;;; ret tt
   else ret tt) ;;;
  ret (to_size_t (ptr + offset)).

Definition map_retry (P : Platform) (K : Host)
    (fd size flags mapfd : Z) : M Z :=
  e <- get_errno ;;
  (if decide (e = ENOTSUP) then
     let proc_link := proc_link_of fd in
     rl <- sys_readlink K proc_link (PATH_MAX P - 1) ;;
     let '(len, buf) := rl in
     let len := if len <? 0 then 0 else len in
     let file_name := String.substring 0 (Z.to_nat len) buf in
     fprintf_stderr (pmem_warning file_name)
   else ret tt) ;;;
  sys_mmap K size (map_prot P) flags mapfd.

(** The pointer a mapping request hands back, and the file name the warning
    prints for an answer of [readlink] into a buffer of [PATH_MAX - 1]. *)
Definition mmap_ptr (r : mmap_reply) : Z :=
  match r with MmapOk a => to_size_t a | MmapErr _ => MAP_FAILED end.

Definition link_name (P : Platform) (rl : readlink_reply) : string :=
  match rl with
  | ReadlinkOk target => String.substring 0 (Z.to_nat (PATH_MAX P - 1)) target
  | ReadlinkErr _ => EmptyString
  end.

(** *** What the event filters see *)

Definition is_probe (e : event) : Prop := exists fd r, e = EvFstatfs fd r.
Definition is_guard_call (e : event) : Prop :=
  match e with
  | EvMprotect _ _ _ _ | EvMunmap _ _ _ => True
  | _ => False
  end.

(** *** Further specification-level notions *)

(** The host interrupts the probe of [path] [n] times and then answers
    [r]. *)
Inductive path_probe_answers (K : Host) (path : string) :
    nat -> World -> statfs_reply -> World -> Prop :=
| path_probe_final w r w' :
    sys_statfs K path w = Some (Ret r, w') ->
    r <> StatfsErr EINTR ->
    path_probe_answers K path 0 w r w'
| path_probe_interrupted n w w1 r w' :
    sys_statfs K path w = Some (Ret (StatfsErr EINTR), w1) ->
    path_probe_answers K path n w1 r w' ->
    path_probe_answers K path (S n) w r w'.

Definition statfs_failed_msg (K : Host) (e : Errno) : string :=
  "Couldn't statfs() memory path: " +:+ k_strerror K e +:+ newline.

(** A host whose path probe fails for want of the file. *)
Definition missing_path_host : Host := {|
  k_fstatfs := k_fstatfs plain_host;
  k_statfs := fun _ _ => StatfsErr ENOENT;
  k_mmap := k_mmap plain_host;
  k_mprotect := k_mprotect plain_host;
  k_munmap := k_munmap plain_host;
  k_readlink := k_readlink plain_host;
  k_strerror := strerror_text |}.

(** A host whose kernel refuses the first mapping request for want of
    memory. *)
Definition low_memory_host : Host := {|
  k_fstatfs := k_fstatfs plain_host;
  k_statfs := k_statfs plain_host;
  k_mmap := fun tr _ _ _ _ =>
    match tr with [] => MmapErr ENOMEM | _ => MmapOk 0x7f0000001000 end;
  k_mprotect := k_mprotect plain_host;
  k_munmap := k_munmap plain_host;
  k_readlink := k_readlink plain_host;
  k_strerror := strerror_text |}.

(** A host whose probe of a descriptor is interrupted every time. *)
Definition interrupting_host : Host := {|
  k_fstatfs := fun _ _ => StatfsErr EINTR;
  k_statfs := k_statfs plain_host;
  k_mmap := k_mmap plain_host;
  k_mprotect := k_mprotect plain_host;
  k_munmap := k_munmap plain_host;
  k_readlink := k_readlink plain_host;
  k_strerror := strerror_text |}.

(** What a mapping request of a run may look like: its descriptor is
    [mapfd], its protection read-write, and it is either the first request
    ([total] bytes, the flag word or-ed with the persistence flags) or the
    second ([size] bytes, the flag word alone). *)
Definition request_of (P : Platform) (flags sync mapfd total size : Z)
    (e : event) : Prop :=
  match e with
  | EvMmap len prot fl mfd _ =>
      mfd = mapfd /\ prot = map_prot P /\
      ((len = total /\ fl = Z.lor flags sync) \/ (len = size /\ fl = flags))
  | _ => True
  end.

(** The world after [plain_host] has granted 2 MiB aligned to 2 MiB. *)
Definition after_plain_map : World :=
  {| events := [EvMmap 4198400 3 34 (-1) (MmapOk 0x7f0000001000);
                EvMprotect 0x7f0000001000 2093056 0 0;
                EvMprotect 0x7f0000400000 4096 0 0];
     errno := EINVAL |}.

(** A 64-bit PowerPC host whose descriptors sit on a hugetlbfs mount of
    16 MiB pages. *)
Definition ppc64_hugetlbfs_host : Host := {|
  k_fstatfs := fun _ _ => StatfsOk {| f_type := HUGETLBFS_MAGIC; f_bsize := 16777216 |};
  k_statfs := fun _ _ => StatfsOk {| f_type := HUGETLBFS_MAGIC; f_bsize := 16777216 |};
  k_mmap := k_mmap plain_host;
  k_mprotect := k_mprotect plain_host;
  k_munmap := k_munmap plain_host;
  k_readlink := k_readlink plain_host;
  k_strerror := strerror_text |}.

End MmapAlloc.

(** ** Part II: util/qemu-coroutine.c *)
Module QemuCoroutine.

Definition COROUTINE_POOL_SIZE : Z := 16.

(** [uint8_t] counters wrap modulo 256. *)
Definition to_uint8 (z : Z) : Z := z mod 256.

(** Addresses of [Coroutine] objects; a nullable [Coroutine *] is an
    [option loc]. *)
Definition loc := positive.

(** The action codes of qemu/coroutine_int.h. *)
Inductive CoroutineAction :=
| COROUTINE_YIELD
| COROUTINE_TERMINATE
| COROUTINE_ENTER.

(** [struct Coroutine] (qemu/coroutine_int.h).  A queue is kept as the
    list of its members, head first, and this list is what the code that
    walks the queue reads.  [co_queue_next] is the link field of the
    coroutine, which the queue macros write when the coroutine is put on a
    queue; the lists and the links agree as long as no coroutine sits on
    two queues at once. *)
Record Coroutine := {
  entry : Z;
  entry_arg : Z;
  caller : option loc;
  ctx : Z;
  scheduled : option string;
  locks_held : Z;
  co_queue_wakeup : list loc;
  co_queue_next : option loc
}.

Definition set_entry (e a : Z) (c : Coroutine) : Coroutine :=
  {| entry := e; entry_arg := a; caller := caller c; ctx := ctx c;
     scheduled := scheduled c; locks_held := locks_held c;
     co_queue_wakeup := co_queue_wakeup c; co_queue_next := co_queue_next c |}.
Definition set_caller (v : option loc) (c : Coroutine) : Coroutine :=
  {| entry := entry c; entry_arg := entry_arg c; caller := v; ctx := ctx c;
     scheduled := scheduled c; locks_held := locks_held c;
     co_queue_wakeup := co_queue_wakeup c; co_queue_next := co_queue_next c |}.
Definition set_ctx (v : Z) (c : Coroutine) : Coroutine :=
  {| entry := entry c; entry_arg := entry_arg c; caller := caller c; ctx := v;
     scheduled := scheduled c; locks_held := locks_held c;
     co_queue_wakeup := co_queue_wakeup c; co_queue_next := co_queue_next c |}.
Definition set_co_queue_wakeup (q : list loc) (c : Coroutine) : Coroutine :=
  {| entry := entry c; entry_arg := entry_arg c; caller := caller c; ctx := ctx c;
     scheduled := scheduled c; locks_held := locks_held c;
     co_queue_wakeup := q; co_queue_next := co_queue_next c |}.
Definition set_co_queue_next (v : option loc) (c : Coroutine) : Coroutine :=
  {| entry := entry c; entry_arg := entry_arg c; caller := caller c; ctx := ctx c;
     scheduled := scheduled c; locks_held := locks_held c;
     co_queue_wakeup := co_queue_wakeup c; co_queue_next := v |}.

(** The calls to the tracing hooks, in order. *)
Inductive trace_event :=
| TraceEnter (ctx : Z) (from to : loc) (opaque : Z)
| TraceTerminate (co : loc)
| TraceYield (self : loc) (to : option loc).

(** The process: the coroutine objects that exist, [coroutine_pool], the
    coroutine running now ([qemu_coroutine_self ()]), what was written to
    stderr and what was traced. *)
Record State := {
  heap : gmap loc Coroutine;
  pool_total : Z;
  pool_top : Z;
  pool : list (option loc);
  current : loc;
  stderr : list string;
  traced : list trace_event
}.

Definition set_heap (h : gmap loc Coroutine) (s : State) : State :=
  {| heap := h; pool_total := pool_total s; pool_top := pool_top s;
     pool := pool s; current := current s; stderr := stderr s;
     traced := traced s |}.
Definition set_pool_total (v : Z) (s : State) : State :=
  {| heap := heap s; pool_total := v; pool_top := pool_top s;
     pool := pool s; current := current s; stderr := stderr s;
     traced := traced s |}.
Definition set_pool_top (v : Z) (s : State) : State :=
  {| heap := heap s; pool_total := pool_total s; pool_top := v;
     pool := pool s; current := current s; stderr := stderr s;
     traced := traced s |}.
Definition set_pool (p : list (option loc)) (s : State) : State :=
  {| heap := heap s; pool_total := pool_total s; pool_top := pool_top s;
     pool := p; current := current s; stderr := stderr s;
     traced := traced s |}.
Definition fprintf_stderr (msg : string) (s : State) : State :=
  {| heap := heap s; pool_total := pool_total s; pool_top := pool_top s;
     pool := pool s; current := current s; stderr := stderr s ++ [msg];
     traced := traced s |}.
Definition trace (e : trace_event) (s : State) : State :=
  {| heap := heap s; pool_total := pool_total s; pool_top := pool_top s;
     pool := pool s; current := current s; stderr := stderr s;
     traced := traced s ++ [e] |}.

(** [*co = c] *)
Definition store (co : loc) (c : Coroutine) (s : State) : State :=
  set_heap (<[co := c]> (heap s)) s.

(** How a call ends: it returns; the process is aborted ([abort ()], a
    failed assertion after its diagnostic), the state being the one at that
    moment; the behaviour is undefined (a pointer to no object, a slot
    outside the pool array); or the bound on the number of slices is used
    up. *)
Inductive Result (A : Type) :=
| Done (a : A) (s : State)
| Aborted (s : State)
| Fault
| Timeout.
Arguments Done {A} a s.
Arguments Aborted {A} s.
Arguments Fault {A}.
Arguments Timeout {A}.

Definition rbind {A B} (r : Result A) (k : A -> State -> Result B) : Result B :=
  match r with
  | Done a s => k a s
  | Aborted s => Aborted s
  | Fault => Fault
  | Timeout => Timeout
  end.

Definition newline : string := String (Ascii.ascii_of_nat 10) EmptyString.

(** Modelled from the spec: [qemu_coroutine_new] belongs to the coroutine
    backend, which is not part of util/qemu-coroutine.c; by the spec it allocates
    "a fresh coroutine (new stack)", suspended and never entered.  The object
    is new and zeroed. *)
Definition fresh_coroutine : Coroutine :=
  {| entry := 0; entry_arg := 0; caller := None; ctx := 0;
     scheduled := None; locks_held := 0; co_queue_wakeup := [];
     co_queue_next := None |}.
Definition qemu_coroutine_new (s : State) : loc * State :=
  let co := fresh (dom (heap s)) in
  (co, store co fresh_coroutine s).

(** Modelled from the spec: [qemu_coroutine_delete] belongs to the coroutine
    backend as well; by the spec it "frees the stack": the object is gone. *)
Definition qemu_coroutine_delete (co : loc) (s : State) : State :=
  set_heap (delete co (heap s)) s.

Definition qemu_coroutine_self (s : State) : loc := current s.

Definition qemu_coroutine_create (entry opaque : Z) (s : State) : Result loc :=
  rbind
    (if 0 <? pool_top s then
       (* atomic_dec_fetch: the new value *)
       let top := to_uint8 (pool_top s - 1) in
       let s := set_pool_top top s in
       if top <? COROUTINE_POOL_SIZE then
         match pool s !! Z.to_nat top with
         | Some co => Done co s
         | None => Fault
         end
       else Fault
     else
       let '(co, s) := qemu_coroutine_new s in
       Done (Some co) (set_pool_total (to_uint8 (pool_total s + 1)) s))
    (fun co s =>
       match co with
       | None => Fault
       | Some co =>
           match heap s !! co with
           | None => Fault
           | Some c =>
               Done co (store co (set_co_queue_wakeup []
                                    (set_entry entry opaque c)) s)
           end
       end).

(** [coroutine_delete] in its two steps, between which another thread may
    run.  The first goes up to [atomic_fetch_inc (&coroutine_pool.top)]:
    [caller] is cleared, and either the coroutine is freed and [total]
    decremented, or a slot is claimed, the old value of [top]. *)
Definition coroutine_delete_claim (co : loc) (s : State) : Result (option Z) :=
  match heap s !! co with
  | None => Fault
  | Some c =>
      let s := store co (set_caller None c) s in
      if pool_total s >=? COROUTINE_POOL_SIZE then
        let s := qemu_coroutine_delete co s in
        Done None (set_pool_total (to_uint8 (pool_total s - 1)) s)
      else
        (* atomic_fetch_inc: the old value *)
        let slot := pool_top s in
        Done (Some slot) (set_pool_top (to_uint8 (slot + 1)) s)
  end.

(** The second step: [coroutine_pool.pool[slot] = co]. *)
Definition coroutine_delete_store (co : loc) (slot : Z) (s : State) : Result unit :=
  if slot <? COROUTINE_POOL_SIZE then
    match pool s !! Z.to_nat slot with
    | Some _ => Done tt (set_pool (<[Z.to_nat slot := Some co]> (pool s)) s)
    | None => Fault
    end
  else Fault.

Definition coroutine_delete (co : loc) (s : State) : Result unit :=
  rbind (coroutine_delete_claim co s)
        (fun slot s =>
           match slot with
           | None => Done tt s
           | Some slot => coroutine_delete_store co slot s
           end).

(** Modelled from the spec: the [QSIMPLEQ_*] macros (qemu/queue.h) are not
    part of util/.  By the spec [pending] is a FIFO onto which
    [co] is pushed, [to] is popped from its head, and [QSIMPLEQ_PREPEND]
    moves the members of the second queue, in their order, to the head of
    the first; [co_queue_next] is the "linkage used while a coroutine sits
    in a pending queue".  The macros link the members through that field:
    a push sets the link of the new member to null and the link of the
    former tail to the new member, a prepend sets the link of the tail of
    the second queue to the head of the first; taking the head off a queue
    writes to no member. *)

(** [elm->co_queue_next = next] *)
Definition set_link (elm : loc) (next : option loc) (s : State) : Result unit :=
  match heap s !! elm with
  | None => Fault
  | Some c => Done tt (store elm (set_co_queue_next next c) s)
  end.

Definition QSIMPLEQ_INSERT_TAIL (head : list loc) (elm : loc) (s : State)
    : Result (list loc) :=
  rbind (set_link elm None s)
        (fun _ s =>
           rbind (match last head with
                  | None => Done tt s
                  | Some tail => set_link tail (Some elm) s
                  end)
                 (fun _ s => Done (head ++ [elm]) s)).

Definition QSIMPLEQ_PREPEND (head1 head2 : list loc) (s : State)
    : Result (list loc * list loc) :=
  match last head2 with
  | None => Done (head1, head2) s
  | Some tail =>
      rbind (set_link tail (head head1) s)
            (fun _ s => Done (head2 ++ head1, []) s)
  end.

(** assert(3).  A failed assertion writes a diagnostic to stderr and aborts
    the process.  The diagnostic names the program, the source file, the
    line, the function and the expression, in the format of the GNU C
    library; the name of the program and the path of the file are the ones
    of a build in the root of the source tree that is run as [qemu]. *)
Definition program_name : string := "qemu".
Definition assert_failed_msg (file : string) (line : Z) (func expr : string)
    : string :=
  program_name +:+ ": " +:+ file +:+ ":" +:+ pretty line +:+ ": " +:+ func
  +:+ ": Assertion `" +:+ expr +:+ "' failed." +:+ newline.
Definition locks_held_msg : string :=
  assert_failed_msg "util/qemu-coroutine.c" 120 "qemu_aio_coroutine_enter"
                    "!to->locks_held".

Definition already_scheduled_msg (tag : string) : string :=
  "qemu_aio_coroutine_enter: Co-routine was already scheduled in '"
  +:+ tag +:+ "'" +:+ newline.
Definition reentered_msg : string :=
  "Co-routine re-entered recursively" +:+ newline.
Definition yield_to_no_one_msg : string :=
  "Co-routine is yielding to no one" +:+ newline.

Section Scheduler.
(** The stack switch of the backend: control passes to [to] and comes back
    with an action code when [to] yields or terminates, the state then
    being whatever the slice made of it.  A slice that aborts the process
    ends the call that way. *)
Variable qemu_coroutine_switch :
  loc -> loc -> CoroutineAction -> State -> Result CoroutineAction.
Variable qemu_get_current_aio_context : State -> Z.

(** One turn of the loop of [qemu_aio_coroutine_enter], in two halves.
    [to] has been taken from the head of the pending queue, [rest] is what
    remains of it.  [after_switch] is the half that follows the return of
    the switch with the action [ret]; its result is the pending queue for
    the next turn. *)
Definition after_switch (to : loc) (rest : list loc) (ret : CoroutineAction)
    (s : State) : Result (list loc) :=
  match heap s !! to with
  | None => Fault
  | Some c =>
      rbind (QSIMPLEQ_PREPEND rest (co_queue_wakeup c) s)
            (fun queues s =>
               let '(pending, wakeup) := queues in
               match heap s !! to with
               | None => Fault
               | Some c =>
                   let s := store to (set_co_queue_wakeup wakeup c) s in
                   match ret with
                   | COROUTINE_YIELD => Done pending s
                   | COROUTINE_TERMINATE =>
                       if negb (locks_held c =? 0)
                       then Aborted (fprintf_stderr locks_held_msg s)
                       else
                         let s := trace (TraceTerminate to) s in
                         rbind (coroutine_delete to s) (fun _ s => Done pending s)
                   | COROUTINE_ENTER => Aborted s
                   end
               end)
  end.

Definition enter_slice (ctx : Z) (from to : loc) (rest : list loc)
    (s : State) : Result (list loc) :=
  match heap s !! to with
  | None => Fault
  | Some c =>
      let scheduled := scheduled c in
      let s := trace (TraceEnter ctx from to (entry_arg c)) s in
      match scheduled with
      | Some tag => Aborted (fprintf_stderr (already_scheduled_msg tag) s)
      | None =>
          match caller c with
          | Some _ => Aborted (fprintf_stderr reentered_msg s)
          | None =>
              let s := store to (set_ctx ctx (set_caller (Some from) c)) s in
              rbind (qemu_coroutine_switch from to COROUTINE_ENTER s)
                    (after_switch to rest)
          end
      end
  end.

(** [while (!QSIMPLEQ_EMPTY(&pending)) { ... }] *)
Fixpoint run_pending (fuel : nat) (ctx : Z) (from : loc) (pending : list loc)
    (s : State) : Result unit :=
  match pending with
  | [] => Done tt s
  | to :: rest =>
      match fuel with
      | O => Timeout
      | S fuel =>
          rbind (enter_slice ctx from to rest s)
                (fun pending s => run_pending fuel ctx from pending s)
      end
  end.

Definition qemu_aio_coroutine_enter (fuel : nat) (ctx : Z) (co : loc)
    (s : State) : Result unit :=
  let pending := [] in
  let from := qemu_coroutine_self s in
  rbind (QSIMPLEQ_INSERT_TAIL pending co s)
        (fun pending s => run_pending fuel ctx from pending s).

Definition qemu_coroutine_enter (fuel : nat) (co : loc) (s : State) : Result unit :=
  qemu_aio_coroutine_enter fuel (qemu_get_current_aio_context s) co s.

Definition qemu_coroutine_entered (co : loc) (s : State) : Result bool :=
  match heap s !! co with
  | None => Fault
  | Some c => Done (bool_decide (is_Some (caller c))) s
  end.

Definition qemu_coroutine_enter_if_inactive (fuel : nat) (co : loc)
    (s : State) : Result unit :=
  rbind (qemu_coroutine_entered co s)
        (fun entered s =>
           if negb entered then qemu_coroutine_enter fuel co s else Done tt s).

Definition qemu_coroutine_yield (s : State) : Result unit :=
  let self := qemu_coroutine_self s in
  match heap s !! self with
  | None => Fault
  | Some c =>
      let to := caller c in
      let s := trace (TraceYield self to) s in
      match to with
      | None => Aborted (fprintf_stderr yield_to_no_one_msg s)
      | Some to =>
          let s := store self (set_caller None c) s in
          rbind (qemu_coroutine_switch self to COROUTINE_YIELD s)
                (fun _ s => Done tt s)
      end
  end.

Definition qemu_coroutine_get_aio_context (co : loc) (s : State) : Result Z :=
  match heap s !! co with
  | None => Fault
  | Some c => Done (ctx c) s
  end.
End Scheduler.

(** *** Concrete states *)

(** The process at start: the pool is empty, the only coroutine is the
    leader of the thread, which is the one running. *)
Definition leader : loc := 1%positive.
Definition initial_state : State :=
  {| heap := {[ leader := fresh_coroutine ]};
     pool_total := 0; pool_top := 0;
     pool := replicate 16 None;
     current := leader; stderr := []; traced := [] |}.

(** *** Scenario: create a coroutine, run it to termination, repeat *)

(** A coroutine whose entry function returns at once: the switch into it
    comes back with [COROUTINE_TERMINATE] and nothing else has happened. *)
Definition returns_at_once (from to : loc) (action : CoroutineAction)
    (s : State) : Result CoroutineAction :=
  Done COROUTINE_TERMINATE s.

Definition create_and_terminate (entry opaque : Z) (s : State) : Result loc :=
  rbind (qemu_coroutine_create entry opaque s)
        (fun co s =>
           rbind (qemu_aio_coroutine_enter returns_at_once 1 0 co s)
                 (fun _ s => Done co s)).

(** [n] steps of it; the coroutines created, in order. *)
Fixpoint recycle_run (n : nat) (s : State) : Result (list loc) :=
  match n with
  | O => Done [] s
  | S n =>
      rbind (create_and_terminate 0 0 s)
            (fun co s => rbind (recycle_run n s) (fun l s => Done (co :: l) s))
  end.

(** *** Specification-level notions *)

(** One coroutine [co] exists besides the running one, and it rests in slot
    0 of the pool. *)
Definition one_pooled (co : loc) (s : State) : Prop :=
  pool_total s = 1 /\ pool_top s = 1 /\
  pool s !! 0%nat = Some (Some co) /\
  exists c, heap s !! co = Some c /\
            caller c = None /\ scheduled c = None /\ locks_held c = 0.

(** The state after the first step from the start. *)
Definition first_coroutine : loc := 2%positive.
Definition after_first_step : State :=
  {| heap := <[ first_coroutine := fresh_coroutine ]> {[ leader := fresh_coroutine ]};
     pool_total := 1; pool_top := 1;
     pool := Some first_coroutine :: replicate 15 None;
     current := leader; stderr := [];
     traced := [TraceEnter 0 leader first_coroutine 0;
                TraceTerminate first_coroutine] |}.

(** The free list is in order: [top] is within the array, and each of the
    slots below [top] holds a coroutine object whose [caller] is null. *)
Definition pool_rested (s : State) : Prop :=
  0 <= pool_top s <= COROUTINE_POOL_SIZE /\
  forall i, 0 <= i < pool_top s ->
    exists co c, pool s !! Z.to_nat i = Some (Some co) /\
                 heap s !! co = Some c /\ caller c = None.

(** [co] is not on the free list. *)
Definition not_pooled (co : loc) (s : State) : Prop :=
  forall i, 0 <= i < pool_top s -> pool s !! Z.to_nat i <> Some (Some co).

(** A switch under which the slices leave the free list in order. *)
Definition switch_keeps_rested
    (sw : loc -> loc -> CoroutineAction -> State -> Result CoroutineAction) : Prop :=
  forall from to action s ret s',
    sw from to action s = Done ret s' ->
    pool_rested s -> not_pooled to s ->
    pool_rested s' /\ not_pooled to s'.

(** *** Scenarios with several coroutines *)

Definition set_current (co : loc) (s : State) : State :=
  {| heap := heap s; pool_total := pool_total s; pool_top := pool_top s;
     pool := pool s; current := co; stderr := stderr s;
     traced := traced s |}.

Definition co_A : loc := 2%positive.
Definition co_B : loc := 3%positive.
Definition co_C : loc := 4%positive.
Definition co_D : loc := 5%positive.

(** Four coroutines have been created and none has been entered; the
    leader runs. *)
Definition four_coroutines : State :=
  {| heap := list_to_map [(leader, fresh_coroutine); (co_A, fresh_coroutine);
                          (co_B, fresh_coroutine); (co_C, fresh_coroutine);
                          (co_D, fresh_coroutine)];
     pool_total := 4; pool_top := 0;
     pool := replicate 16 None;
     current := leader; stderr := []; traced := [] |}.

(** The way back from a slice: control passes to [to] with the action. *)
Definition switch_back (self to : loc) (action : CoroutineAction)
    (s : State) : Result CoroutineAction :=
  Done action (set_current to s).

(** What a wake-up does (the wake paths are outside this file): the woken
    coroutine is pushed onto the wake-up queue of the coroutine that
    runs. *)
Definition queue_wakeup (self co : loc) (s : State) : Result unit :=
  match heap s !! self with
  | None => Fault
  | Some c =>
      rbind (QSIMPLEQ_INSERT_TAIL (co_queue_wakeup c) co s)
            (fun q s =>
               match heap s !! self with
               | None => Fault
               | Some c => Done tt (store self (set_co_queue_wakeup q c) s)
               end)
  end.

Fixpoint queue_wakeups (self : loc) (l : list loc) (s : State) : Result unit :=
  match l with
  | [] => Done tt s
  | co :: l => rbind (queue_wakeup self co s) (fun _ s => queue_wakeups self l s)
  end.

(** Bodies that queue the coroutines [wakes to] for wake-up, in this order,
    and then yield. *)
Definition waking_switch (wakes : loc -> list loc) (from to : loc)
    (action : CoroutineAction) (s : State) : Result CoroutineAction :=
  let s := set_current to s in
  rbind (queue_wakeups to (wakes to) s)
        (fun _ s =>
           rbind (qemu_coroutine_yield switch_back s)
                 (fun _ s => Done COROUTINE_YIELD s)).

(** The depth-first scenario: [co_A] wakes [co_B] then [co_C], [co_B] wakes
    [co_D], the others wake nobody. *)
Definition scenario_wakes (co : loc) : list loc :=
  if decide (co = co_A) then [co_B; co_C]
  else if decide (co = co_B) then [co_D]
  else [].


(** No coroutine is entered, claimed by a wake path, or has anything queued
    for wake-up. *)
Definition all_idle (s : State) : Prop :=
  forall co c, heap s !! co = Some c ->
    caller c = None /\ scheduled c = None /\ co_queue_wakeup c = [].

(** A body that enters its own coroutine. *)
Definition self_entering_switch (from to : loc) (action : CoroutineAction)
    (s : State) : Result CoroutineAction :=
  let s := set_current to s in
  rbind (qemu_aio_coroutine_enter returns_at_once 1 0 to s)
        (fun _ s => Done COROUTINE_TERMINATE (set_current from s)).

(** The coroutines entered, in order, according to the trace. *)
Definition entered_order (tr : list trace_event) : list loc :=
  omap (fun e => match e with TraceEnter _ _ to _ => Some to | _ => None end) tr.

(** *** The switch as an argument *)

Definition Switch : Type :=
  loc -> loc -> CoroutineAction -> State -> Result CoroutineAction.

(** The state in which the slice of [to] starts: the entry has been traced,
    [caller] and [ctx] have been set. *)
Definition slice_start (ctx : Z) (from to : loc) (c : Coroutine) (s : State) : State :=
  store to (set_ctx ctx (set_caller (Some from) c))
        (trace (TraceEnter ctx from to (entry_arg c)) s).

(** *** Further scenarios and notions *)

(** [n] coroutines are created and none is entered; the coroutines created,
    in order. *)
Fixpoint create_many (n : nat) (s : State) : Result (list loc) :=
  match n with
  | O => Done [] s
  | S n =>
      rbind (qemu_coroutine_create 0 0 s)
            (fun co s => rbind (create_many n s) (fun l s => Done (co :: l) s))
  end.

(** The counters of the pool add up: the free list holds no more
    coroutines than exist, it stops short of the last slot of the array,
    [total] fits its byte, and the array has its 16 slots. *)
Definition pool_counted (s : State) : Prop :=
  0 <= pool_top s <= pool_total s /\
  pool_top s <= COROUTINE_POOL_SIZE - 1 /\
  pool_total s < 256 /\
  length (pool s) = 16%nat.

(** Bodies that yield at once, every time. *)
Definition yielding_switch (from to : loc) (action : CoroutineAction)
    (s : State) : Result CoroutineAction :=
  waking_switch (fun _ => []) from to action s.

(** [n] calls of [qemu_aio_coroutine_enter] for [co], one after the
    other. *)
Fixpoint enter_times
    (sw : loc -> loc -> CoroutineAction -> State -> Result CoroutineAction)
    (n : nat) (ctx : Z) (co : loc) (s : State) : Result unit :=
  match n with
  | O => Done tt s
  | S n =>
      rbind (qemu_aio_coroutine_enter sw 1 ctx co s)
            (fun _ s => enter_times sw n ctx co s)
  end.

(** A slice that ends with the action [ret], leaving [locks] locks held and
    [queued] on the wake-up queue of the coroutine. *)
Definition ending_switch (ret : CoroutineAction) (locks : Z) (queued : list loc)
    (from to : loc) (action : CoroutineAction) (s : State)
    : Result CoroutineAction :=
  match heap s !! to with
  | None => Fault
  | Some c =>
      Done ret
        (store to {| entry := entry c; entry_arg := entry_arg c;
                     caller := caller c; ctx := ctx c;
                     scheduled := scheduled c; locks_held := locks;
                     co_queue_wakeup := queued;
                     co_queue_next := co_queue_next c |} s)
  end.

(** *** States up to the queue links *)

Definition unlinked (c : Coroutine) : Coroutine := set_co_queue_next None c.

Definition heap_like (h h' : gmap loc Coroutine) : Prop :=
  forall x, unlinked <$> h !! x = unlinked <$> h' !! x.

(** Two states that differ in the queue links of their coroutines only. *)
Definition like (s s' : State) : Prop :=
  heap_like (heap s) (heap s') /\
  pool_total s = pool_total s' /\ pool_top s = pool_top s' /\
  pool s = pool s' /\ current s = current s' /\
  stderr s = stderr s' /\ traced s = traced s'.

(** *** Wake-ups as a forest *)

(** The wake-ups of a run.  [woken co woke next] is the coroutine [co], the
    forest of the coroutines its slice wakes, each with what it wakes in
    turn, and the forest of the coroutines that are queued after [co] on
    the queue [co] sits on. *)
Inductive wake_forest :=
| nobody
| woken (co : loc) (woke : wake_forest) (next : wake_forest).

(** The queue itself: the roots of the forest, in order. *)
Fixpoint roots (f : wake_forest) : list loc :=
  match f with
  | nobody => []
  | woken co _ next => co :: roots next
  end.

(** Depth-first order: a coroutine, then everything its slice has set
    going, and only then the coroutines that were queued after it. *)
Fixpoint preorder (f : wake_forest) : list loc :=
  match f with
  | nobody => []
  | woken co woke next => co :: preorder woke ++ preorder next
  end.

Fixpoint forest_size (f : wake_forest) : nat :=
  match f with
  | nobody => 0
  | woken _ woke next => S (forest_size woke + forest_size next)
  end.

(** The bodies do what the forest says: every coroutine of the forest
    wakes the roots of its sub-forest, in their order. *)
Fixpoint follows (wakes : loc -> list loc) (f : wake_forest) : Prop :=
  match f with
  | nobody => True
  | woken co woke next =>
      wakes co = roots woke /\ follows wakes woke /\ follows wakes next
  end.

(** The forest of the depth-first scenario: [co_A] wakes [co_B] and
    [co_C], and [co_B] wakes [co_D]. *)
Definition scenario_forest : wake_forest :=
  woken co_A (woken co_B (woken co_D nobody nobody)
                         (woken co_C nobody nobody))
        nobody.

(** A pending queue [co_A; co_D] whose head wakes [co_B] and [co_C]. *)
Definition pair_wakes (co : loc) : list loc :=
  if decide (co = co_A) then [co_B; co_C] else [].
Definition pending_forest : wake_forest :=
  woken co_A (woken co_B nobody (woken co_C nobody nobody))
        (woken co_D nobody nobody).

(** *** Two threads at the pool

    Thread 1 has created a coroutine, run it to its end, so that it rests
    in slot 0, and taken it back with a second [qemu_coroutine_create]:
    slot 0 keeps the pointer, above [top = 0].  It has created a second
    coroutine, and it has entered the first, whose slice now runs.  The
    second coroutine ends in thread 2, which has done the first step of
    [coroutine_delete] for it, the claim of slot 0, when thread 1 calls
    [qemu_coroutine_create (e, a)].  The result is what this call
    returns. *)
Definition racing_create (e a : Z) : Result loc :=
  rbind (create_and_terminate 0 0 initial_state)
        (fun _ s =>
  rbind (qemu_coroutine_create 0 0 s)
        (fun co1 s =>
  rbind (qemu_coroutine_create 0 0 s)
        (fun co2 s =>
           match heap s !! co1 with
           | None => Fault
           | Some c =>
               (* thread 1, [qemu_aio_coroutine_enter (ctx, co1)] up to the
                  switch *)
               let c0 := set_co_queue_next None c in
               let s := slice_start 0 leader co1 c0 (store co1 c0 s) in
               (* thread 2, [coroutine_delete (co2)] up to the claim *)
               rbind (coroutine_delete_claim co2 s)
                     (fun _ s =>
                        (* thread 1 *)
                        qemu_coroutine_create e a s)
           end))).

(** The state after 255 coroutines have been created from the start and
    none has terminated. *)
Definition crowded : State :=
  match create_many 255 initial_state with
  | Done _ s => s
  | _ => initial_state
  end.

(** [co_A] and [co_B] were woken together, so that the link of [co_A]
    points to [co_B]; [co_A] has since been taken from the head of the
    pending queue, which writes to no member, and it runs, entered by the
    leader. *)
Definition woken_pair : State :=
  {| heap := list_to_map
               [(leader, fresh_coroutine);
                (co_A, set_co_queue_next (Some co_B)
                         (set_caller (Some leader) fresh_coroutine));
                (co_B, fresh_coroutine)];
     pool_total := 2; pool_top := 0;
     pool := replicate 16 None;
     current := co_A; stderr := []; traced := [] |}.

End QemuCoroutine.

(** ** Part III: properties of the mapper *)
Module MmapAllocProofs.
Import MmapAlloc.
Local Open Scope c_scope.

(** *** The page-size probe *)

Section ProbeFacts.
Variable P : Platform.
Variable K : Host.

Lemma sys_fstatfs_inv fd w r w' :
  sys_fstatfs K fd w = Some (Ret r, w') ->
  events w' = events w ++ [EvFstatfs fd r] /\
  (forall e, r = StatfsErr e -> errno w' = e).
Proof.
  unfold sys_fstatfs. intros Hs.
  destruct (if fd <? 0 then StatfsErr EBADF else k_fstatfs K (events w) fd)
    as [fs|e] eqn:Hr; inversion Hs; subst; simpl; split; auto; congruence.
Qed.

Lemma sys_fstatfs_negative fd w r w' :
  fd < 0 -> sys_fstatfs K fd w = Some (Ret r, w') -> r = StatfsErr EBADF.
Proof.
  intros Hneg. unfold sys_fstatfs.
  destruct (Z.ltb_spec fd 0) as [_|Hge]; [|lia]. simpl. congruence.
Qed.

Lemma fstatfs_retry_answers fd n w r w' fuel :
  probe_answers K fd n w r w' -> (n < fuel)%nat ->
  fstatfs_retry K fuel fd w = Some (Ret r, w').
Proof.
  intros Hp. revert fuel.
  induction Hp as [w r w' Hs Hr | n w w1 r w' Hs Hp IH]; intros fuel Hlt.
  - destruct fuel as [|fuel]; [lia|]. simpl. unfold bind. rewrite Hs.
    destruct r as [fs|e]; [reflexivity|].
    destruct (sys_fstatfs_inv _ _ _ _ Hs) as [_ He].
    unfold get_errno. rewrite (He e eq_refl).
    destruct (decide (e = EINTR)) as [->|Hne]; [congruence|reflexivity].
  - destruct fuel as [|fuel]; [lia|]. simpl. unfold bind. rewrite Hs.
    destruct (sys_fstatfs_inv _ _ _ _ Hs) as [_ He].
    unfold get_errno. rewrite (He EINTR eq_refl).
    destruct (decide (EINTR = EINTR)); [|congruence].
    apply IH. lia.
Qed.

Lemma probe_answers_events fd n w r w' :
  probe_answers K fd n w r w' ->
  events w' = events w ++ replicate n (EvFstatfs fd (StatfsErr EINTR))
                       ++ [EvFstatfs fd r].
Proof.
  induction 1 as [w r w' Hs Hr | n w w1 r w' Hs Hp IH].
  - destruct (sys_fstatfs_inv _ _ _ _ Hs) as [He _]. exact He.
  - destruct (sys_fstatfs_inv _ _ _ _ Hs) as [He _].
    rewrite IH, He. simpl. rewrite <- app_assoc. reflexivity.
Qed.

Lemma probe_answers_negative fd n w r w' :
  fd < 0 -> probe_answers K fd n w r w' -> n = 0%nat /\ r = StatfsErr EBADF.
Proof.
  intros Hneg [w1 r1 w1' Hs Hr | n1 w1 w2 r1 w1' Hs Hp].
  - split; [reflexivity|]. eapply sys_fstatfs_negative; eauto.
  - apply sys_fstatfs_negative in Hs; [discriminate|assumption].
Qed.
End ProbeFacts.

(** C6. [qemu_fd_getpagesize] returns the block size of the probed filesystem
    exactly when the descriptor is non-negative and the probe succeeds on a
    hugepage filesystem; in every other case (no probe at all without
    [CONFIG_LINUX] or for [fd = -1], a negative descriptor, a failed probe,
    another filesystem) it returns the real page size of the host, or
    [QEMU_VMALLOC_ALIGN] in its place on SPARC Linux; it always returns to
    its caller; and the probe is repeated exactly as long as it fails with
    EINTR. *)
Theorem C6_fd_getpagesize_probe (P : Platform) (K : Host) (fd : Z) :
  let host_page_size :=
    if CONFIG_LINUX P && arch_sparc P
    then QEMU_VMALLOC_ALIGN P else qemu_real_host_page_size P in
  (* no probe is made *)
  (CONFIG_LINUX P = false \/ fd = -1 ->
   forall fuel w,
     qemu_fd_getpagesize P K fuel fd w = Some (Ret host_page_size, w)) /\
  (* the probe is made, interrupted n times, and answered by r *)
  (CONFIG_LINUX P = true -> fd <> -1 ->
   forall n w r w' fuel,
     probe_answers K fd n w r w' -> (n < fuel)%nat ->
     qemu_fd_getpagesize P K fuel fd w
       = Some (Ret (match r with
                    | StatfsOk fs =>
                        if (0 <=? fd) && (f_type fs =? HUGETLBFS_MAGIC)
                        then to_size_t (f_bsize fs) else host_page_size
                    | StatfsErr _ => host_page_size
                    end), w') /\
     events w' = events w ++ replicate n (EvFstatfs fd (StatfsErr EINTR))
                          ++ [EvFstatfs fd r] /\
     r <> StatfsErr EINTR).
Proof.
  intros host_page_size.
  assert (Hfb : fallback_pagesize P = host_page_size) by reflexivity.
  clearbody host_page_size. split.
  - intros Hno fuel w. unfold qemu_fd_getpagesize. rewrite Hfb.
    destruct (CONFIG_LINUX P); [|reflexivity].
    destruct Hno as [Hno| ->]; [discriminate|reflexivity].
  - intros Hlinux Hfd n w r w' fuel Hp Hlt.
    split; [|split].
    + unfold qemu_fd_getpagesize. rewrite Hfb, Hlinux.
      destruct (Z.eqb_spec fd (-1)) as [|_]; [contradiction|]. simpl.
      unfold bind. rewrite (fstatfs_retry_answers K fd n w r w' fuel Hp Hlt).
      destruct r as [fs|e]; [|reflexivity].
      destruct (Z.leb_spec 0 fd) as [_|Hneg];
        [simpl; destruct (f_type fs =? HUGETLBFS_MAGIC); reflexivity|].
      destruct (probe_answers_negative K fd n w _ w' Hneg Hp) as [_ Hr].
      discriminate.
    + eapply probe_answers_events; eauto.
    + clear Hlt. induction Hp; auto.
Qed.

(** On x86-64 Linux with 4 KiB pages: 2 MiB for a descriptor on hugetlbfs
    whose probe is interrupted twice, 4096 for a descriptor on an ordinary
    filesystem, and 4096 for no descriptor. *)
Lemma C6_fd_getpagesize_probe_witness :
  qemu_fd_getpagesize linux_x86_64 hugetlbfs_host 3 5 w0
  = Some (Ret 2097152,
          {| events := [EvFstatfs 5 (StatfsErr EINTR); EvFstatfs 5 (StatfsErr EINTR);
                        EvFstatfs 5 (StatfsOk {| f_type := HUGETLBFS_MAGIC;
                                                 f_bsize := 2097152 |})];
             errno := EINTR |}) /\
  qemu_fd_getpagesize linux_x86_64 plain_host 1 5 w0
  = Some (Ret 4096,
          {| events := [EvFstatfs 5 (StatfsOk {| f_type := 0xEF53;
                                                 f_bsize := 4096 |})];
             errno := EINVAL |}) /\
  qemu_fd_getpagesize linux_x86_64 plain_host 1 (-1) w0 = Some (Ret 4096, w0).
Proof.
  split; [|split].
  - refine (proj1 (proj2 (C6_fd_getpagesize_probe linux_x86_64 hugetlbfs_host 5)
                     eq_refl _ 2%nat w0
                     (StatfsOk {| f_type := HUGETLBFS_MAGIC; f_bsize := 2097152 |})
                     _ 3%nat _ _)); [lia | | lia].
    eapply probe_interrupted; [reflexivity|].
    eapply probe_interrupted; [reflexivity|].
    eapply probe_final; [reflexivity|discriminate].
  - refine (proj1 (proj2 (C6_fd_getpagesize_probe linux_x86_64 plain_host 5)
                     eq_refl _ 0%nat w0
                     (StatfsOk {| f_type := 0xEF53; f_bsize := 4096 |})
                     _ 1%nat _ _)); [lia | | lia].
    eapply probe_final; [reflexivity|discriminate].
  - refine (proj1 (C6_fd_getpagesize_probe linux_x86_64 plain_host (-1))
              (or_intror eq_refl) 1%nat w0).
Defined.

(** *** Arithmetic of the aligned base *)

Lemma to_size_t_range z : 0 <= to_size_t z < 2 ^ SIZE_BITS.
Proof. unfold to_size_t. apply Z.mod_pos_bound. reflexivity. Qed.

Lemma to_size_t_small z : 0 <= z < 2 ^ SIZE_BITS -> to_size_t z = z.
Proof. unfold to_size_t. apply Z.mod_small. Qed.

Lemma is_power_of_2_pos align : is_power_of_2 align = true -> 0 < align.
Proof.
  unfold is_power_of_2. intros Hp. apply andb_true_iff in Hp as [Hp _].
  now apply Z.ltb_lt.
Qed.

Lemma QEMU_ALIGN_UP_divide ptr align :
  0 < align -> (align | QEMU_ALIGN_UP ptr align).
Proof.
  intros Hpos. unfold QEMU_ALIGN_UP, QEMU_ALIGN_DOWN.
  set (x := to_size_t (ptr + align - 1)).
  assert (Hx : 0 <= x < 2 ^ SIZE_BITS) by apply to_size_t_range.
  assert (Hq : 0 <= x / align * align <= x).
  { split.
    - apply Z.mul_nonneg_nonneg; [apply Z.div_pos|]; lia.
    - rewrite Z.mul_comm. apply Z.mul_div_le. lia. }
  rewrite to_size_t_small by lia.
  exists (x / align). reflexivity.
Qed.

(** [ptr + offset], computed in pointer arithmetic, is [ptr] rounded up. *)
Lemma aligned_base_eq ptr align :
  to_size_t (ptr + to_size_t (QEMU_ALIGN_UP ptr align - ptr))
  = QEMU_ALIGN_UP ptr align.
Proof.
  unfold to_size_t at 1 2. rewrite Zplus_mod_idemp_r.
  replace (ptr + (QEMU_ALIGN_UP ptr align - ptr)) with (QEMU_ALIGN_UP ptr align) by lia.
  apply to_size_t_small. unfold QEMU_ALIGN_UP, QEMU_ALIGN_DOWN. apply to_size_t_range.
Qed.

Lemma aligned_base_divide ptr align :
  0 < align ->
  (align | to_size_t (ptr + to_size_t (QEMU_ALIGN_UP ptr align - ptr))).
Proof. intros. rewrite aligned_base_eq. now apply QEMU_ALIGN_UP_divide. Qed.

Section MapperFacts.
Variable P : Platform.
Variable K : Host.

Lemma fstatfs_retry_returns fuel fd w o w' :
  fstatfs_retry K fuel fd w = Some (o, w') ->
  (exists r, o = Ret r) /\
  exists l, events w' = events w ++ l /\
            Forall (fun e => exists fd' r', e = EvFstatfs fd' r') l.
Proof.
  revert w. induction fuel as [|fuel IH]; intros w; simpl; [discriminate|].
  unfold bind.
  destruct (sys_fstatfs K fd w) as [[[r| |] w1]|] eqn:Hs;
    try (unfold sys_fstatfs in Hs;
         destruct (if fd <? 0 then _ else _); discriminate).
  destruct (sys_fstatfs_inv K _ _ _ _ Hs) as [Hev _].
  assert (Hone : Forall (fun e => exists fd' r', e = EvFstatfs fd' r')
                        [EvFstatfs fd r]) by (repeat constructor; eauto).
  destruct r as [fs|e].
  - intros [= <- <-]. split; eauto.
  - unfold get_errno.
    destruct (decide (errno w1 = EINTR)).
    + intros Hrec. destruct (IH _ Hrec) as [Hr (l & Hl & Hall)].
      split; [assumption|]. exists ([EvFstatfs fd (StatfsErr e)] ++ l).
      split; [rewrite Hl, Hev, <- app_assoc; reflexivity|].
      apply Forall_app; auto.
    + intros [= <- <-]. split; eauto.
Qed.

Lemma qemu_fd_getpagesize_returns fuel fd w o w' :
  qemu_fd_getpagesize P K fuel fd w = Some (o, w') ->
  (exists ps, o = Ret ps) /\
  exists l, events w' = events w ++ l /\
            Forall (fun e => exists fd' r', e = EvFstatfs fd' r') l.
Proof.
  assert (Hnil : forall (v : Z) (w1 : World),
             (exists ps, Ret v = Ret ps) /\
             exists l, events w1 = events w1 ++ l /\
               Forall (fun e => exists fd' r', e = EvFstatfs fd' r') l).
  { intros v w1. split; [eauto|]. exists []. rewrite app_nil_r. auto. }
  unfold qemu_fd_getpagesize.
  destruct (CONFIG_LINUX P); [|intros [= <- <-]; apply Hnil].
  destruct (negb (fd =? -1)); [|intros [= <- <-]; apply Hnil].
  unfold bind.
  destruct (fstatfs_retry K fuel fd w) as [[o1 w1]|] eqn:Hr; [|discriminate].
  destruct (fstatfs_retry_returns _ _ _ _ _ Hr) as [[r ->] Hl].
  destruct r as [fs|e].
  - destruct (f_type fs =? HUGETLBFS_MAGIC); intros [= <- <-]; eauto.
  - intros [= <- <-]; eauto.
Qed.

(** The mapper and the unmapper derive the page size by the same rule. *)
Lemma reservation_params_rule fuel fd w ps w1 :
  spec_pagesize_rule P K fuel fd w = Some (Ret ps, w1) <->
  exists flags mapfd,
    reservation_params P K fuel fd w = Some (Ret (flags, ps, mapfd), w1).
Proof.
  unfold spec_pagesize_rule, reservation_params.
  destruct (powerpc64_linux P).
  - unfold bind.
    destruct (qemu_fd_getpagesize P K fuel fd w) as [[o w2]|] eqn:Hq.
    + destruct (qemu_fd_getpagesize_returns _ _ _ _ _ Hq) as [[ps' ->] _].
      destruct ((fd =? -1) || (ps' =? qemu_real_host_page_size P)); unfold ret;
        (split; [intros Hx; inversion Hx; subst; eauto
                | intros (fl & mfd & Hx); inversion Hx; subst; reflexivity]).
    + split; [discriminate | intros (fl & mfd & Hx); discriminate].
  - unfold ret. split; [intros Hx; inversion Hx; subst; eauto|].
    intros (fl & mfd & Hx); inversion Hx; subst. reflexivity.
Qed.
End MapperFacts.

Lemma spec_pagesize_rule_events P K fuel fd w ps w1 :
  spec_pagesize_rule P K fuel fd w = Some (Ret ps, w1) ->
  exists l, events w1 = events w ++ l /\
            Forall (fun e => exists fd' r', e = EvFstatfs fd' r') l.
Proof.
  unfold spec_pagesize_rule. destruct (powerpc64_linux P).
  - intros Hq. apply (qemu_fd_getpagesize_returns P K _ _ _ _ _ Hq).
  - intros Hx. inversion Hx; subst. exists []. rewrite app_nil_r. auto.
Qed.

(** C9. [qemu_ram_munmap] does nothing for a null pointer; for any other
    pointer it derives the page size by the rule the mapper uses and releases
    [size + pagesize] bytes starting at the pointer, in one [munmap]: the
    bytes up to the end of the trailing guard, and no byte below the
    pointer. *)
Theorem C9_munmap_span (P : Platform) (K : Host) (fuel : nat) (fd ptr size : Z)
    (w : World) :
  (ptr = 0 -> qemu_ram_munmap P K fuel fd ptr size w = Some (Ret tt, w)) /\
  (ptr <> 0 ->
   forall ps w1,
     spec_pagesize_rule P K fuel fd w = Some (Ret ps, w1) ->
     let len := to_size_t (size + ps) in
     let w' := log (EvMunmap ptr len (k_munmap K (events w1) ptr len)) w1 in
     qemu_ram_munmap P K fuel fd ptr size w = Some (Ret tt, w') /\
     (forall a, released_between w w' a <-> ptr <= a < ptr + len) /\
     (0 <= size + ps < 2 ^ SIZE_BITS -> len = size + ps) /\
     (forall flags ps' mapfd w2,
        reservation_params P K fuel fd w = Some (Ret (flags, ps', mapfd), w2) ->
        ps' = ps /\ w2 = w1)).
Proof.
  split.
  - intros ->. reflexivity.
  - intros Hptr ps w1 Hrule len w'.
    split; [|split; [|split]].
    + unfold qemu_ram_munmap.
      destruct (Z.eqb_spec ptr 0) as [|_]; [contradiction|]. simpl.
      unfold bind. fold (spec_pagesize_rule P K fuel fd). rewrite Hrule.
      reflexivity.
    + destruct (spec_pagesize_rule_events _ _ _ _ _ _ _ Hrule) as (l & Hl & Hall).
      intros a. unfold released_between. subst w'. simpl. rewrite Hl.
      rewrite <- app_assoc, drop_app_length.
      split.
      * intros (addr & n & r & Hin & Hrange).
        apply elem_of_app in Hin as [Hin|Hin].
        -- rewrite Forall_forall in Hall. destruct (Hall _ Hin) as (? & ? & ?).
           discriminate.
        -- apply list_elem_of_singleton in Hin. inversion Hin; subst. exact Hrange.
      * intros Hrange. exists ptr, len, (k_munmap K (events w ++ l) ptr len).
        split; [|exact Hrange]. apply elem_of_app. right.
        apply list_elem_of_singleton. reflexivity.
    + intros Hr. apply to_size_t_small. exact Hr.
    + intros flags ps' mapfd w2 Hparams.
      assert (Hrule' : spec_pagesize_rule P K fuel fd w = Some (Ret ps', w2)).
      { apply reservation_params_rule. eauto. }
      rewrite Hrule in Hrule'. inversion Hrule'. auto.
Qed.

Lemma C9_munmap_span_witness :
  qemu_ram_munmap linux_ppc64 hugetlbfs_host 3 5 139637976727552 2097152 w0
  = Some (Ret tt,
          {| events := [EvFstatfs 5 (StatfsErr EINTR); EvFstatfs 5 (StatfsErr EINTR);
                        EvFstatfs 5 (StatfsOk {| f_type := HUGETLBFS_MAGIC;
                                                 f_bsize := 2097152 |});
                        EvMunmap 139637976727552 4194304 0];
             errno := EINTR |}).
Proof.
  refine (proj1 (proj2 (C9_munmap_span linux_ppc64 hugetlbfs_host 3 5
                          139637976727552 2097152 w0) _ 2097152
                   {| events := [EvFstatfs 5 (StatfsErr EINTR);
                                 EvFstatfs 5 (StatfsErr EINTR);
                                 EvFstatfs 5 (StatfsOk {| f_type := HUGETLBFS_MAGIC;
                                                          f_bsize := 2097152 |})];
                      errno := EINTR |} _)); [lia | reflexivity].
Defined.

Arguments to_size_t : simpl never.
Arguments MAP_FAILED : simpl never.

Lemma substring_whole (s : string) : String.substring 0 (String.length s) s = s.
Proof. induction s as [|c s IH]; simpl; [reflexivity|]. now rewrite IH. Qed.

Section MapperStages.
Variable P : Platform.
Variable K : Host.

Lemma qemu_ram_mmap_stages fuel fd size align shared is_pmem w flags0 ps mapfd w1 :
  reservation_params P K fuel fd w = Some (Ret (flags0, ps, mapfd), w1) ->
  is_power_of_2 align = true ->
  ps <= align ->
  let flags := map_flags P flags0 fd shared in
  let sync := map_sync_flags P shared is_pmem in
  let total := to_size_t (size + align + ps) in
  qemu_ram_mmap P K fuel fd size align shared is_pmem w
  = (ptr <- sys_mmap K total (map_prot P) (Z.lor flags sync) mapfd ;;
     ptr <- (if (ptr =? MAP_FAILED) && negb (sync =? 0)
             then map_retry P K fd size flags mapfd else ret ptr) ;;
     if ptr =? MAP_FAILED then ret MAP_FAILED
     else map_guards P K size align ps total ptr) w1.
Proof.
  intros Hparams Hpow Hle flags sync total.
  unfold qemu_ram_mmap. unfold bind at 1. rewrite Hparams.
  unfold bind at 1. rewrite Hpow. simpl c_assert. unfold ret at 1.
  unfold bind at 1. replace (align >=? ps) with true
    by (symmetry; apply Z.geb_le; lia).
  simpl c_assert. unfold ret at 1.
  reflexivity.
Qed.

(** The last stage always returns the aligned base; it only issues
    [mprotect] and [munmap] requests and leaves [errno] alone. *)
Lemma map_guards_returns size align ps total ptr w :
  exists w' l,
    map_guards P K size align ps total ptr w
    = Some (Ret (to_size_t (ptr + map_offset ptr align)), w') /\
    events w' = events w ++ l /\
    errno w' = errno w /\
    (exists rc, head l = Some (EvMprotect ptr (map_offset ptr align) (PROT_NONE P) rc)) /\
    Forall (fun e => match e with
                     | EvMprotect _ _ _ _ | EvMunmap _ _ _ => True
                     | _ => False
                     end) l.
Proof.
  unfold map_guards, bind, sys_mprotect, sys_munmap, ret.
  set (offset := map_offset ptr align).
  set (r1 := k_mprotect K (events w) ptr offset (PROT_NONE P)).
  destruct (r1 <? 0);
    destruct (to_size_t (total - offset) >? to_size_t (size + ps));
    simpl; eexists; eexists;
    (split; [reflexivity|]); simpl;
    rewrite <- ?app_assoc; simpl;
    (split; [reflexivity|]);
    (split; [reflexivity|]);
    (split; [eexists; reflexivity|]);
    repeat constructor.
Qed.
Lemma sys_mmap_returns len prot flags fd w :
  let r := k_mmap K (events w) len prot flags fd in
  exists w',
    sys_mmap K len prot flags fd w = Some (Ret (mmap_ptr r), w') /\
    events w' = events w ++ [EvMmap len prot flags fd r] /\
    errno w' = match r with MmapOk _ => errno w | MmapErr e => e end.
Proof.
  intros r. unfold sys_mmap. fold r. destruct r as [a|e]; eexists; eauto.
Qed.

(** The compatibility path: warn if the refusal was ENOTSUP, then ask
    again for [size] bytes with the flag word [flags] alone. *)
Lemma map_retry_returns fd size flags mapfd w :
  let rl := k_readlink K (events w) (proc_link_of fd) in
  let warn :=
    if decide (errno w = ENOTSUP)
    then [EvReadlink (proc_link_of fd) (PATH_MAX P - 1) rl;
          EvStderr (pmem_warning (link_name P rl))]
    else [] in
  let r2 := k_mmap K (events w ++ warn) size (map_prot P) flags mapfd in
  exists w',
    map_retry P K fd size flags mapfd w = Some (Ret (mmap_ptr r2), w') /\
    events w' = events w ++ warn ++ [EvMmap size (map_prot P) flags mapfd r2].
Proof.
  intros rl warn r2. unfold map_retry, bind, get_errno.
  subst warn. destruct (decide (errno w = ENOTSUP)) as [He|He].
  - unfold sys_readlink. fold rl. unfold link_name in *.
    destruct rl as [target|e] eqn:Hrl.
    + unfold fprintf_stderr.
      replace (if Z.of_nat (String.length
                   (String.substring 0 (Z.to_nat (PATH_MAX P - 1)) target)) <? 0
               then 0 else _)
        with (Z.of_nat (String.length
                   (String.substring 0 (Z.to_nat (PATH_MAX P - 1)) target)))
        by (destruct (Z.ltb_spec (Z.of_nat (String.length
                   (String.substring 0 (Z.to_nat (PATH_MAX P - 1)) target))) 0);
            [lia|reflexivity]).
      rewrite Nat2Z.id, substring_whole.
      match goal with
      | |- context [sys_mmap K ?l ?p ?f ?m ?w1] =>
          destruct (sys_mmap_returns l p f m w1) as (w' & Hm & Hev & _)
      end.
      simpl in Hm, Hev. repeat rewrite <- app_assoc in Hm.
      repeat rewrite <- app_assoc in Hev. simpl in Hm, Hev.
      exists w'. split; [exact Hm|]. rewrite Hev. reflexivity.
    + unfold fprintf_stderr. simpl.
      match goal with
      | |- context [sys_mmap K ?l ?p ?f ?m ?w1] =>
          destruct (sys_mmap_returns l p f m w1) as (w' & Hm & Hev & _)
      end.
      simpl in Hm, Hev. repeat rewrite <- app_assoc in Hm.
      repeat rewrite <- app_assoc in Hev. simpl in Hm, Hev.
      exists w'. split; [exact Hm|]. rewrite Hev. reflexivity.
  - unfold ret.
    destruct (sys_mmap_returns size (map_prot P) flags mapfd w) as (w' & Hm & Hev & _).
    subst r2. rewrite app_nil_r. exists w'. split; [exact Hm|exact Hev].
Qed.
End MapperStages.

Lemma filters_of_probes l :
  Forall is_probe l -> stderr_of l = [] /\ mmaps_of l = [].
Proof.
  induction 1 as [|e l (fd & r & ->) _ [IH1 IH2]]; [split; reflexivity|].
  unfold stderr_of, mmaps_of in *. simpl. auto.
Qed.

Lemma filters_of_guard_calls l :
  Forall is_guard_call l -> stderr_of l = [] /\ mmaps_of l = [].
Proof.
  induction 1 as [|e l He _ [IH1 IH2]]; [split; reflexivity|].
  unfold stderr_of, mmaps_of in *. destruct e; simpl in *; try contradiction; auto.
Qed.

Lemma stderr_of_app l1 l2 : stderr_of (l1 ++ l2) = stderr_of l1 ++ stderr_of l2.
Proof. apply omap_app. Qed.

Lemma mmaps_of_app l1 l2 : mmaps_of (l1 ++ l2) = mmaps_of l1 ++ mmaps_of l2.
Proof. apply omap_app. Qed.

Lemma last_mmap_before_guard_calls evs len prot fl mfd rr l :
  Forall is_guard_call l ->
  last (mmaps_of (evs ++ [EvMmap len prot fl mfd rr] ++ l))
  = Some (EvMmap len prot fl mfd rr).
Proof.
  intros Hl. destruct (filters_of_guard_calls l Hl) as [_ Hm].
  rewrite !mmaps_of_app, Hm, app_nil_r. apply last_snoc.
Qed.

Lemma reservation_params_events P K fuel fd w flags0 ps mapfd w1 :
  reservation_params P K fuel fd w = Some (Ret (flags0, ps, mapfd), w1) ->
  exists lp, events w1 = events w ++ lp /\ Forall is_probe lp.
Proof.
  intros Hparams.
  apply (spec_pagesize_rule_events P K fuel fd w ps w1).
  apply reservation_params_rule. eauto.
Qed.

(** C5. For [align] a power of two that is at least the page size the
    mapper derives for the descriptor, [qemu_ram_mmap] returns, and what it
    returns is [MAP_FAILED] or the pointer [base_raw + (align_up(base_raw,
    align) - base_raw)] for the [base_raw] handed out by the last mapping
    request, a multiple of [align]. *)
Theorem C5_map_base_aligned (P : Platform) (K : Host) (fuel : nat)
    (fd size align : Z) (shared is_pmem : bool) (w : World)
    (flags0 ps mapfd : Z) (w1 : World) :
  reservation_params P K fuel fd w = Some (Ret (flags0, ps, mapfd), w1) ->
  is_power_of_2 align = true ->
  ps <= align ->
  exists r w',
    qemu_ram_mmap P K fuel fd size align shared is_pmem w = Some (Ret r, w') /\
    (r = MAP_FAILED \/
     exists len prot fl mfd rr,
       last (mmaps_of (events w')) = Some (EvMmap len prot fl mfd rr) /\
       let base_raw := mmap_ptr rr in
       r = to_size_t (base_raw + to_size_t (QEMU_ALIGN_UP base_raw align - base_raw)) /\
       (align | r)).
Proof.
  intros Hparams Hpow Hle.
  pose proof (is_power_of_2_pos _ Hpow) as Hpos.
  rewrite (qemu_ram_mmap_stages P K _ _ _ _ _ _ _ _ _ _ _ Hparams Hpow Hle).
  set (flags := map_flags P flags0 fd shared).
  set (sync := map_sync_flags P shared is_pmem).
  set (total := to_size_t (size + align + ps)).
  unfold bind at 1.
  destruct (sys_mmap_returns K total (map_prot P) (Z.lor flags sync) mapfd w1)
    as (wa & Hm & Heva & _).
  rewrite Hm. set (r1 := k_mmap K (events w1) total (map_prot P) (Z.lor flags sync) mapfd) in *.
  unfold bind at 1.
  destruct ((mmap_ptr r1 =? MAP_FAILED) && negb (sync =? 0)).
  - destruct (map_retry_returns P K fd size flags mapfd wa) as (wb & Hr & Hevb).
    rewrite Hr.
    match type of Hr with _ = Some (Ret (mmap_ptr ?r), _) => set (r2 := r) in * end.
    destruct (Z.eqb_spec (mmap_ptr r2) MAP_FAILED) as [Hf|Hf].
    + exists MAP_FAILED, wb. split; [reflexivity|now left].
    + destruct (map_guards_returns P K size align ps total (mmap_ptr r2) wb)
        as (w' & l & Hg & Hevg & _ & _ & Hall).
      exists (to_size_t (mmap_ptr r2 + map_offset (mmap_ptr r2) align)), w'.
      split; [exact Hg|]. right.
      exists size, (map_prot P), flags, mapfd, r2.
      split; [|split; [reflexivity|now apply aligned_base_divide]].
      rewrite Hevg, Hevb, app_assoc, <- (app_assoc _ [_] l).
      now apply last_mmap_before_guard_calls.
  - unfold ret at 1.
    destruct (Z.eqb_spec (mmap_ptr r1) MAP_FAILED) as [Hf|Hf].
    + exists MAP_FAILED, wa. split; [reflexivity|now left].
    + destruct (map_guards_returns P K size align ps total (mmap_ptr r1) wa)
        as (w' & l & Hg & Hevg & _ & _ & Hall).
      exists (to_size_t (mmap_ptr r1 + map_offset (mmap_ptr r1) align)), w'.
      split; [exact Hg|]. right.
      exists total, (map_prot P), (Z.lor flags sync), mapfd, r1.
      split; [|split; [reflexivity|now apply aligned_base_divide]].
      rewrite Hevg, Heva, <- app_assoc.
      now apply last_mmap_before_guard_calls.
Qed.

Lemma C5_map_base_aligned_witness :
  exists r w',
    qemu_ram_mmap linux_x86_64 plain_host 1 (-1) 2097152 2097152 false false w0
    = Some (Ret r, w') /\
    (r = MAP_FAILED \/
     exists len prot fl mfd rr,
       last (mmaps_of (events w')) = Some (EvMmap len prot fl mfd rr) /\
       let base_raw := mmap_ptr rr in
       r = to_size_t (base_raw + to_size_t (QEMU_ALIGN_UP base_raw 2097152 - base_raw)) /\
       (2097152 | r)).
Proof.
  apply (C5_map_base_aligned linux_x86_64 plain_host 1 (-1) 2097152 2097152
           false false w0 34 4096 (-1) w0).
  - reflexivity.
  - reflexivity.
  - lia.
Defined.


(** *** Flag words *)

Lemma land_lor_r (a b : Z) : Z.land (Z.lor a b) b = b.
Proof.
  apply Z.bits_inj'. intros n Hn.
  rewrite Z.land_spec, Z.lor_spec.
  destruct (Z.testbit a n), (Z.testbit b n); reflexivity.
Qed.

Lemma land_lor_keep (a b c : Z) : Z.land a b = b -> Z.land (Z.lor a c) b = b.
Proof.
  intros Hab. apply Z.bits_inj'. intros n Hn.
  apply (f_equal (fun z => Z.testbit z n)) in Hab.
  rewrite Z.land_spec in Hab. rewrite Z.land_spec, Z.lor_spec.
  destruct (Z.testbit a n), (Z.testbit b n), (Z.testbit c n);
    simpl in *; congruence.
Qed.







(** Whatever the host and the request: when the protection change of the
    leading guard is refused, the last stage releases the reservation, goes
    on, and returns the aligned pointer. *)
Lemma map_guards_failure_falls_through (P : Platform) (K : Host)
    (size align ps total ptr : Z) (w : World) :
  k_mprotect K (events w) ptr (map_offset ptr align) (PROT_NONE P) < 0 ->
  exists w' rc rc' l,
    map_guards P K size align ps total ptr w
    = Some (Ret (to_size_t (ptr + map_offset ptr align)), w') /\
    events w' = events w ++ [EvMprotect ptr (map_offset ptr align) (PROT_NONE P) rc;
                             EvMunmap ptr total rc'] ++ l.
Proof.
  intros Hfail. unfold map_guards, bind, sys_mprotect, sys_munmap, ret.
  destruct (Z.ltb_spec (k_mprotect K (events w) ptr (map_offset ptr align)
                          (PROT_NONE P)) 0) as [_|Hge]; [|lia].
  destruct (to_size_t (total - map_offset ptr align) >? to_size_t (size + ps));
    simpl; do 4 eexists; (split; [reflexivity|]); simpl;
    repeat rewrite <- app_assoc; simpl; [|instantiate (1 := [])]; reflexivity.
Qed.

(** C1. On a host that refuses the protection change of the leading guard,
    [qemu_ram_mmap] releases the reservation and then carries on: it asks for
    the trailing guard inside the released range and returns the aligned
    pointer [0x7f0000200000], not [MAP_FAILED]. *)
Theorem C1_guard_failure_returns_released_pointer :
  qemu_ram_mmap linux_x86_64 mprotect_failing_host 1 (-1) 2097152 2097152
                false false w0
  = Some (Ret 0x7f0000200000,
          {| events := [EvMmap 4198400 3 34 (-1) (MmapOk 0x7f0000001000);
                        EvMprotect 0x7f0000001000 2093056 0 (-1);
                        EvMunmap 0x7f0000001000 4198400 0;
                        EvMprotect 0x7f0000400000 4096 0 (-1)];
             errno := EINVAL |}) /\
  0x7f0000200000 <> MAP_FAILED /\
  0x7f0000001000 <= 0x7f0000200000 < 0x7f0000001000 + 4198400.
Proof. split; [vm_compute; reflexivity|]. split; [discriminate|lia]. Qed.

(** *** The probe by path *)

Lemma sys_statfs_inv (K : Host) path w r w' :
  sys_statfs K path w = Some (Ret r, w') ->
  events w' = events w ++ [EvStatfs path r] /\
  (forall e, r = StatfsErr e -> errno w' = e).
Proof.
  unfold sys_statfs. intros Hs.
  destruct (k_statfs K (events w) path) as [fs|e] eqn:Hr;
    inversion Hs; subst; simpl; split; auto; congruence.
Qed.

Lemma statfs_retry_answers (K : Host) path n w r w' fuel :
  path_probe_answers K path n w r w' -> (n < fuel)%nat ->
  statfs_retry K fuel path w = Some (Ret r, w').
Proof.
  intros Hp. revert fuel.
  induction Hp as [w r w' Hs Hr | n w w1 r w' Hs Hp IH]; intros fuel Hlt.
  - destruct fuel as [|fuel]; [lia|]. simpl. unfold bind. rewrite Hs.
    destruct r as [fs|e]; [reflexivity|].
    destruct (sys_statfs_inv _ _ _ _ _ Hs) as [_ He].
    unfold get_errno. rewrite (He e eq_refl).
    destruct (decide (e = EINTR)) as [->|Hne]; [congruence|reflexivity].
  - destruct fuel as [|fuel]; [lia|]. simpl. unfold bind. rewrite Hs.
    destruct (sys_statfs_inv _ _ _ _ _ Hs) as [_ He].
    unfold get_errno. rewrite (He EINTR eq_refl).
    destruct (decide (EINTR = EINTR)); [|congruence].
    apply IH. lia.
Qed.

Lemma path_probe_answers_final (K : Host) path n w r w' :
  path_probe_answers K path n w r w' ->
  r <> StatfsErr EINTR /\
  (forall e, r = StatfsErr e -> errno w' = e) /\
  events w' = events w ++ replicate n (EvStatfs path (StatfsErr EINTR))
                       ++ [EvStatfs path r].
Proof.
  induction 1 as [w r w' Hs Hr | n w w1 r w' Hs Hp (IH1 & IH2 & IH3)].
  - destruct (sys_statfs_inv _ _ _ _ _ Hs) as [He Herr]. auto.
  - destruct (sys_statfs_inv _ _ _ _ _ Hs) as [He _].
    split; [assumption|]. split; [assumption|].
    rewrite IH3, He. simpl. rewrite <- app_assoc. reflexivity.
Qed.

Lemma qemu_fd_getpagesize_answers (P : Platform) (K : Host) fd n w r w' fuel :
  CONFIG_LINUX P = true -> fd <> -1 ->
  probe_answers K fd n w r w' -> (n < fuel)%nat ->
  qemu_fd_getpagesize P K fuel fd w
  = Some (Ret (spec_page_size_for_fd P fd r), w').
Proof.
  intros Hlinux Hfd Hp Hlt.
  unfold qemu_fd_getpagesize. rewrite Hlinux.
  destruct (Z.eqb_spec fd (-1)) as [|_]; [contradiction|]. simpl.
  unfold bind. rewrite (fstatfs_retry_answers K fd n w r w' fuel Hp Hlt).
  unfold spec_page_size_for_fd.
  destruct r as [fs|e]; [|reflexivity].
  destruct (Z.leb_spec 0 fd) as [_|Hneg];
    [simpl; destruct (f_type fs =? HUGETLBFS_MAGIC); reflexivity|].
  destruct (probe_answers_negative K fd n w _ w' Hneg Hp) as [_ Hr].
  discriminate.
Qed.

Lemma qemu_mempath_getpagesize_answers (P : Platform) (K : Host)
    path n w r w' fuel :
  CONFIG_LINUX P = true ->
  path_probe_answers K path n w r w' -> (n < fuel)%nat ->
  qemu_mempath_getpagesize P K fuel (Some path) w
  = match r with
    | StatfsOk fs =>
        Some (Ret (if f_type fs =? HUGETLBFS_MAGIC
                   then to_size_t (f_bsize fs) else fallback_pagesize P), w')
    | StatfsErr e =>
        Some (Exit 1, log (EvStderr (statfs_failed_msg K e)) w')
    end.
Proof.
  intros Hlinux Hp Hlt.
  destruct (path_probe_answers_final K path n w r w' Hp) as (_ & Herr & _).
  unfold qemu_mempath_getpagesize. rewrite Hlinux.
  unfold bind at 1. rewrite (statfs_retry_answers K path n w r w' fuel Hp Hlt).
  destruct r as [fs|e].
  - destruct (f_type fs =? HUGETLBFS_MAGIC); reflexivity.
  - unfold bind, get_errno, fprintf_stderr, c_exit.
    rewrite (Herr e eq_refl). reflexivity.
Qed.

(** X1. [qemu_mempath_getpagesize]: without [CONFIG_LINUX] or for a null
    path nothing is probed and the fallback page size is returned.  For a
    path on Linux the probe is repeated while it is interrupted; when it
    succeeds, the block size of a hugepage filesystem or the fallback page
    size is returned; when it fails, one diagnostic with the text of [errno]
    is written to stderr and the process exits with status 1. *)
Theorem X1_mempath_probe_failure_is_fatal (P : Platform) (K : Host) :
  (forall fuel mem_path w,
     CONFIG_LINUX P = false \/ mem_path = None ->
     qemu_mempath_getpagesize P K fuel mem_path w
     = Some (Ret (fallback_pagesize P), w)) /\
  (forall path n w r w' fuel,
     CONFIG_LINUX P = true ->
     path_probe_answers K path n w r w' -> (n < fuel)%nat ->
     qemu_mempath_getpagesize P K fuel (Some path) w
     = match r with
       | StatfsOk fs =>
           Some (Ret (if f_type fs =? HUGETLBFS_MAGIC
                      then to_size_t (f_bsize fs) else fallback_pagesize P), w')
       | StatfsErr e =>
           Some (Exit 1, log (EvStderr (statfs_failed_msg K e)) w')
       end /\
     events w' = events w ++ replicate n (EvStatfs path (StatfsErr EINTR))
                          ++ [EvStatfs path r]).
Proof.
  split.
  - intros fuel mem_path w Hno. unfold qemu_mempath_getpagesize.
    destruct (CONFIG_LINUX P); [|reflexivity].
    destruct Hno as [Hno| ->]; [discriminate|reflexivity].
  - intros path n w r w' fuel Hlinux Hp Hlt.
    destruct (path_probe_answers_final K path n w r w' Hp) as (_ & _ & Hev).
    split; [|exact Hev].
    now apply qemu_mempath_getpagesize_answers with (n := n).
Qed.

Lemma X1_mempath_probe_failure_is_fatal_witness :
  qemu_mempath_getpagesize linux_x86_64 missing_path_host 1
    (Some "/dev/hugepages") w0
  = Some (Exit 1,
          log (EvStderr (statfs_failed_msg missing_path_host ENOENT))
              {| events := [EvStatfs "/dev/hugepages" (StatfsErr ENOENT)];
                 errno := ENOENT |}).
Proof.
  refine (proj1 (proj2 (X1_mempath_probe_failure_is_fatal linux_x86_64
                          missing_path_host)
                   "/dev/hugepages" 0%nat w0 (StatfsErr ENOENT) _ 1%nat
                   eq_refl _ _)); [|lia].
  apply path_probe_final; [reflexivity|discriminate].
Defined.

(** X2. The two probes agree: when the host gives the same successful
    answer for a descriptor (not -1) and for a path, [qemu_fd_getpagesize]
    and [qemu_mempath_getpagesize] return the same page size. *)
Theorem X2_fd_and_path_probes_agree (P : Platform) (K : Host)
    (fd : Z) (path : string) (fs : statfs)
    (n m : nat) (w w' v v' : World) (fuel fuel' : nat) :
  fd <> -1 ->
  probe_answers K fd n w (StatfsOk fs) w' -> (n < fuel)%nat ->
  path_probe_answers K path m v (StatfsOk fs) v' -> (m < fuel')%nat ->
  exists ps wa va,
    qemu_fd_getpagesize P K fuel fd w = Some (Ret ps, wa) /\
    qemu_mempath_getpagesize P K fuel' (Some path) v = Some (Ret ps, va).
Proof.
  intros Hfd Hp Hn Hq Hm.
  destruct (CONFIG_LINUX P) eqn:Hlinux.
  - rewrite (qemu_fd_getpagesize_answers P K fd n w _ w' fuel Hlinux Hfd Hp Hn).
    rewrite (qemu_mempath_getpagesize_answers P K path m v _ v' fuel' Hlinux Hq Hm).
    unfold spec_page_size_for_fd.
    destruct (Z.leb_spec 0 fd) as [_|Hneg].
    + simpl. eauto.
    + destruct (probe_answers_negative K fd n w _ w' Hneg Hp) as [_ Hr].
      discriminate.
  - exists (fallback_pagesize P), w, v.
    unfold qemu_fd_getpagesize, qemu_mempath_getpagesize. rewrite Hlinux. auto.
Qed.

Lemma X2_fd_and_path_probes_agree_witness :
  exists ps wa va,
    qemu_fd_getpagesize linux_x86_64 hugetlbfs_host 3 5 w0 = Some (Ret ps, wa) /\
    qemu_mempath_getpagesize linux_x86_64 hugetlbfs_host 1
      (Some "/dev/hugepages") w0 = Some (Ret ps, va).
Proof.
  refine (X2_fd_and_path_probes_agree linux_x86_64 hugetlbfs_host 5
            "/dev/hugepages" {| f_type := HUGETLBFS_MAGIC; f_bsize := 2097152 |}
            2 0 w0 _ w0 _ 3 1 _ _ _ _ _); [lia| |lia| |lia].
  - eapply probe_interrupted; [reflexivity|].
    eapply probe_interrupted; [reflexivity|].
    eapply probe_final; [reflexivity|discriminate].
  - eapply path_probe_final; [reflexivity|discriminate].
Defined.

(** *** More about the runs of the mapper *)

Lemma map_guards_events (P : Platform) (K : Host) size align ps total ptr w :
  let offset := map_offset ptr align in
  let r1 := k_mprotect K (events w) ptr offset (PROT_NONE P) in
  exists w' released guard,
    map_guards P K size align ps total ptr w
    = Some (Ret (to_size_t (ptr + offset)), w') /\
    events w' = events w ++ [EvMprotect ptr offset (PROT_NONE P) r1]
                         ++ released ++ guard /\
    errno w' = errno w /\
    (r1 < 0 -> exists rc, released = [EvMunmap ptr total rc]) /\
    (0 <= r1 -> released = []) /\
    ((to_size_t (total - offset) >? to_size_t (size + ps)) = true ->
     exists rc, guard = [EvMprotect (to_size_t (ptr + offset + size)) ps
                                    (PROT_NONE P) rc]) /\
    ((to_size_t (total - offset) >? to_size_t (size + ps)) = false ->
     guard = []).
Proof.
  intros offset r1.
  unfold map_guards, bind, sys_mprotect, sys_munmap, ret. fold offset r1.
  set (w1 := log (EvMprotect ptr offset (PROT_NONE P) r1) w).
  destruct (Z.ltb_spec r1 0) as [Hneg|Hok].
  - set (rc := k_munmap K (events w1) ptr total).
    set (w2 := log (EvMunmap ptr total rc) w1).
    destruct (to_size_t (total - offset) >? to_size_t (size + ps)) eqn:Hcond.
    + set (rc' := k_mprotect K (events w2) (to_size_t (ptr + offset + size)) ps
                             (PROT_NONE P)).
      exists (log (EvMprotect (to_size_t (ptr + offset + size)) ps (PROT_NONE P) rc') w2),
             [EvMunmap ptr total rc],
             [EvMprotect (to_size_t (ptr + offset + size)) ps (PROT_NONE P) rc'].
      split; [reflexivity|]. split; [simpl; rewrite <- !app_assoc; reflexivity|].
      split; [reflexivity|]. split; [eauto|]. split; [intros; lia|].
      split; [eauto|discriminate].
    + exists w2, [EvMunmap ptr total rc], [].
      split; [reflexivity|]. split; [simpl; rewrite <- !app_assoc; reflexivity|].
      split; [reflexivity|]. split; [eauto|]. split; [intros; lia|].
      split; [discriminate|reflexivity].
  - destruct (to_size_t (total - offset) >? to_size_t (size + ps)) eqn:Hcond.
    + set (rc' := k_mprotect K (events w1) (to_size_t (ptr + offset + size)) ps
                             (PROT_NONE P)).
      exists (log (EvMprotect (to_size_t (ptr + offset + size)) ps (PROT_NONE P) rc') w1),
             [],
             [EvMprotect (to_size_t (ptr + offset + size)) ps (PROT_NONE P) rc'].
      split; [reflexivity|]. split; [simpl; rewrite <- !app_assoc; reflexivity|].
      split; [reflexivity|]. split; [intros; lia|]. split; [reflexivity|].
      split; [eauto|discriminate].
    + exists w1, [], [].
      split; [reflexivity|]. split; [reflexivity|].
      split; [reflexivity|]. split; [intros; lia|]. split; [reflexivity|].
      split; [discriminate|reflexivity].
Qed.

(** X3. A request whose alignment is not a power of two, or is below the
    page size of the reservation, is stopped by the assertions.  No mapping
    has been asked for; the diagnostic of the assertion that failed (the
    power-of-two test comes first) is the one thing written to stderr; the
    process is aborted. *)
Theorem X3_bad_alignment_aborts_before_mapping (P : Platform) (K : Host)
    (fuel : nat) (fd size align : Z) (shared is_pmem : bool) (w : World)
    (flags0 ps mapfd : Z) (w1 : World) :
  reservation_params P K fuel fd w = Some (Ret (flags0, ps, mapfd), w1) ->
  is_power_of_2 align = false \/ align < ps ->
  let msg :=
    if is_power_of_2 align
    then assert_failed_msg this_file 131 "qemu_ram_mmap" "align >= pagesize"
    else assert_failed_msg this_file 129 "qemu_ram_mmap" "is_power_of_2(align)" in
  let w' := log (EvStderr msg) w1 in
  qemu_ram_mmap P K fuel fd size align shared is_pmem w = Some (Abort, w') /\
  mmaps_of (drop (length (events w)) (events w')) = [] /\
  stderr_of (drop (length (events w)) (events w')) = [msg].
Proof.
  intros Hparams Hbad msg w'. split.
  - unfold qemu_ram_mmap. unfold bind at 1. rewrite Hparams.
    unfold w', msg.
    destruct (is_power_of_2 align) eqn:Hpow.
    + destruct Hbad as [Hbad|Hlt]; [discriminate|].
      unfold bind at 1. simpl c_assert. unfold ret at 1.
      unfold bind at 1.
      replace (align >=? ps) with false
        by (symmetry; rewrite Z.geb_leb; apply Z.leb_gt; lia).
      reflexivity.
    + reflexivity.
  - destruct (reservation_params_events _ _ _ _ _ _ _ _ _ Hparams)
      as (lp & Hlp & Hprobes).
    unfold w'. cbn [log events]. rewrite Hlp, <- app_assoc, drop_app_length.
    rewrite mmaps_of_app, stderr_of_app.
    destruct (filters_of_probes lp Hprobes) as [-> ->]. auto.
Qed.

(** An alignment of 3000 bytes on x86-64 Linux: the first assertion
    fails. *)
Lemma X3_bad_alignment_aborts_before_mapping_witness :
  let msg := assert_failed_msg this_file 129 "qemu_ram_mmap" "is_power_of_2(align)" in
  let w' := log (EvStderr msg) w0 in
  qemu_ram_mmap linux_x86_64 plain_host 1 (-1) 2097152 3000 false false w0
  = Some (Abort, w') /\
  mmaps_of (drop (length (events w0)) (events w')) = [] /\
  stderr_of (drop (length (events w0)) (events w')) = [msg].
Proof.
  apply (X3_bad_alignment_aborts_before_mapping linux_x86_64 plain_host 1 (-1)
           2097152 3000 false false w0 34 4096 (-1) w0).
  - reflexivity.
  - left. reflexivity.
Defined.

(** X4. When no persistence flag is in play (the request is not both shared
    and pmem, or the build defines the flags as zero), a refusal of the
    mapping is final whatever the error: [MAP_FAILED] is returned after this
    one request, [errno] is the error of the host, and nothing was
    protected, released or written to stderr. *)
Theorem X4_refusal_without_sync_flags_is_final (P : Platform) (K : Host)
    (fuel : nat) (fd size align : Z) (shared is_pmem : bool) (w : World)
    (flags0 ps mapfd : Z) (w1 : World) (e : Errno) :
  reservation_params P K fuel fd w = Some (Ret (flags0, ps, mapfd), w1) ->
  is_power_of_2 align = true ->
  ps <= align ->
  map_sync_flags P shared is_pmem = 0 ->
  let flags := map_flags P flags0 fd shared in
  let total := to_size_t (size + align + ps) in
  k_mmap K (events w1) total (map_prot P) (Z.lor flags 0) mapfd = MmapErr e ->
  exists w',
    qemu_ram_mmap P K fuel fd size align shared is_pmem w
      = Some (Ret MAP_FAILED, w') /\
    events w' = events w1 ++ [EvMmap total (map_prot P) (Z.lor flags 0) mapfd
                                     (MmapErr e)] /\
    errno w' = e.
Proof.
  intros Hparams Hpow Hle Hsync flags total Hfirst.
  rewrite (qemu_ram_mmap_stages P K _ _ _ _ _ _ _ _ _ _ _ Hparams Hpow Hle).
  rewrite Hsync. fold flags total.
  unfold bind at 1.
  destruct (sys_mmap_returns K total (map_prot P) (Z.lor flags 0) mapfd w1)
    as (wa & Hm & Heva & Herra).
  rewrite Hm. rewrite Hfirst in Heva, Herra |- *.
  simpl mmap_ptr. rewrite Z.eqb_refl. simpl.
  unfold bind, ret. rewrite Z.eqb_refl.
  exists wa. auto.
Qed.

Lemma X4_refusal_without_sync_flags_is_final_witness :
  exists w',
    qemu_ram_mmap bsd_x86_64 no_pmem_host 1 7 2097152 2097152 true true w0
      = Some (Ret MAP_FAILED, w') /\
    events w' = events w0 ++ [EvMmap (to_size_t (2097152 + 2097152 + 4096))
                                 (map_prot bsd_x86_64)
                                 (Z.lor (map_flags bsd_x86_64 4098 7 true) 0)
                                 (-1) (MmapErr ENOTSUP)] /\
    errno w' = ENOTSUP.
Proof.
  apply (X4_refusal_without_sync_flags_is_final bsd_x86_64 no_pmem_host 1 7
           2097152 2097152 true true w0 4098 4096 (-1) w0 ENOTSUP).
  - reflexivity.
  - reflexivity.
  - lia.
  - reflexivity.
  - reflexivity.
Defined.

(** X5. With the persistence flags in play, a refusal of the first request
    for any reason other than ENOTSUP is followed by the second request
    (for [size] bytes, with the flag word [map_flags] as it was before the
    persistence flags were or-ed in) in silence: the link is not read and
    nothing is written to stderr; if the second request is refused too,
    [MAP_FAILED] is returned. *)
Theorem X5_retry_is_silent_for_other_errors (P : Platform) (K : Host)
    (fuel : nat) (fd size align : Z) (w : World) (flags0 ps mapfd : Z)
    (w1 : World) (e : Errno) :
  reservation_params P K fuel fd w = Some (Ret (flags0, ps, mapfd), w1) ->
  is_power_of_2 align = true ->
  ps <= align ->
  Z.lor (MAP_SYNC P) (MAP_SHARED_VALIDATE P) <> 0 ->
  e <> ENOTSUP ->
  let flags := map_flags P flags0 fd true in
  let sync := Z.lor (MAP_SYNC P) (MAP_SHARED_VALIDATE P) in
  let total := to_size_t (size + align + ps) in
  let e1 := EvMmap total (map_prot P) (Z.lor flags sync) mapfd (MmapErr e) in
  k_mmap K (events w1) total (map_prot P) (Z.lor flags sync) mapfd = MmapErr e ->
  let r2 := k_mmap K (events w1 ++ [e1]) size (map_prot P) flags mapfd in
  let e4 := EvMmap size (map_prot P) flags mapfd r2 in
  exists r w' l,
    qemu_ram_mmap P K fuel fd size align true true w = Some (Ret r, w') /\
    events w' = events w1 ++ [e1; e4] ++ l /\
    Forall is_guard_call l /\
    stderr_of (drop (length (events w)) (events w')) = [] /\
    ((exists e', r2 = MmapErr e') -> r = MAP_FAILED /\ l = []).
Proof.
  intros Hparams Hpow Hle Hsync Hne flags sync total e1 Hfirst r2 e4.
  destruct (reservation_params_events _ _ _ _ _ _ _ _ _ Hparams)
    as (lp & Hlp & Hprobes).
  destruct (filters_of_probes lp Hprobes) as [Hlp_err _].
  rewrite (qemu_ram_mmap_stages P K _ _ _ _ _ _ _ _ _ _ _ Hparams Hpow Hle).
  change (map_sync_flags P true true) with sync. fold flags total.
  unfold bind at 1.
  destruct (sys_mmap_returns K total (map_prot P) (Z.lor flags sync) mapfd w1)
    as (wa & Hm & Heva & Herra).
  rewrite Hm. rewrite Hfirst in Heva, Herra |- *. fold e1 in Heva.
  simpl mmap_ptr. rewrite Z.eqb_refl.
  destruct (Z.eqb_spec sync 0) as [|_]; [contradiction|]. simpl andb.
  unfold bind at 1.
  destruct (map_retry_returns P K fd size flags mapfd wa) as (wb & Hr & Hevb).
  rewrite Herra, Heva in Hevb, Hr.
  destruct (decide (e = ENOTSUP)) as [|_]; [contradiction|].
  rewrite app_nil_r in Hevb, Hr. simpl app in Hevb.
  fold r2 e4 in Hevb, Hr. rewrite <- app_assoc in Hevb. simpl app in Hevb.
  rewrite Hr.
  assert (Hquiet : forall l, Forall is_guard_call l ->
            stderr_of (drop (length (events w)) (events w1 ++ [e1; e4] ++ l)) = []).
  { intros l Hl. destruct (filters_of_guard_calls l Hl) as [Hl_err _].
    rewrite Hlp, <- app_assoc, drop_app_length.
    rewrite !stderr_of_app, Hlp_err, Hl_err. reflexivity. }
  destruct (Z.eqb_spec (mmap_ptr r2) MAP_FAILED) as [Hf|Hf].
  - exists MAP_FAILED, wb, [].
    split; [reflexivity|]. split; [rewrite Hevb; reflexivity|].
    split; [constructor|]. rewrite Hevb.
    split; [exact (Hquiet [] (List.Forall_nil _))|auto].
  - destruct (map_guards_returns P K size align ps total (mmap_ptr r2) wb)
      as (w' & l & Hg & Hevg & _ & _ & Hall).
    exists (to_size_t (mmap_ptr r2 + map_offset (mmap_ptr r2) align)), w', l.
    split; [exact Hg|].
    assert (Hev' : events w' = events w1 ++ [e1; e4] ++ l)
      by (rewrite Hevg, Hevb, <- app_assoc; reflexivity).
    split; [exact Hev'|]. split; [exact Hall|]. rewrite Hev'.
    split; [exact (Hquiet l Hall)|].
    intros [e' He']. rewrite He' in Hf. simpl in Hf. congruence.
Qed.

Lemma X5_retry_is_silent_for_other_errors_witness :
  exists r w' l,
    qemu_ram_mmap linux_x86_64 low_memory_host 1 7 2097152 2097152 true true w0
      = Some (Ret r, w') /\
    events w' = events w0
                ++ [EvMmap (to_size_t (2097152 + 2097152 + 4096))
                           (map_prot linux_x86_64)
                           (Z.lor (map_flags linux_x86_64 34 7 true) 524291)
                           (-1) (MmapErr ENOMEM);
                    EvMmap 2097152 (map_prot linux_x86_64)
                           (map_flags linux_x86_64 34 7 true) (-1)
                           (MmapOk 0x7f0000001000)] ++ l /\
    Forall is_guard_call l /\
    stderr_of (drop (length (events w0)) (events w')) = [] /\
    ((exists e', MmapOk 0x7f0000001000 = MmapErr e') -> r = MAP_FAILED /\ l = []).
Proof.
  apply (X5_retry_is_silent_for_other_errors linux_x86_64 low_memory_host 1 7
           2097152 2097152 w0 34 4096 (-1) w0 ENOMEM).
  - reflexivity.
  - reflexivity.
  - lia.
  - vm_compute. discriminate.
  - discriminate.
  - reflexivity.
Defined.

(** *** The layout of a reservation *)

Lemma two_to_size_bits : 2 ^ SIZE_BITS = 18446744073709551616.
Proof. reflexivity. Qed.

(** Away from the top of the address space, [offset] is the distance to the
    next multiple of [align], less than [align]. *)
Lemma map_offset_small ptr align :
  0 < align -> 0 <= ptr -> ptr + align - 1 < 2 ^ SIZE_BITS ->
  0 <= map_offset ptr align < align /\
  to_size_t (ptr + map_offset ptr align) = ptr + map_offset ptr align /\
  (align | ptr + map_offset ptr align).
Proof.
  intros Hpos Hptr Htop.
  unfold map_offset, QEMU_ALIGN_UP, QEMU_ALIGN_DOWN.
  rewrite (to_size_t_small (ptr + align - 1)) by lia.
  set (x := ptr + align - 1).
  assert (Hq : x - align < x / align * align <= x).
  { pose proof (Z.div_mod x align ltac:(lia)) as Hdm.
    pose proof (Z.mod_pos_bound x align Hpos) as Hmod.
    rewrite (Z.mul_comm (x / align) align). lia. }
  rewrite (to_size_t_small (x / align * align)) by (subst x; lia).
  rewrite (to_size_t_small (x / align * align - ptr)) by (subst x; lia).
  split; [subst x; lia|].
  replace (ptr + (x / align * align - ptr)) with (x / align * align) by lia.
  split; [apply to_size_t_small; subst x; lia|].
  exists (x / align). reflexivity.
Qed.

(** The run of a request that is granted at once and whose leading guard is
    accepted. *)
Lemma map_success_layout (P : Platform) (K : Host)
    (fuel : nat) (fd size align : Z) (shared is_pmem : bool) (w : World)
    (flags0 ps mapfd : Z) (w1 : World) (a : Z) :
  reservation_params P K fuel fd w = Some (Ret (flags0, ps, mapfd), w1) ->
  is_power_of_2 align = true ->
  ps <= align ->
  0 <= size -> 0 <= ps -> 0 <= a ->
  a + (size + align + ps) < 2 ^ SIZE_BITS ->
  let flags := Z.lor (map_flags P flags0 fd shared) (map_sync_flags P shared is_pmem) in
  let total := size + align + ps in
  let e1 := EvMmap total (map_prot P) flags mapfd (MmapOk a) in
  k_mmap K (events w1) total (map_prot P) flags mapfd = MmapOk a ->
  let offset := map_offset a align in
  let r1 := k_mprotect K (events w1 ++ [e1]) a offset (PROT_NONE P) in
  0 <= r1 ->
  exists rc w',
    qemu_ram_mmap P K fuel fd size align shared is_pmem w
      = Some (Ret (a + offset), w') /\
    events w' = events w1 ++ [e1; EvMprotect a offset (PROT_NONE P) r1;
                              EvMprotect (a + offset + size) ps (PROT_NONE P) rc] /\
    0 <= offset < align /\
    (align | a + offset) /\
    a + offset + size + ps <= a + total.
Proof.
  intros Hparams Hpow Hle Hsize Hps Ha Htop flags total e1 Hfirst offset r1 Hr1.
  pose proof (is_power_of_2_pos _ Hpow) as Hpos.
  pose proof two_to_size_bits as H64.
  destruct (map_offset_small a align Hpos Ha ltac:(lia)) as (Hoff & Hbase & Hdiv).
  fold offset in Hoff, Hbase, Hdiv.
  rewrite (qemu_ram_mmap_stages P K _ _ _ _ _ _ _ _ _ _ _ Hparams Hpow Hle).
  fold flags. rewrite (to_size_t_small (size + align + ps)) by lia. fold total.
  unfold bind at 1.
  destruct (sys_mmap_returns K total (map_prot P) flags mapfd w1)
    as (wa & Hm & Heva & _).
  rewrite Hm. rewrite Hfirst in Heva |- *. fold e1 in Heva.
  simpl mmap_ptr. rewrite (to_size_t_small a) by lia.
  destruct (Z.eqb_spec a MAP_FAILED) as [Hf|_];
    [unfold MAP_FAILED in Hf; lia|].
  simpl andb. unfold bind at 1. unfold ret at 1.
  destruct (Z.eqb_spec a MAP_FAILED) as [Hf|_];
    [unfold MAP_FAILED in Hf; lia|].
  destruct (map_guards_events P K size align ps total a wa)
    as (w' & released & guard & Hg & Hevg & _ & _ & Hrel & Hguard & _).
  rewrite Heva in Hevg, Hrel. fold offset r1 in Hevg, Hrel, Hguard, Hg.
  rewrite Hbase in Hg.
  rewrite (Hrel Hr1) in Hevg.
  destruct Hguard as [rc Hrc].
  { apply Z.gtb_lt.
    rewrite (to_size_t_small (total - offset)) by (subst total; lia).
    rewrite (to_size_t_small (size + ps)) by lia. subst total. lia. }
  rewrite Hrc in Hevg.
  rewrite (to_size_t_small (a + offset + size)) in Hevg by lia.
  exists rc, w'. split; [exact Hg|].
  split; [rewrite Hevg, <- app_assoc; reflexivity|].
  split; [exact Hoff|]. split; [exact Hdiv|]. subst total. lia.
Qed.

(** X6. A request granted at once, away from the top of the address space,
    with the leading guard accepted: the base returned lies less than
    [align] bytes above the start of the reservation and is a multiple of
    [align]; besides the mapping the only requests are the protection of
    the [offset] bytes below the base and the protection of [pagesize]
    bytes at [base + size]; this trailing guard is always asked for and
    ends inside the reservation; nothing is released. *)
Theorem X6_granted_request_layout (P : Platform) (K : Host)
    (fuel : nat) (fd size align : Z) (shared is_pmem : bool) (w : World)
    (flags0 ps mapfd : Z) (w1 : World) (a : Z) :
  reservation_params P K fuel fd w = Some (Ret (flags0, ps, mapfd), w1) ->
  is_power_of_2 align = true ->
  ps <= align ->
  0 <= size -> 0 <= ps -> 0 <= a ->
  a + (size + align + ps) < 2 ^ SIZE_BITS ->
  let flags := Z.lor (map_flags P flags0 fd shared) (map_sync_flags P shared is_pmem) in
  let total := size + align + ps in
  let e1 := EvMmap total (map_prot P) flags mapfd (MmapOk a) in
  k_mmap K (events w1) total (map_prot P) flags mapfd = MmapOk a ->
  let offset := map_offset a align in
  let r1 := k_mprotect K (events w1 ++ [e1]) a offset (PROT_NONE P) in
  0 <= r1 ->
  exists rc w',
    qemu_ram_mmap P K fuel fd size align shared is_pmem w
      = Some (Ret (a + offset), w') /\
    events w' = events w1 ++ [e1; EvMprotect a offset (PROT_NONE P) r1;
                              EvMprotect (a + offset + size) ps (PROT_NONE P) rc] /\
    0 <= offset < align /\
    (align | a + offset) /\
    a + offset + size + ps <= a + total.
Proof.
  intros Hparams Hpow Hle Hsize Hps Ha Htop flags total e1 Hfirst offset r1 Hr1.
  destruct (map_success_layout P K fuel fd size align shared is_pmem w flags0
              ps mapfd w1 a Hparams Hpow Hle Hsize Hps Ha Htop Hfirst Hr1)
    as (rc & w' & Hrun & Hev & Hoff & Hdiv & Hin).
  exists rc, w'. split; [exact Hrun|]. split; [exact Hev|].
  split; [exact Hoff|]. split; [exact Hdiv|exact Hin].
Qed.

Lemma X6_granted_request_layout_witness :
  exists rc w',
    qemu_ram_mmap linux_x86_64 plain_host 1 (-1) 2097152 2097152 false false w0
      = Some (Ret (0x7f0000001000 + map_offset 0x7f0000001000 2097152), w') /\
    events w' = events w0
      ++ [EvMmap (2097152 + 2097152 + 4096) (map_prot linux_x86_64)
                 (Z.lor (map_flags linux_x86_64 34 (-1) false)
                        (map_sync_flags linux_x86_64 false false))
                 (-1) (MmapOk 0x7f0000001000);
          EvMprotect 0x7f0000001000 (map_offset 0x7f0000001000 2097152)
                     (PROT_NONE linux_x86_64) 0;
          EvMprotect (0x7f0000001000 + map_offset 0x7f0000001000 2097152 + 2097152)
                     4096 (PROT_NONE linux_x86_64) rc] /\
    0 <= map_offset 0x7f0000001000 2097152 < 2097152 /\
    (2097152 | 0x7f0000001000 + map_offset 0x7f0000001000 2097152) /\
    0x7f0000001000 + map_offset 0x7f0000001000 2097152 + 2097152 + 4096
      <= 0x7f0000001000 + (2097152 + 2097152 + 4096).
Proof.
  apply (X6_granted_request_layout linux_x86_64 plain_host 1 (-1) 2097152
           2097152 false false w0 34 4096 (-1) w0 0x7f0000001000).
  - reflexivity.
  - reflexivity.
  - lia.
  - lia.
  - lia.
  - lia.
  - reflexivity.
  - reflexivity.
  - simpl. lia.
Defined.

(** *** The mapping requests of a run *)

Lemma qemu_ram_mmap_requests (P : Platform) (K : Host)
    (fuel : nat) (fd size align : Z) (shared is_pmem : bool) (w : World)
    (flags0 ps mapfd : Z) (w1 : World) :
  reservation_params P K fuel fd w = Some (Ret (flags0, ps, mapfd), w1) ->
  is_power_of_2 align = true ->
  ps <= align ->
  exists r w' l,
    qemu_ram_mmap P K fuel fd size align shared is_pmem w = Some (Ret r, w') /\
    events w' = events w1 ++ l /\
    Forall (request_of P (map_flags P flags0 fd shared)
                       (map_sync_flags P shared is_pmem) mapfd
                       (to_size_t (size + align + ps)) size) l.
Proof.
  intros Hparams Hpow Hle.
  rewrite (qemu_ram_mmap_stages P K _ _ _ _ _ _ _ _ _ _ _ Hparams Hpow Hle).
  set (flags := map_flags P flags0 fd shared).
  set (sync := map_sync_flags P shared is_pmem).
  set (total := to_size_t (size + align + ps)).
  assert (Hguards : forall l, Forall is_guard_call l ->
                    Forall (request_of P flags sync mapfd total size) l).
  { intros l Hl. eapply Forall_impl; [exact Hl|].
    intros [] He; simpl in *; auto; contradiction. }
  unfold bind at 1.
  destruct (sys_mmap_returns K total (map_prot P) (Z.lor flags sync) mapfd w1)
    as (wa & Hm & Heva & _).
  rewrite Hm.
  set (r1 := k_mmap K (events w1) total (map_prot P) (Z.lor flags sync) mapfd) in *.
  assert (He1 : request_of P flags sync mapfd total size
                  (EvMmap total (map_prot P) (Z.lor flags sync) mapfd r1))
    by (simpl; auto).
  unfold bind at 1.
  destruct ((mmap_ptr r1 =? MAP_FAILED) && negb (sync =? 0)).
  - destruct (map_retry_returns P K fd size flags mapfd wa) as (wb & Hr & Hevb).
    rewrite Hr.
    match type of Hr with _ = Some (Ret (mmap_ptr ?r), _) => set (r2 := r) in * end.
    match type of Hevb with _ = _ ++ ?wn ++ _ => set (warn := wn) in * end.
    assert (Hwarn : Forall (request_of P flags sync mapfd total size) warn).
    { subst warn. destruct (decide (errno wa = ENOTSUP));
        repeat constructor. }
    assert (He4 : request_of P flags sync mapfd total size
                    (EvMmap size (map_prot P) flags mapfd r2))
      by (simpl; auto).
    destruct (Z.eqb_spec (mmap_ptr r2) MAP_FAILED) as [Hf|Hf].
    + exists MAP_FAILED, wb, ([EvMmap total (map_prot P) (Z.lor flags sync) mapfd r1]
                             ++ warn ++ [EvMmap size (map_prot P) flags mapfd r2]).
      split; [reflexivity|].
      split; [rewrite Hevb, Heva, <- app_assoc; reflexivity|].
      apply Forall_app. split; [repeat constructor; exact He1|].
      apply Forall_app. split; [exact Hwarn|repeat constructor; exact He4].
    + destruct (map_guards_returns P K size align ps total (mmap_ptr r2) wb)
        as (w' & l & Hg & Hevg & _ & _ & Hall).
      exists (to_size_t (mmap_ptr r2 + map_offset (mmap_ptr r2) align)), w',
             ([EvMmap total (map_prot P) (Z.lor flags sync) mapfd r1]
              ++ warn ++ [EvMmap size (map_prot P) flags mapfd r2] ++ l).
      split; [exact Hg|].
      split; [rewrite Hevg, Hevb, Heva, <- !app_assoc; reflexivity|].
      apply Forall_app. split; [repeat constructor; exact He1|].
      apply Forall_app. split; [exact Hwarn|].
      apply Forall_app. split; [repeat constructor; exact He4|auto].
  - unfold ret at 1.
    destruct (Z.eqb_spec (mmap_ptr r1) MAP_FAILED) as [Hf|Hf].
    + exists MAP_FAILED, wa, [EvMmap total (map_prot P) (Z.lor flags sync) mapfd r1].
      split; [reflexivity|]. split; [exact Heva|].
      repeat constructor; exact He1.
    + destruct (map_guards_returns P K size align ps total (mmap_ptr r1) wa)
        as (w' & l & Hg & Hevg & _ & _ & Hall).
      exists (to_size_t (mmap_ptr r1 + map_offset (mmap_ptr r1) align)), w',
             ([EvMmap total (map_prot P) (Z.lor flags sync) mapfd r1] ++ l).
      split; [exact Hg|].
      split; [rewrite Hevg, Heva, <- app_assoc; reflexivity|].
      apply Forall_app. split; [repeat constructor; exact He1|auto].
Qed.

(** X7. Except on 64-bit PowerPC Linux the descriptor is never mapped:
    whatever [fd], [shared] and [is_pmem] are, every mapping request of a
    call is made with descriptor -1 and with the [MAP_PRIVATE] and
    [MAP_ANONYMOUS] bits set in its flags. *)
Theorem X7_descriptor_is_never_mapped (P : Platform) (K : Host)
    (fuel : nat) (fd size align : Z) (shared is_pmem : bool) (w : World) :
  powerpc64_linux P = false ->
  is_power_of_2 align = true ->
  qemu_real_host_page_size P <= align ->
  exists r w',
    qemu_ram_mmap P K fuel fd size align shared is_pmem w = Some (Ret r, w') /\
    forall len prot fl mfd rr,
      EvMmap len prot fl mfd rr ∈ drop (length (events w)) (events w') ->
      mfd = -1 /\
      Z.land fl (MAP_ANONYMOUS P) = MAP_ANONYMOUS P /\
      Z.land fl (MAP_PRIVATE P) = MAP_PRIVATE P.
Proof.
  intros Hppc Hpow Hle.
  assert (Hparams : reservation_params P K fuel fd w
                    = Some (Ret (Z.lor (MAP_PRIVATE P) (MAP_ANONYMOUS P),
                                 qemu_real_host_page_size P, -1), w))
    by (unfold reservation_params; rewrite Hppc; reflexivity).
  destruct (qemu_ram_mmap_requests P K fuel fd size align shared is_pmem w
              _ _ _ _ Hparams Hpow Hle) as (r & w' & l & Hrun & Hev & Hall).
  exists r, w'. split; [exact Hrun|].
  intros len prot fl mfd rr Hin.
  rewrite Hev, drop_app_length in Hin.
  rewrite Forall_forall in Hall. specialize (Hall _ Hin). simpl in Hall.
  destruct Hall as (Hmfd & _ & Hfl).
  split; [exact Hmfd|].
  assert (Hanon : Z.land (map_flags P (Z.lor (MAP_PRIVATE P) (MAP_ANONYMOUS P))
                                    fd shared) (MAP_ANONYMOUS P)
                  = MAP_ANONYMOUS P)
    by (unfold map_flags; do 2 apply land_lor_keep; apply land_lor_r).
  assert (Hpriv : Z.land (map_flags P (Z.lor (MAP_PRIVATE P) (MAP_ANONYMOUS P))
                                    fd shared) (MAP_PRIVATE P)
                  = MAP_PRIVATE P).
  { unfold map_flags. do 2 apply land_lor_keep.
    rewrite Z.lor_comm. apply land_lor_r. }
  destruct Hfl as [[_ ->]|[_ ->]].
  - split; apply land_lor_keep; assumption.
  - split; assumption.
Qed.

Lemma X7_descriptor_is_never_mapped_witness :
  exists r w',
    qemu_ram_mmap linux_x86_64 no_pmem_host 1 7 2097152 2097152 true true w0
      = Some (Ret r, w') /\
    forall len prot fl mfd rr,
      EvMmap len prot fl mfd rr ∈ drop (length (events w0)) (events w') ->
      mfd = -1 /\
      Z.land fl (MAP_ANONYMOUS linux_x86_64) = MAP_ANONYMOUS linux_x86_64 /\
      Z.land fl (MAP_PRIVATE linux_x86_64) = MAP_PRIVATE linux_x86_64.
Proof.
  apply (X7_descriptor_is_never_mapped linux_x86_64 no_pmem_host 1 7 2097152
           2097152 true true w0).
  - reflexivity.
  - reflexivity.
  - simpl. lia.
Defined.

(** *** Mapping and unmapping together *)

(** X8. Mapping and then unmapping leaves [align] bytes of the reservation
    behind.  For a request granted at once with its leading guard accepted,
    [qemu_ram_munmap] of the base returned releases the bytes from the base
    to the end of the trailing guard and nothing else; the [offset] bytes
    below the base and the [align - offset] bytes above the trailing guard
    stay mapped. *)
Theorem X8_unmap_leaves_align_bytes (P : Platform) (K : Host)
    (fuel fuel' : nat) (fd size align : Z) (shared is_pmem : bool) (w : World)
    (flags0 ps mapfd : Z) (w1 : World) (a base : Z) (w' w2 : World) :
  reservation_params P K fuel fd w = Some (Ret (flags0, ps, mapfd), w1) ->
  is_power_of_2 align = true ->
  ps <= align ->
  0 <= size -> 0 <= ps -> 0 < a ->
  a + (size + align + ps) < 2 ^ SIZE_BITS ->
  let flags := Z.lor (map_flags P flags0 fd shared) (map_sync_flags P shared is_pmem) in
  let total := size + align + ps in
  let e1 := EvMmap total (map_prot P) flags mapfd (MmapOk a) in
  k_mmap K (events w1) total (map_prot P) flags mapfd = MmapOk a ->
  0 <= k_mprotect K (events w1 ++ [e1]) a (map_offset a align) (PROT_NONE P) ->
  qemu_ram_mmap P K fuel fd size align shared is_pmem w = Some (Ret base, w') ->
  spec_pagesize_rule P K fuel' fd w' = Some (Ret ps, w2) ->
  exists w3,
    qemu_ram_munmap P K fuel' fd base size w' = Some (Ret tt, w3) /\
    (forall addr, released_between w' w3 addr <-> base <= addr < base + size + ps) /\
    a <= base /\ base + size + ps <= a + total /\
    (base - a) + (a + total - (base + size + ps)) = align.
Proof.
  intros Hparams Hpow Hle Hsize Hps Ha Htop flags total e1 Hfirst Hr1 Hrun Hrule.
  pose proof two_to_size_bits as H64.
  destruct (map_success_layout P K fuel fd size align shared is_pmem w flags0
              ps mapfd w1 a Hparams Hpow Hle Hsize Hps ltac:(lia) Htop Hfirst Hr1)
    as (rc & w'' & Hrun' & _ & Hoff & _ & Hin).
  rewrite Hrun in Hrun'. injection Hrun' as Hbase Hw.
  set (offset := map_offset a align) in *.
  set (len := to_size_t (size + ps)).
  assert (Hlen : len = size + ps) by (apply to_size_t_small; subst total; lia).
  exists (log (EvMunmap base len (k_munmap K (events w2) base len)) w2).
  split; [|split].
  - unfold qemu_ram_munmap.
    destruct (Z.eqb_spec base 0) as [H0|_]; [lia|].
    change (negb false) with true. cbv iota.
    unfold bind at 1. fold (spec_pagesize_rule P K fuel' fd). rewrite Hrule.
    reflexivity.
  - destruct (spec_pagesize_rule_events _ _ _ _ _ _ _ Hrule) as (l & Hl & Hall).
    intros addr. unfold released_between. simpl. rewrite Hl.
    rewrite <- app_assoc, drop_app_length.
    replace (base + size + ps) with (base + len) by lia.
    split.
    + intros (addr0 & n & r & Hmem & Hrange).
      apply elem_of_app in Hmem as [Hmem|Hmem].
      * rewrite Forall_forall in Hall. destruct (Hall _ Hmem) as (? & ? & ?).
        discriminate.
      * apply list_elem_of_singleton in Hmem. inversion Hmem; subst addr0 n r.
        exact Hrange.
    + intros Hrange. exists base, len, (k_munmap K (events w' ++ l) base len).
      split; [|exact Hrange]. apply elem_of_app. right.
      apply list_elem_of_singleton. reflexivity.
  - subst total. lia.
Qed.

Lemma X8_unmap_leaves_align_bytes_witness :
  exists w3,
    qemu_ram_munmap linux_x86_64 plain_host 1 (-1) 0x7f0000200000 2097152
      after_plain_map = Some (Ret tt, w3) /\
    (forall addr,
       released_between after_plain_map w3 addr
       <-> 0x7f0000200000 <= addr < 0x7f0000200000 + 2097152 + 4096) /\
    0x7f0000001000 <= 0x7f0000200000 /\
    0x7f0000200000 + 2097152 + 4096 <= 0x7f0000001000 + (2097152 + 2097152 + 4096) /\
    (0x7f0000200000 - 0x7f0000001000)
    + (0x7f0000001000 + (2097152 + 2097152 + 4096)
       - (0x7f0000200000 + 2097152 + 4096)) = 2097152.
Proof.
  apply (X8_unmap_leaves_align_bytes linux_x86_64 plain_host 1 1 (-1) 2097152
           2097152 false false w0 34 4096 (-1) w0 0x7f0000001000
           0x7f0000200000 after_plain_map after_plain_map).
  - reflexivity.
  - reflexivity.
  - lia.
  - lia.
  - lia.
  - lia.
  - reflexivity.
  - reflexivity.
  - simpl. lia.
  - vm_compute. reflexivity.
  - reflexivity.
Defined.

(** *** The compatibility path, and the probe that is never answered *)

(** X9. After the fallback the guards are laid out for a reservation that
    was not obtained.  When the first request is refused and the second,
    for [size] bytes only, is granted at [a2], the base returned is still
    [a2 + offset] and the trailing guard is still asked for at
    [a2 + offset + size]: the guard starts at or past the end of the [size]
    bytes obtained, and the last [offset] bytes of the region returned lie
    past that end too. *)
Theorem X9_fallback_guards_lie_past_the_mapping (P : Platform) (K : Host)
    (fuel : nat) (fd size align : Z) (w : World) (flags0 ps mapfd : Z)
    (w1 : World) (e : Errno) (a2 : Z) :
  reservation_params P K fuel fd w = Some (Ret (flags0, ps, mapfd), w1) ->
  is_power_of_2 align = true ->
  ps <= align ->
  Z.lor (MAP_SYNC P) (MAP_SHARED_VALIDATE P) <> 0 ->
  0 <= size -> 0 <= ps -> 0 <= a2 ->
  a2 + (size + align + ps) < 2 ^ SIZE_BITS ->
  let flags := map_flags P flags0 fd true in
  let sync := Z.lor (MAP_SYNC P) (MAP_SHARED_VALIDATE P) in
  let total := size + align + ps in
  let e1 := EvMmap total (map_prot P) (Z.lor flags sync) mapfd (MmapErr e) in
  k_mmap K (events w1) total (map_prot P) (Z.lor flags sync) mapfd = MmapErr e ->
  let rl := k_readlink K (events w1 ++ [e1]) (proc_link_of fd) in
  let warn :=
    if decide (e = ENOTSUP)
    then [EvReadlink (proc_link_of fd) (PATH_MAX P - 1) rl;
          EvStderr (pmem_warning (link_name P rl))]
    else [] in
  k_mmap K ((events w1 ++ [e1]) ++ warn) size (map_prot P) flags mapfd = MmapOk a2 ->
  let offset := map_offset a2 align in
  exists w' l rc,
    qemu_ram_mmap P K fuel fd size align true true w
      = Some (Ret (a2 + offset), w') /\
    events w' = events w1 ++ [e1] ++ warn
                ++ [EvMmap size (map_prot P) flags mapfd (MmapOk a2)] ++ l /\
    EvMprotect (a2 + offset + size) ps (PROT_NONE P) rc ∈ l /\
    0 <= offset < align /\
    a2 + size <= a2 + offset + size /\
    (a2 + offset + size) - (a2 + size) = offset.
Proof.
  intros Hparams Hpow Hle Hsync Hsize Hps Ha Htop flags sync total e1 Hfirst
         rl warn Hsecond offset.
  pose proof (is_power_of_2_pos _ Hpow) as Hpos.
  pose proof two_to_size_bits as H64.
  destruct (map_offset_small a2 align Hpos Ha ltac:(lia)) as (Hoff & Hbase & _).
  fold offset in Hoff, Hbase.
  rewrite (qemu_ram_mmap_stages P K _ _ _ _ _ _ _ _ _ _ _ Hparams Hpow Hle).
  change (map_sync_flags P true true) with sync. fold flags.
  rewrite (to_size_t_small (size + align + ps)) by lia. fold total.
  unfold bind at 1.
  destruct (sys_mmap_returns K total (map_prot P) (Z.lor flags sync) mapfd w1)
    as (wa & Hm & Heva & Herra).
  rewrite Hm. rewrite Hfirst in Heva, Herra |- *. fold e1 in Heva.
  simpl mmap_ptr. rewrite Z.eqb_refl.
  destruct (Z.eqb_spec sync 0) as [|_]; [contradiction|]. simpl andb.
  unfold bind at 1.
  destruct (map_retry_returns P K fd size flags mapfd wa) as (wb & Hr & Hevb).
  rewrite Herra, Heva in Hevb, Hr. fold rl warn in Hevb, Hr.
  rewrite Hsecond in Hevb, Hr. rewrite Hr.
  change (mmap_ptr (MmapOk a2)) with (to_size_t a2).
  rewrite (to_size_t_small a2) by lia.
  destruct (Z.eqb_spec a2 MAP_FAILED) as [Hf|_];
    [unfold MAP_FAILED in Hf; lia|].
  destruct (map_guards_events P K size align ps total a2 wb)
    as (w' & released & guard & Hg & Hevg & _ & _ & _ & Hguard & _).
  fold offset in Hevg, Hguard, Hg. rewrite Hbase in Hg.
  destruct Hguard as [rc Hrc].
  { apply Z.gtb_lt.
    rewrite (to_size_t_small (total - offset)) by (subst total; lia).
    rewrite (to_size_t_small (size + ps)) by lia. subst total. lia. }
  rewrite (to_size_t_small (a2 + offset + size)) in Hrc by lia.
  eexists w', _, rc. split; [exact Hg|].
  split; [rewrite Hevg, Hevb, <- !app_assoc; reflexivity|].
  split; [|lia].
  rewrite Hrc. apply elem_of_app. right. apply elem_of_app. right.
  apply list_elem_of_singleton. reflexivity.
Qed.

Lemma X9_fallback_guards_lie_past_the_mapping_witness :
  exists w' l rc,
    qemu_ram_mmap linux_x86_64 no_pmem_host 1 7 2097152 2097152 true true w0
      = Some (Ret (0x7f0000001000 + map_offset 0x7f0000001000 2097152), w') /\
    events w' = events w0
      ++ [EvMmap (2097152 + 2097152 + 4096) (map_prot linux_x86_64)
                 (Z.lor (map_flags linux_x86_64 34 7 true) 524291) (-1)
                 (MmapErr ENOTSUP)]
      ++ [EvReadlink (proc_link_of 7) (PATH_MAX linux_x86_64 - 1)
                     (ReadlinkOk "/dev/dax0.0");
          EvStderr (pmem_warning (link_name linux_x86_64
                                    (ReadlinkOk "/dev/dax0.0")))]
      ++ [EvMmap 2097152 (map_prot linux_x86_64)
                 (map_flags linux_x86_64 34 7 true) (-1)
                 (MmapOk 0x7f0000001000)] ++ l /\
    EvMprotect (0x7f0000001000 + map_offset 0x7f0000001000 2097152 + 2097152)
               4096 (PROT_NONE linux_x86_64) rc ∈ l /\
    0 <= map_offset 0x7f0000001000 2097152 < 2097152 /\
    0x7f0000001000 + 2097152
      <= 0x7f0000001000 + map_offset 0x7f0000001000 2097152 + 2097152 /\
    (0x7f0000001000 + map_offset 0x7f0000001000 2097152 + 2097152)
      - (0x7f0000001000 + 2097152) = map_offset 0x7f0000001000 2097152.
Proof.
  apply (X9_fallback_guards_lie_past_the_mapping linux_x86_64 no_pmem_host 1 7
           2097152 2097152 w0 34 4096 (-1) w0 ENOTSUP 0x7f0000001000).
  - reflexivity.
  - reflexivity.
  - lia.
  - vm_compute. discriminate.
  - lia.
  - lia.
  - lia.
  - reflexivity.
  - reflexivity.
  - reflexivity.
Defined.

(** X10. The probe of a descriptor has no bound on its retries: on a host
    that answers every [fstatfs] with EINTR, [qemu_fd_getpagesize] of a
    valid descriptor does not return, however many turns of the loop are
    allowed. *)
Theorem X10_probe_never_gives_up (P : Platform) (K : Host) (fd : Z) :
  CONFIG_LINUX P = true ->
  0 <= fd ->
  (forall tr, k_fstatfs K tr fd = StatfsErr EINTR) ->
  forall fuel w, qemu_fd_getpagesize P K fuel fd w = None.
Proof.
  intros Hlinux Hfd Hintr fuel w.
  unfold qemu_fd_getpagesize. rewrite Hlinux.
  destruct (Z.eqb_spec fd (-1)) as [|_]; [lia|].
  change (negb false) with true. cbv iota.
  assert (Hloop : forall fuel w, fstatfs_retry K fuel fd w = None).
  { clear w fuel. induction fuel as [|fuel IH]; intros w; [reflexivity|].
    simpl. unfold bind, sys_fstatfs, get_errno.
    destruct (Z.ltb_spec fd 0) as [|_]; [lia|].
    rewrite Hintr. simpl.
    destruct (decide (EINTR = EINTR)); [apply IH|congruence]. }
  unfold bind. rewrite Hloop. reflexivity.
Qed.

Lemma X10_probe_never_gives_up_witness :
  qemu_fd_getpagesize linux_x86_64 interrupting_host 1000 5 w0 = None.
Proof.
  refine (X10_probe_never_gives_up linux_x86_64 interrupting_host 5 _ _ _ 1000%nat w0).
  - reflexivity.
  - lia.
  - reflexivity.
Defined.

(** X18. On 64-bit PowerPC Linux the reservation follows the page size of
    the descriptor.  When there is a descriptor and its probe gives a page
    size other than the host page size, every mapping request of the call
    maps the descriptor itself with [MAP_NORESERVE] set; with no descriptor,
    or with the host page size, every request is anonymous with descriptor
    -1. *)
Theorem X18_ppc64_reservation_follows_descriptor (P : Platform) (K : Host)
    (fuel : nat) (fd size align : Z) (shared is_pmem : bool) (w : World)
    (ps : Z) (w1 : World) :
  powerpc64_linux P = true ->
  qemu_fd_getpagesize P K fuel fd w = Some (Ret ps, w1) ->
  is_power_of_2 align = true ->
  ps <= align ->
  exists r w',
    qemu_ram_mmap P K fuel fd size align shared is_pmem w = Some (Ret r, w') /\
    forall len prot fl mfd rr,
      EvMmap len prot fl mfd rr ∈ drop (length (events w1)) (events w') ->
      if (fd =? -1) || (ps =? qemu_real_host_page_size P)
      then mfd = -1 /\ Z.land fl (MAP_ANONYMOUS P) = MAP_ANONYMOUS P
      else mfd = fd /\ Z.land fl (MAP_NORESERVE P) = MAP_NORESERVE P.
Proof.
  intros Hppc Hprobe Hpow Hle.
  set (anon := (fd =? -1) || (ps =? qemu_real_host_page_size P)).
  set (flags0 := if anon then Z.lor (MAP_PRIVATE P) (MAP_ANONYMOUS P)
                 else Z.lor (MAP_PRIVATE P) (MAP_NORESERVE P)).
  set (mapfd := if anon then -1 else fd).
  assert (Hparams : reservation_params P K fuel fd w
                    = Some (Ret (flags0, ps, mapfd), w1)).
  { unfold reservation_params. rewrite Hppc. unfold bind. rewrite Hprobe.
    fold anon. unfold flags0, mapfd. destruct anon; reflexivity. }
  destruct (qemu_ram_mmap_requests P K fuel fd size align shared is_pmem w
              _ _ _ _ Hparams Hpow Hle) as (r & w' & l & Hrun & Hev & Hall).
  exists r, w'. split; [exact Hrun|].
  intros len prot fl mfd rr Hin.
  rewrite Hev, drop_app_length in Hin.
  rewrite Forall_forall in Hall. specialize (Hall _ Hin). simpl in Hall.
  destruct Hall as (Hmfd & _ & Hfl).
  assert (Hbits : forall bit, Z.land flags0 bit = bit ->
            Z.land fl bit = bit).
  { intros bit Hbit.
    assert (Z.land (map_flags P flags0 fd shared) bit = bit)
      by (unfold map_flags; do 2 apply land_lor_keep; exact Hbit).
    destruct Hfl as [[_ ->]|[_ ->]]; [apply land_lor_keep|]; assumption. }
  unfold flags0, mapfd in *. destruct anon.
  - split; [exact Hmfd|]. apply Hbits, land_lor_r.
  - split; [exact Hmfd|]. apply Hbits, land_lor_r.
Qed.

Lemma X18_ppc64_reservation_follows_descriptor_witness :
  exists r w',
    qemu_ram_mmap linux_ppc64 ppc64_hugetlbfs_host 1 5 16777216 16777216
      false false w0 = Some (Ret r, w') /\
    forall len prot fl mfd rr,
      EvMmap len prot fl mfd rr
        ∈ drop (length (events {| events := [EvFstatfs 5
                                   (StatfsOk {| f_type := HUGETLBFS_MAGIC;
                                                f_bsize := 16777216 |})];
                                  errno := EINVAL |}))
               (events w') ->
      if (5 =? -1) || (16777216 =? qemu_real_host_page_size linux_ppc64)
      then mfd = -1 /\ Z.land fl (MAP_ANONYMOUS linux_ppc64)
                       = MAP_ANONYMOUS linux_ppc64
      else mfd = 5 /\ Z.land fl (MAP_NORESERVE linux_ppc64)
                      = MAP_NORESERVE linux_ppc64.
Proof.
  apply (X18_ppc64_reservation_follows_descriptor linux_ppc64
           ppc64_hugetlbfs_host 1 5 16777216 16777216 false false w0).
  - reflexivity.
  - reflexivity.
  - reflexivity.
  - lia.
Defined.

End MmapAllocProofs.

(** ** Part IV: properties of the coroutine runtime *)
Module QemuCoroutineProofs.
Import QemuCoroutine.

Lemma create_and_terminate_recycles co entry opaque s :
  one_pooled co s ->
  exists s',
    create_and_terminate entry opaque s = Done co s' /\
    one_pooled co s' /\
    dom (heap s') = dom (heap s).
Proof.
  intros (Htotal & Htop & Hslot & c & Hco & Hcaller & Hsched & Hlocks).
  unfold create_and_terminate, qemu_coroutine_create.
  rewrite Htop. simpl. change (to_uint8 (1 - 1)) with 0.
  change (Z.to_nat 0) with 0%nat. rewrite Hslot. simpl. rewrite Hco. simpl.
  unfold qemu_aio_coroutine_enter, QSIMPLEQ_INSERT_TAIL, set_link. simpl.
  rewrite lookup_insert_eq. simpl.
  unfold enter_slice. simpl. rewrite lookup_insert_eq. simpl.
  rewrite Hsched, Hcaller. simpl.
  unfold after_switch. simpl. rewrite lookup_insert_eq. simpl.
  rewrite lookup_insert_eq. simpl.
  rewrite Hlocks. simpl.
  unfold coroutine_delete, coroutine_delete_claim. simpl.
  rewrite lookup_insert_eq. simpl.
  rewrite Htotal. simpl. unfold coroutine_delete_store. simpl.
  change (Z.to_nat 0) with 0%nat. rewrite Hslot. simpl.
  eexists. split; [reflexivity|]. split.
  - unfold one_pooled. simpl.
    split; [assumption|]. split; [reflexivity|]. split.
    + destruct (pool s) as [|x l]; [discriminate|reflexivity].
    + eexists. rewrite lookup_insert_eq. split; [reflexivity|]. simpl. auto.
  - simpl. rewrite !dom_insert_L.
    assert (Hin : co ∈ dom (heap s)) by (apply elem_of_dom; eauto).
    apply set_eq. intros x. rewrite !elem_of_union, elem_of_singleton.
    split; [|auto 10].
    intros Hx. repeat (destruct Hx as [->|Hx]; [assumption|]). assumption.
Qed.

Lemma recycle_run_recycles co n s :
  one_pooled co s ->
  exists s',
    recycle_run n s = Done (replicate n co) s' /\
    one_pooled co s' /\
    dom (heap s') = dom (heap s).
Proof.
  revert s. induction n as [|n IH]; intros s Hs.
  - exists s. simpl. auto.
  - destruct (create_and_terminate_recycles co 0 0 s Hs) as (s1 & Hstep & Hs1 & Hdom1).
    destruct (IH s1 Hs1) as (s' & Hrun & Hs' & Hdom').
    exists s'. simpl. rewrite Hstep. simpl. rewrite Hrun. simpl.
    split; [reflexivity|]. split; [assumption|congruence].
Qed.

Lemma first_step :
  create_and_terminate 0 0 initial_state = Done first_coroutine after_first_step.
Proof. vm_compute. reflexivity. Qed.

Lemma after_first_step_pooled : one_pooled first_coroutine after_first_step.
Proof.
  unfold one_pooled. repeat split.
  exists fresh_coroutine. split; [|auto]. vm_compute. reflexivity.
Qed.

Lemma recycle_run_from_start n :
  exists s,
    recycle_run (S n) initial_state = Done (replicate (S n) first_coroutine) s /\
    one_pooled first_coroutine s /\
    dom (heap s) = dom (heap after_first_step).
Proof.
  destruct (recycle_run_recycles first_coroutine n after_first_step
              after_first_step_pooled) as (s & Hrun & Hs & Hdom).
  exists s. split; [|auto].
  cbn [recycle_run]. rewrite first_step. cbn [rbind]. rewrite Hrun. reflexivity.
Qed.

(** C3 (as stated) fails: after 17 steps, and after 20, [pool.total] is 1,
    not 16. *)
Lemma C3_total_is_not_16 :
  (exists l s, recycle_run 17 initial_state = Done l s /\
               pool_total s = 1 /\ pool_total s <> 16) /\
  (exists l s, recycle_run 20 initial_state = Done l s /\
               pool_total s = 1 /\ pool_total s <> 16).
Proof.
  split.
  - destruct (recycle_run_from_start 16) as (s & Hrun & (Ht & _) & _).
    exists (replicate 17 first_coroutine), s.
    split; [exact Hrun|]. rewrite Ht. split; [reflexivity|discriminate].
  - destruct (recycle_run_from_start 19) as (s & Hrun & (Ht & _) & _).
    exists (replicate 20 first_coroutine), s.
    split; [exact Hrun|]. rewrite Ht. split; [reflexivity|discriminate].
Qed.

(** C3 (amended). Starting from the empty pool, after any number [n >= 1] of
    steps "create a coroutine, run it to termination", [pool.total] is 1 and
    [pool.top] is 1; every step hands out the coroutine allocated in the
    first one, taken from slot 0 of the pool from the second step on, and
    the objects in existence stay the leader and that one coroutine. *)
Theorem C3_pool_recycles_one_coroutine (n : nat) :
  exists s,
    recycle_run (S n) initial_state = Done (replicate (S n) first_coroutine) s /\
    pool_total s = 1 /\ pool_top s = 1 /\
    pool s !! 0%nat = Some (Some first_coroutine) /\
    dom (heap s) = {[ leader; first_coroutine ]} /\
    size (heap s) = 2%nat.
Proof.
  destruct (recycle_run_from_start n)
    as (s & Hrun & (Ht & Htop & Hslot & _) & Hdom).
  assert (Hd : dom (heap s) = {[ leader; first_coroutine ]}).
  { rewrite Hdom. unfold after_first_step. simpl.
    rewrite dom_insert_L, dom_singleton_L. set_solver. }
  exists s. split; [exact Hrun|].
  split; [exact Ht|]. split; [exact Htop|]. split; [exact Hslot|].
  split; [exact Hd|].
  rewrite <- size_dom, Hd. rewrite size_union, !size_singleton; [reflexivity|].
  unfold leader, first_coroutine. set_solver.
Qed.

Lemma to_uint8_small z : 0 <= z < 256 -> to_uint8 z = z.
Proof. unfold to_uint8. apply Z.mod_small. Qed.

Lemma initial_state_rested : pool_rested initial_state.
Proof. split; [unfold COROUTINE_POOL_SIZE; simpl; lia|]. simpl. intros i Hi. lia. Qed.

Lemma create_from_rested e a s :
  pool_rested s ->
  exists co c s',
    qemu_coroutine_create e a s = Done co s' /\
    heap s' !! co = Some c /\
    caller c = None /\ co_queue_wakeup c = [] /\
    entry c = e /\ entry_arg c = a /\
    qemu_coroutine_entered co s' = Done false s' /\
    pool_rested s' /\
    ((pool_top s = 0 /\ heap s !! co = None /\
      pool_total s' = to_uint8 (pool_total s + 1)) \/
     (0 < pool_top s /\
      pool s !! Z.to_nat (pool_top s - 1) = Some (Some co) /\
      pool_top s' = pool_top s - 1 /\ dom (heap s') = dom (heap s))).
Proof.
  intros [Hrange Hslots]. unfold COROUTINE_POOL_SIZE in Hrange.
  unfold qemu_coroutine_create.
  destruct (Z.ltb_spec 0 (pool_top s)) as [Hpos|Hzero].
  - (* taken from the pool *)
    destruct (Hslots (pool_top s - 1)) as (co & c & Hslot & Hco & Hcaller); [lia|].
    rewrite to_uint8_small by lia. simpl.
    destruct (Z.ltb_spec (pool_top s - 1) COROUTINE_POOL_SIZE) as [_|Hge];
      [|unfold COROUTINE_POOL_SIZE in Hge; lia].
    rewrite Hslot. simpl. rewrite Hco.
    eexists co, _, _. split; [reflexivity|].
    unfold qemu_coroutine_entered. simpl. rewrite lookup_insert_eq.
    split; [reflexivity|]. simpl. rewrite Hcaller.
    repeat (split; [reflexivity|]).
    split.
    + split; [unfold COROUTINE_POOL_SIZE; simpl; lia|]. simpl.
      intros i Hi. destruct (Hslots i) as (co' & c' & Hslot' & Hco' & Hcaller'); [lia|].
      destruct (decide (co' = co)) as [->|Hne].
      * eexists co, _. rewrite lookup_insert_eq. split; [exact Hslot'|].
        split; [reflexivity|]. simpl. exact Hcaller.
      * exists co', c'. rewrite lookup_insert_ne by congruence. auto.
    + right. split; [assumption|]. split; [reflexivity|]. split; [reflexivity|].
      simpl. rewrite dom_insert_L.
      assert (Hin : co ∈ dom (heap s)) by (apply elem_of_dom; eauto).
      apply set_eq. intros x. rewrite elem_of_union, elem_of_singleton.
      split; [intros [->|Hx]; assumption | auto].
  - (* newly allocated *)
    assert (Htop : pool_top s = 0) by lia.
    unfold qemu_coroutine_new. simpl. rewrite lookup_insert_eq.
    eexists _, _, _. split; [reflexivity|].
    unfold qemu_coroutine_entered. simpl. rewrite lookup_insert_eq.
    split; [reflexivity|]. simpl.
    repeat (split; [reflexivity|]).
    split.
    + split; [unfold COROUTINE_POOL_SIZE; simpl; lia|]. simpl.
      intros i Hi. lia.
    + left. split; [assumption|]. split; [|reflexivity].
      apply not_elem_of_dom. apply is_fresh.
Qed.

Lemma delete_keeps_rested co s s' :
  pool_rested s -> not_pooled co s ->
  coroutine_delete co s = Done tt s' ->
  pool_rested s' /\
  (pool_total s < COROUTINE_POOL_SIZE ->
   pool_top s' = pool_top s + 1 /\
   pool s' !! Z.to_nat (pool_top s) = Some (Some co) /\
   exists c', heap s' !! co = Some c' /\ caller c' = None).
Proof.
  intros [Hrange Hslots] Hnot. unfold COROUTINE_POOL_SIZE in *.
  unfold coroutine_delete, coroutine_delete_claim, coroutine_delete_store.
  destruct (heap s !! co) as [c|] eqn:Hco; [|discriminate]. simpl.
  destruct (Z.geb_spec (pool_total s) COROUTINE_POOL_SIZE) as [Hfull|Hroom];
    unfold COROUTINE_POOL_SIZE in *; cbn [rbind]; simpl.
  - (* freed *)
    intros Hdone. inversion Hdone; subst s'; clear Hdone.
    split; [|intros; lia].
    split; [unfold COROUTINE_POOL_SIZE; simpl; lia|]. simpl. intros i Hi.
    destruct (Hslots i Hi) as (co' & c' & Hslot' & Hco' & Hcaller').
    exists co', c'. split; [assumption|]. split; [|assumption].
    assert (co' <> co) by (intros ->; exact (Hnot i Hi Hslot')).
    unfold qemu_coroutine_delete. simpl.
    rewrite lookup_delete_ne, lookup_insert_ne by congruence. assumption.
  - (* kept *)
    destruct (Z.ltb_spec (pool_top s) 16) as [Hlt|Hge]; [|discriminate].
    destruct (pool s !! Z.to_nat (pool_top s)) as [old|] eqn:Hold; [|discriminate].
    intros Hdone. inversion Hdone; subst s'; clear Hdone.
    pose proof (lookup_lt_Some _ _ _ Hold) as Hlen.
    assert (Hnew : exists c', <[co := set_caller None c]> (heap s) !! co = Some c'
                              /\ caller c' = None).
    { eexists. rewrite lookup_insert_eq. split; reflexivity. }
    split.
    + split; [unfold COROUTINE_POOL_SIZE; simpl; rewrite to_uint8_small; lia|]. simpl.
      rewrite to_uint8_small by lia. intros i Hi.
      destruct (decide (i = pool_top s)) as [->|Hne].
      * destruct Hnew as (c' & Hc' & Hcaller').
        exists co, c'. rewrite list_lookup_insert_eq by assumption. auto.
      * destruct (Hslots i) as (co' & c' & Hslot' & Hco' & Hcaller'); [lia|].
        rewrite list_lookup_insert_ne by lia.
        destruct (decide (co' = co)) as [->|Hne'].
        -- destruct Hnew as (c'' & Hc'' & Hcaller'').
           exists co, c''. auto.
        -- exists co', c'. rewrite lookup_insert_ne by congruence. auto.
    + intros _. simpl. rewrite to_uint8_small by lia.
      split; [reflexivity|].
      rewrite list_lookup_insert_eq by assumption. split; [reflexivity|].
      exact Hnew.
Qed.

(** A write to a coroutine that is not on the free list leaves the list in
    order. *)
Lemma store_keeps_rested co c s :
  pool_rested s -> not_pooled co s ->
  pool_rested (store co c s) /\ not_pooled co (store co c s).
Proof.
  intros [Hrange Hslots] Hnot. split; [|exact Hnot].
  split; [exact Hrange|]. simpl. intros i Hi.
  destruct (Hslots i Hi) as (co' & c' & Hslot' & Hco' & Hcaller').
  exists co', c'. split; [assumption|]. split; [|assumption].
  assert (co' <> co) by (intros ->; exact (Hnot i Hi Hslot')).
  rewrite lookup_insert_ne by congruence. assumption.
Qed.

(** A write to the queue link of any coroutine leaves the list in order. *)
Lemma store_link_keeps_rested x v c s :
  heap s !! x = Some c ->
  pool_rested s ->
  pool_rested (store x (set_co_queue_next v c) s).
Proof.
  intros Hx [Hrange Hslots]. split; [exact Hrange|]. simpl. intros i Hi.
  destruct (Hslots i Hi) as (co' & c' & Hslot' & Hco' & Hcaller').
  destruct (decide (co' = x)) as [->|Hne].
  - eexists x, _. rewrite lookup_insert_eq. split; [exact Hslot'|].
    split; [reflexivity|]. simpl. congruence.
  - exists co', c'. rewrite lookup_insert_ne by congruence. auto.
Qed.

(** A turn of the loop that enters a coroutine which is not on the free
    list keeps the list in order, if the slices do. *)
Lemma enter_slice_keeps_rested sw ctx from to rest s pending' s' :
  switch_keeps_rested sw ->
  pool_rested s -> not_pooled to s ->
  enter_slice sw ctx from to rest s = Done pending' s' ->
  pool_rested s'.
Proof.
  intros Hsw Hrested Hnot. unfold enter_slice.
  destruct (heap s !! to) as [c|]; [|discriminate].
  destruct (scheduled c); [discriminate|].
  destruct (caller c); [discriminate|].
  match goal with
  | |- context [sw from to COROUTINE_ENTER ?s1] =>
      assert (H1 : pool_rested s1 /\ not_pooled to s1)
        by (apply store_keeps_rested; assumption);
      destruct (sw from to COROUTINE_ENTER s1) as [ret s2| | |] eqn:Hswitch;
      cbn [rbind]; try discriminate
  end.
  destruct H1 as [Hr1 Hn1].
  destruct (Hsw _ _ _ _ _ _ Hswitch Hr1 Hn1) as [Hr2 Hn2].
  unfold after_switch.
  destruct (heap s2 !! to) as [c2|]; [|discriminate].
  assert (Hprep : forall q s3,
            QSIMPLEQ_PREPEND rest (co_queue_wakeup c2) s2 = Done q s3 ->
            pool_rested s3 /\ not_pooled to s3).
  { unfold QSIMPLEQ_PREPEND, set_link.
    destruct (last (co_queue_wakeup c2)) as [tail|];
      [destruct (heap s2 !! tail) as [ct|] eqn:Ht; cbn [rbind];
       [|discriminate]|];
      intros q s3 [= <- <-]; split; auto using store_link_keeps_rested. }
  destruct (QSIMPLEQ_PREPEND rest (co_queue_wakeup c2) s2)
    as [[pending wakeup] s3| | |] eqn:Hp; cbn [rbind]; try discriminate.
  destruct (Hprep _ _ eq_refl) as [Hr3' Hn3'].
  destruct (heap s3 !! to) as [c3|]; [|discriminate].
  destruct (store_keeps_rested to (set_co_queue_wakeup wakeup c3) s3 Hr3' Hn3')
    as [Hr3 Hn3].
  destruct ret.
  - intros Hd. inversion Hd; subst. exact Hr3.
  - destruct (negb (locks_held c3 =? 0)); [discriminate|].
    match goal with
    | |- context [coroutine_delete to ?s4] =>
        destruct (coroutine_delete to s4) as [[] s5| | |] eqn:Hdel;
        cbn [rbind]; try discriminate
    end.
    intros Hd. inversion Hd; subst.
    eapply (delete_keeps_rested to); [| |exact Hdel]; assumption.
  - discriminate.
Qed.

Example returns_at_once_keeps_rested : switch_keeps_rested returns_at_once.
Proof.
  intros from to action s ret s' Hd Hr Hn. inversion Hd; subst. auto.
Qed.

Lemma after_first_step_rested : pool_rested after_first_step.
Proof.
  split; [unfold COROUTINE_POOL_SIZE; simpl; lia|]. simpl. intros i Hi.
  assert (i = 0) as -> by lia.
  exists first_coroutine, fresh_coroutine. repeat split.
Qed.

(** Calls that do not interleave.  While the free list is in order (it is
    at the start, [create] keeps it so, and so do [coroutine_delete] of a
    coroutine that is not on it and a turn of the loop of [enter] for such
    a coroutine), every coroutine that [qemu_coroutine_create] returns,
    newly allocated or taken from the pool, has a null [caller], an empty
    [co_queue_wakeup], and the [entry] and [entry_arg] that were passed. *)
Lemma create_returns_unentered_in_sequence :
  pool_rested initial_state /\
  (forall (e a : Z) (s : State),
     pool_rested s ->
     exists co c s',
       qemu_coroutine_create e a s = Done co s' /\
       heap s' !! co = Some c /\
       caller c = None /\ co_queue_wakeup c = [] /\
       entry c = e /\ entry_arg c = a /\
       qemu_coroutine_entered co s' = Done false s' /\
       pool_rested s') /\
  (forall (co : loc) (s s' : State),
     pool_rested s -> not_pooled co s ->
     coroutine_delete co s = Done tt s' ->
     pool_rested s') /\
  (forall (sw : Switch) (ctx : Z) (from to : loc) (rest pending' : list loc)
          (s s' : State),
     switch_keeps_rested sw ->
     pool_rested s -> not_pooled to s ->
     enter_slice sw ctx from to rest s = Done pending' s' ->
     pool_rested s').
Proof.
  split; [exact initial_state_rested|]. split; [|split].
  - intros e a s Hs.
    destruct (create_from_rested e a s Hs)
      as (co & c & s' & H1 & H2 & H3 & H4 & H5 & H6 & H7 & H8 & _).
    exists co, c, s'. auto 10.
  - intros co s s' Hs Hn Hd. exact (proj1 (delete_keeps_rested co s s' Hs Hn Hd)).
  - intros sw ctx from to rest pending' s s'. apply enter_slice_keeps_rested.
Qed.

(** C10. [qemu_coroutine_create] can return a coroutine that is entered.
    [coroutine_delete] claims its slot with [atomic_fetch_inc] and stores
    the coroutine there afterwards; a [qemu_coroutine_create] that another
    thread makes in between finds [top] above 0, takes it down again and
    reads the slot before it is written.  In the run [racing_create] the
    slot still holds the coroutine that was taken from it last and that is
    running: the call returns that coroutine, with the [entry] and
    [entry_arg] passed installed over those of the running coroutine, with
    [caller] set, so that [qemu_coroutine_entered] is true of it. *)
Theorem C10_create_returns_entered_coroutine (e a : Z) :
  exists s' c,
    racing_create e a = Done first_coroutine s' /\
    heap s' !! first_coroutine = Some c /\
    caller c = Some leader /\
    entry c = e /\ entry_arg c = a /\ co_queue_wakeup c = [] /\
    qemu_coroutine_entered first_coroutine s' = Done true s' /\
    pool_top s' = 0 /\ pool_total s' = 2.
Proof.
  eexists _, _. split; [vm_compute; reflexivity|].
  split; [vm_compute; reflexivity|].
  repeat split.
Qed.

Lemma enter_slice_checks (sw : Switch) ctx from to rest s c :
  heap s !! to = Some c ->
  scheduled c <> None \/ caller c <> None ->
  enter_slice sw ctx from to rest s
  = Aborted (fprintf_stderr
               (match scheduled c with
                | Some tag => already_scheduled_msg tag
                | None => reentered_msg
                end)
               (trace (TraceEnter ctx from to (entry_arg c)) s)).
Proof.
  intros Hto Hbad. unfold enter_slice. rewrite Hto.
  destruct (scheduled c) as [tag|]; [reflexivity|].
  destruct (caller c) as [x|]; [reflexivity|].
  destruct Hbad; congruence.
Qed.

Lemma enter_slice_runs (sw : Switch) ctx from to rest s c :
  heap s !! to = Some c ->
  scheduled c = None -> caller c = None ->
  enter_slice sw ctx from to rest s
  = rbind (sw from to COROUTINE_ENTER (slice_start ctx from to c s))
          (after_switch to rest).
Proof.
  intros Hto Hs Hc. unfold enter_slice. rewrite Hto, Hs, Hc. reflexivity.
Qed.

(** [qemu_aio_coroutine_enter] up to its loop: [co] has been pushed onto
    the empty pending queue, which sets its link to null. *)
Lemma enter_alone (sw : Switch) fuel ctx co s c :
  heap s !! co = Some c ->
  qemu_aio_coroutine_enter sw fuel ctx co s
  = run_pending sw fuel ctx (current s) [co]
      (store co (set_co_queue_next None c) s).
Proof.
  intros Hco.
  unfold qemu_aio_coroutine_enter, QSIMPLEQ_INSERT_TAIL, set_link,
    qemu_coroutine_self.
  rewrite Hco. reflexivity.
Qed.

Lemma set_co_queue_next_id c :
  co_queue_next c = None -> set_co_queue_next None c = c.
Proof. destruct c. simpl. intros ->. reflexivity. Qed.

(** C7 (as stated) fails: the push onto the pending queue with which
    [qemu_aio_coroutine_enter] begins writes the queue link of [co] before
    the two tests are made.  Here [co_A], which runs, is entered again: the
    process is aborted, and the link of [co_A], which pointed to [co_B], is
    null. *)
Lemma C7_enter_writes_the_queue_link :
  exists s',
    qemu_aio_coroutine_enter returns_at_once 1 0 co_A woken_pair = Aborted s' /\
    stderr s' = [reentered_msg] /\
    co_queue_next <$> heap woken_pair !! co_A = Some (Some co_B) /\
    co_queue_next <$> heap s' !! co_A = Some None /\
    heap s' <> heap woken_pair.
Proof.
  eexists. split; [vm_compute; reflexivity|].
  split; [reflexivity|]. split; [reflexivity|]. split; [reflexivity|].
  intros Heq. apply (f_equal (fun h => co_queue_next <$> h !! co_A)) in Heq.
  vm_compute in Heq. discriminate.
Qed.

(** Coroutines woken together are linked: when the body of [co_D] wakes
    [co_A] and [co_B] and yields, the pending queue is [co_A; co_B] and the
    link of [co_A] points to [co_B]. *)
Example woken_together_are_linked :
  exists s',
    enter_slice (waking_switch (fun _ => [co_A; co_B])) 0 leader co_D []
      four_coroutines = Done [co_A; co_B] s' /\
    co_queue_next <$> heap s' !! co_A = Some (Some co_B).
Proof. eexists. split; [vm_compute; reflexivity|]. reflexivity. Qed.

(** C7 (amended). Entering a coroutine whose [scheduled] is set, or whose
    [caller] is set, aborts the process with the diagnostic of the case.
    Until then one field of the coroutine has been written: its queue link
    [co_queue_next], which the push onto the pending queue sets to null;
    the other fields of the coroutine, the other coroutines and the pool
    are as before, and so is the whole coroutine if its link was null
    already.  The slice of a coroutine starts in a state in which its
    [caller] is set, so that entering it from inside the slice aborts in
    this way. *)
Theorem C7_enter_aborts_on_misuse (sw : Switch) (fuel : nat) (ctx : Z) (co : loc)
    (s : State) (c : Coroutine) :
  heap s !! co = Some c ->
  (scheduled c <> None \/ caller c <> None ->
   exists s',
     qemu_aio_coroutine_enter sw (S fuel) ctx co s = Aborted s' /\
     heap s' = <[co := set_co_queue_next None c]> (heap s) /\
     (co_queue_next c = None -> heap s' = heap s) /\
     pool s' = pool s /\ pool_total s' = pool_total s /\ pool_top s' = pool_top s /\
     current s' = current s /\
     stderr s' = stderr s ++ [match scheduled c with
                              | Some tag => already_scheduled_msg tag
                              | None => reentered_msg
                              end]) /\
  (scheduled c = None -> caller c = None ->
   let c0 := set_co_queue_next None c in
   let s1 := slice_start ctx (current s) co c0 (store co c0 s) in
   qemu_aio_coroutine_enter sw (S fuel) ctx co s
   = rbind (rbind (sw (current s) co COROUTINE_ENTER s1) (after_switch co []))
           (fun pending s' => run_pending sw fuel ctx (current s) pending s') /\
   forall (sw' : Switch) (fuel' : nat) (ctx' : Z) (inside : loc),
   exists s',
     qemu_aio_coroutine_enter sw' (S fuel') ctx' co (set_current inside s1)
       = Aborted s' /\
     heap s' = heap s1 /\
     stderr s' = stderr s1 ++ [reentered_msg]).
Proof.
  intros Hco.
  assert (Hco0 : forall s0, heap (store co (set_co_queue_next None c) s0) !! co
                            = Some (set_co_queue_next None c))
    by (intros s0; simpl; apply lookup_insert_eq).
  split.
  - intros Hbad. rewrite (enter_alone sw _ ctx co s c Hco).
    cbn [run_pending].
    rewrite (enter_slice_checks sw ctx _ co [] _ _ (Hco0 s)) by exact Hbad.
    cbn [rbind].
    eexists. split; [reflexivity|]. split; [reflexivity|].
    split; [|repeat split].
    intros Hnone. simpl. rewrite (set_co_queue_next_id c Hnone).
    apply insert_id. exact Hco.
  - intros Hs Hc c0 s1. split.
    + rewrite (enter_alone sw _ ctx co s c Hco). cbn [run_pending].
      rewrite (enter_slice_runs sw ctx _ co [] _ c0 (Hco0 s) Hs Hc).
      reflexivity.
    + intros sw' fuel' ctx' inside.
      assert (Hin : heap (set_current inside s1) !! co
                    = Some (set_ctx ctx (set_caller (Some (current s)) c0)))
        by (unfold s1, slice_start; simpl; apply lookup_insert_eq).
      rewrite (enter_alone sw' _ ctx' co _ _ Hin). cbn [run_pending].
      match goal with
      | |- context [enter_slice sw' ctx' ?f co [] ?s0] =>
          assert (Hin0 : heap s0 !! co
                         = Some (set_ctx ctx (set_caller (Some (current s)) c0)))
            by (simpl; apply lookup_insert_eq);
          rewrite (enter_slice_checks sw' ctx' f co [] s0 _ Hin0)
            by (right; simpl; discriminate)
      end.
      cbn [rbind]. simpl scheduled. rewrite Hs.
      eexists. split; [reflexivity|]. split; [|reflexivity].
      unfold s1, slice_start. simpl. apply insert_insert_eq.
Qed.

(** The scenario of C7: the body of [co_A] enters [co_A]. *)
Lemma C7_enter_aborts_on_misuse_witness :
  exists s',
    qemu_aio_coroutine_enter returns_at_once 1 0 co_A
      (set_current co_A (slice_start 0 leader co_A fresh_coroutine
                           (store co_A fresh_coroutine four_coroutines)))
    = Aborted s' /\
    heap s' = heap (slice_start 0 leader co_A fresh_coroutine
                      (store co_A fresh_coroutine four_coroutines)) /\
    stderr s' = [] ++ [reentered_msg].
Proof.
  exact (proj2 (proj2 (C7_enter_aborts_on_misuse returns_at_once 0 0 co_A
                         four_coroutines fresh_coroutine eq_refl)
                  eq_refl eq_refl)
           returns_at_once 0%nat 0 co_A).
Defined.

Example self_entering_aborts :
  exists s',
    qemu_aio_coroutine_enter self_entering_switch 1 0 co_A four_coroutines
      = Aborted s' /\
    stderr s' = [reentered_msg] /\
    entered_order (traced s') = [co_A; co_A].
Proof. eexists. split; [vm_compute; reflexivity|]. split; reflexivity. Qed.

(** C8. [qemu_coroutine_yield], run by the coroutine [self] that is
    current: with a null [caller] (as for a coroutine that was never
    entered) the process is aborted, no coroutine having been written to;
    otherwise [caller] is cleared first and then control is switched to the
    former caller with [COROUTINE_YIELD], from a state in which [self] counts
    as not entered. *)
Theorem C8_yield_clears_caller (sw : Switch) (s : State) (c : Coroutine) :
  heap s !! current s = Some c ->
  (caller c = None ->
   exists s',
     qemu_coroutine_yield sw s = Aborted s' /\
     heap s' = heap s /\
     stderr s' = stderr s ++ [yield_to_no_one_msg]) /\
  (forall to, caller c = Some to ->
     let s1 := store (current s) (set_caller None c)
                     (trace (TraceYield (current s) (Some to)) s) in
     qemu_coroutine_yield sw s
       = rbind (sw (current s) to COROUTINE_YIELD s1) (fun _ s' => Done tt s') /\
     heap s1 !! current s = Some (set_caller None c) /\
     caller (set_caller None c) = None /\
     qemu_coroutine_entered (current s) s1 = Done false s1 /\
     (forall co, co <> current s -> heap s1 !! co = heap s !! co)).
Proof.
  intros Hself. split.
  - intros Hnone. unfold qemu_coroutine_yield, qemu_coroutine_self.
    rewrite Hself, Hnone. eexists. split; [reflexivity|]. split; reflexivity.
  - intros to Hto s1.
    assert (Hin : heap s1 !! current s = Some (set_caller None c))
      by (unfold s1; simpl; apply lookup_insert_eq).
    split; [|split; [exact Hin|split; [reflexivity|split]]].
    + unfold qemu_coroutine_yield, qemu_coroutine_self.
      rewrite Hself, Hto. reflexivity.
    + unfold qemu_coroutine_entered. rewrite Hin. reflexivity.
    + intros co Hne. unfold s1. simpl. apply lookup_insert_ne. congruence.
Qed.

(** The leader of the thread has never been entered: its yield aborts. *)
Lemma C8_yield_clears_caller_witness :
  exists s',
    qemu_coroutine_yield switch_back initial_state = Aborted s' /\
    heap s' = heap initial_state /\
    stderr s' = [] ++ [yield_to_no_one_msg].
Proof.
  exact (proj1 (C8_yield_clears_caller switch_back initial_state fresh_coroutine
                  eq_refl) eq_refl).
Defined.

(** *** States up to the queue links *)

Lemma unlinked_fields c c' :
  unlinked c = unlinked c' ->
  entry c = entry c' /\ entry_arg c = entry_arg c' /\ caller c = caller c' /\
  ctx c = ctx c' /\ scheduled c = scheduled c' /\
  locks_held c = locks_held c' /\ co_queue_wakeup c = co_queue_wakeup c'.
Proof. destruct c, c'. intros [= -> -> -> -> -> -> ->]. repeat split. Qed.

Lemma unlinked_set_link v c : unlinked (set_co_queue_next v c) = unlinked c.
Proof. reflexivity. Qed.

Lemma unlinked_set_caller v c c' :
  unlinked c = unlinked c' -> unlinked (set_caller v c) = unlinked (set_caller v c').
Proof. destruct c, c'. intros [= -> -> -> -> -> -> ->]. reflexivity. Qed.

Lemma unlinked_set_co_queue_wakeup q c c' :
  unlinked c = unlinked c' ->
  unlinked (set_co_queue_wakeup q c) = unlinked (set_co_queue_wakeup q c').
Proof. destruct c, c'. intros [= -> -> -> -> -> -> ->]. reflexivity. Qed.

Lemma heap_like_refl h : heap_like h h.
Proof. intros x. reflexivity. Qed.

Lemma heap_like_sym h h' : heap_like h h' -> heap_like h' h.
Proof. intros Hh x. symmetry. apply Hh. Qed.

Lemma heap_like_trans h1 h2 h3 :
  heap_like h1 h2 -> heap_like h2 h3 -> heap_like h1 h3.
Proof. intros H12 H23 x. rewrite (H12 x). apply H23. Qed.

Lemma heap_like_insert h h' x c c' :
  heap_like h h' -> unlinked c = unlinked c' ->
  heap_like (<[x := c]> h) (<[x := c']> h').
Proof.
  intros Hh Hc y. destruct (decide (y = x)) as [->|Hne].
  - rewrite !lookup_insert_eq. simpl. congruence.
  - rewrite !lookup_insert_ne by congruence. apply Hh.
Qed.

Lemma heap_like_lookup h h' x c :
  heap_like h h' -> h !! x = Some c ->
  exists c', h' !! x = Some c' /\ unlinked c' = unlinked c.
Proof.
  intros Hh Hx. specialize (Hh x). rewrite Hx in Hh.
  destruct (h' !! x) as [c'|]; [|discriminate].
  exists c'. split; [reflexivity|]. simpl in Hh. congruence.
Qed.

Lemma heap_like_is_Some h h' x :
  heap_like h h' -> is_Some (h !! x) -> is_Some (h' !! x).
Proof.
  intros Hh [c Hx]. destruct (heap_like_lookup h h' x c Hh Hx) as (c' & -> & _).
  eauto.
Qed.

Lemma like_refl s : like s s.
Proof. split; [apply heap_like_refl|]. repeat split. Qed.

Lemma like_trans s1 s2 s3 : like s1 s2 -> like s2 s3 -> like s1 s3.
Proof.
  intros (Hh & H1 & H2 & H3 & H4 & H5 & H6) (Hh' & H1' & H2' & H3' & H4' & H5' & H6').
  split; [eapply heap_like_trans; eassumption|].
  repeat split; congruence.
Qed.

Lemma like_store s s' x c c' :
  like s s' -> unlinked c = unlinked c' -> like (store x c s) (store x c' s').
Proof.
  intros (Hh & Hrest) Hc. split; [|exact Hrest].
  simpl. apply heap_like_insert; assumption.
Qed.

Lemma like_trace e s s' : like s s' -> like (trace e s) (trace e s').
Proof.
  intros (Hh & H1 & H2 & H3 & H4 & H5 & H6).
  split; [exact Hh|]. simpl. repeat split; congruence.
Qed.

Lemma like_set_current x s s' :
  like s s' -> like (set_current x s) (set_current x s').
Proof.
  intros (Hh & H1 & H2 & H3 & H4 & H5 & H6).
  split; [exact Hh|]. simpl. repeat split; congruence.
Qed.

Lemma like_lookup s s' x c :
  like s s' -> heap s !! x = Some c ->
  exists c', heap s' !! x = Some c' /\ unlinked c' = unlinked c.
Proof. intros [Hh _]. apply heap_like_lookup. exact Hh. Qed.

Lemma like_is_Some s s' x :
  like s s' -> is_Some (heap s !! x) -> is_Some (heap s' !! x).
Proof. intros [Hh _]. apply heap_like_is_Some. exact Hh. Qed.

Lemma like_all_idle s s' : like s s' -> all_idle s -> all_idle s'.
Proof.
  intros Hl Hidle co c' Hco.
  assert (Hl' : like s' s).
  { destruct Hl as (Hh & H1 & H2 & H3 & H4 & H5 & H6).
    split; [intros x; symmetry; apply Hh|]. repeat split; congruence. }
  destruct (like_lookup s' s co c' Hl' Hco) as (c & Hc & Hu).
  destruct (unlinked_fields _ _ Hu) as (_ & _ & Hcaller & _ & Hsched & _ & Hq).
  destruct (Hidle co c Hc) as (H1 & H2 & H3).
  repeat split; congruence.
Qed.

(** A write to a queue link changes nothing else. *)
Lemma store_link_like x v c s :
  heap s !! x = Some c -> like s (store x (set_co_queue_next v c) s).
Proof.
  intros Hx. split; [|repeat split].
  intros y. simpl. destruct (decide (y = x)) as [->|Hne].
  - rewrite lookup_insert_eq, Hx. reflexivity.
  - rewrite lookup_insert_ne by congruence. reflexivity.
Qed.

Lemma set_link_spec x v s :
  is_Some (heap s !! x) ->
  exists s', set_link x v s = Done tt s' /\ like s s'.
Proof.
  intros [c Hx]. unfold set_link. rewrite Hx.
  eexists. split; [reflexivity|]. apply store_link_like. exact Hx.
Qed.

Lemma QSIMPLEQ_INSERT_TAIL_spec q elm s :
  is_Some (heap s !! elm) ->
  Forall (fun x => is_Some (heap s !! x)) q ->
  exists s', QSIMPLEQ_INSERT_TAIL q elm s = Done (q ++ [elm]) s' /\ like s s'.
Proof.
  intros Helm Hq. unfold QSIMPLEQ_INSERT_TAIL.
  destruct (set_link_spec elm None s Helm) as (s1 & -> & Hl1). cbn [rbind].
  destruct (last q) as [tail|] eqn:Hlast.
  - assert (Htail : is_Some (heap s1 !! tail)).
    { apply (like_is_Some s s1 _ Hl1).
      rewrite Forall_forall in Hq. apply Hq.
      apply last_Some in Hlast as [l' ->]. apply elem_of_app. right.
      apply list_elem_of_singleton. reflexivity. }
    destruct (set_link_spec tail (Some elm) s1 Htail) as (s2 & -> & Hl2).
    cbn [rbind]. exists s2. split; [reflexivity|].
    eapply like_trans; eassumption.
  - cbn [rbind]. exists s1. auto.
Qed.

Lemma QSIMPLEQ_PREPEND_spec rest q s :
  Forall (fun x => is_Some (heap s !! x)) q ->
  exists s', QSIMPLEQ_PREPEND rest q s = Done (q ++ rest, []) s' /\ like s s'.
Proof.
  intros Hq. unfold QSIMPLEQ_PREPEND.
  destruct (last q) as [tail|] eqn:Hlast.
  - assert (Htail : is_Some (heap s !! tail)).
    { rewrite Forall_forall in Hq. apply Hq.
      apply last_Some in Hlast as [l' ->]. apply elem_of_app. right.
      apply list_elem_of_singleton. reflexivity. }
    destruct (set_link_spec tail (head rest) s Htail) as (s1 & -> & Hl1).
    cbn [rbind]. exists s1. auto.
  - apply last_None in Hlast as ->. exists s. split; [reflexivity|].
    apply like_refl.
Qed.

Lemma set_co_queue_wakeup_id c : set_co_queue_wakeup (co_queue_wakeup c) c = c.
Proof. destruct c. reflexivity. Qed.

(** The wake-ups of a slice end up on the wake-up queue of the coroutine,
    after what was there, and nothing but queue links has changed
    besides. *)
Lemma queue_wakeups_spec self l :
  forall s c,
    heap s !! self = Some c ->
    Forall (fun x => is_Some (heap s !! x)) (co_queue_wakeup c) ->
    Forall (fun x => is_Some (heap s !! x)) l ->
    exists s',
      queue_wakeups self l s = Done tt s' /\
      like (store self (set_co_queue_wakeup (co_queue_wakeup c ++ l) c) s) s'.
Proof.
  induction l as [|co l IH]; intros s c Hself Hq Hl.
  - exists s. split; [reflexivity|].
    rewrite app_nil_r, set_co_queue_wakeup_id.
    split; [|repeat split]. simpl. rewrite insert_id by exact Hself.
    apply heap_like_refl.
  - apply Forall_cons in Hl as [Hco Hl].
    cbn [queue_wakeups]. unfold queue_wakeup. rewrite Hself.
    destruct (QSIMPLEQ_INSERT_TAIL_spec (co_queue_wakeup c) co s Hco Hq)
      as (s1 & -> & Hl1).
    cbn [rbind].
    destruct (like_lookup s s1 self c Hl1 Hself) as (c1 & Hself1 & Hu1).
    rewrite Hself1. cbn [rbind].
    set (c2 := set_co_queue_wakeup (co_queue_wakeup c ++ [co]) c1).
    set (s2 := store self c2 s1).
    assert (Hkeep : forall x, is_Some (heap s !! x) -> is_Some (heap s2 !! x)).
    { intros x Hx. apply (like_is_Some s s1 x Hl1) in Hx.
      unfold s2. simpl. destruct (decide (x = self)) as [->|Hne].
      - rewrite lookup_insert_eq. eauto.
      - rewrite lookup_insert_ne by congruence. exact Hx. }
    destruct (IH s2 c2) as (s' & Hrun & Hl').
    + unfold s2. simpl. apply lookup_insert_eq.
    + unfold c2. simpl. apply Forall_app. split.
      * eapply Forall_impl; [exact Hq|]. exact Hkeep.
      * repeat constructor. apply Hkeep, Hco.
    + eapply Forall_impl; [exact Hl|]. exact Hkeep.
    + exists s'. split; [exact Hrun|].
      eapply like_trans; [|exact Hl'].
      unfold c2 at 1. simpl co_queue_wakeup. rewrite <- app_assoc. simpl app.
      destruct Hl1 as (Hh & Hrest).
      split; [|exact Hrest]. unfold s2. simpl.
      rewrite insert_insert_eq. apply heap_like_insert; [exact Hh|].
      unfold c2.
      transitivity (unlinked (set_co_queue_wakeup (co_queue_wakeup c ++ co :: l) c1)).
      * apply unlinked_set_co_queue_wakeup. congruence.
      * reflexivity.
Qed.

(** *** Depth-first order of whole runs *)

Lemma four_coroutines_idle : all_idle four_coroutines.
Proof.
  intros co c Hco. unfold four_coroutines in Hco. cbn [heap] in Hco.
  apply elem_of_list_to_map_2 in Hco.
  repeat (apply elem_of_cons in Hco as [Heq|Hco];
          [inversion Heq; subst; repeat split|]).
  inversion Hco.
Qed.

(** The slice of an idle coroutine whose body wakes and yields: the
    coroutines woken go in front of the pending queue, and the state is the
    one before, with the context passed and the two calls traced, up to
    queue links. *)
Lemma waking_slice (wakes : loc -> list loc) ctx from to rest s c :
  heap s !! to = Some c ->
  caller c = None -> scheduled c = None -> co_queue_wakeup c = [] ->
  Forall (fun x => is_Some (heap s !! x)) (wakes to) ->
  exists s3,
    enter_slice (waking_switch wakes) ctx from to rest s
      = Done (wakes to ++ rest) s3 /\
    like (store to (set_ctx ctx c)
            (trace (TraceYield to (Some from))
               (trace (TraceEnter ctx from to (entry_arg c))
                  (set_current from s)))) s3.
Proof.
  intros Hto Hcaller Hsched Hwake Hwoken.
  rewrite (enter_slice_runs _ ctx from to rest s c Hto Hsched Hcaller).
  set (c1 := set_ctx ctx (set_caller (Some from) c)).
  set (s1 := slice_start ctx from to c s).
  assert (Hkeep1 : forall x, is_Some (heap s !! x) ->
                     is_Some (heap (set_current to s1) !! x)).
  { intros x Hx. unfold s1, slice_start. simpl.
    destruct (decide (x = to)) as [->|Hne].
    - rewrite lookup_insert_eq. eauto.
    - rewrite lookup_insert_ne by congruence. exact Hx. }
  (* the body queues its wake-ups *)
  unfold waking_switch.
  destruct (queue_wakeups_spec to (wakes to) (set_current to s1) c1)
    as (s2 & Hrun2 & Hl2).
  { unfold s1, slice_start. simpl. apply lookup_insert_eq. }
  { unfold c1. simpl. rewrite Hwake. constructor. }
  { eapply Forall_impl; [exact Hwoken|]. exact Hkeep1. }
  rewrite Hrun2. cbn [rbind].
  replace (co_queue_wakeup c1 ++ wakes to) with (wakes to) in Hl2
    by (unfold c1; simpl; rewrite Hwake; reflexivity).
  set (t2 := store to (set_co_queue_wakeup (wakes to) c1) (set_current to s1)) in Hl2.
  (* and yields *)
  destruct (like_lookup t2 s2 to (set_co_queue_wakeup (wakes to) c1) Hl2)
    as (c2 & Hto2 & Hu2); [unfold t2; simpl; apply lookup_insert_eq|].
  destruct (unlinked_fields _ _ Hu2) as (_ & _ & Hcaller2 & _ & _ & _ & Hq2).
  simpl in Hcaller2, Hq2.
  assert (Hcur2 : current s2 = to) by (destruct Hl2 as (_ & _ & _ & _ & <- & _); reflexivity).
  unfold qemu_coroutine_yield, qemu_coroutine_self. rewrite Hcur2, Hto2, Hcaller2.
  unfold switch_back. cbn [rbind].
  set (s3 := set_current from
               (store to (set_caller None c2)
                  (trace (TraceYield to (Some from)) s2))).
  set (t3 := set_current from
               (store to (set_caller None (set_co_queue_wakeup (wakes to) c1))
                  (trace (TraceYield to (Some from)) t2))).
  assert (Hl3 : like t3 s3).
  { apply like_set_current, like_store; [apply like_trace; exact Hl2|].
    apply unlinked_set_caller. congruence. }
  (* the wake-ups go in front of the pending queue *)
  unfold after_switch.
  assert (Hto3 : heap s3 !! to = Some (set_caller None c2))
    by (unfold s3; simpl; apply lookup_insert_eq).
  rewrite Hto3. simpl co_queue_wakeup. rewrite Hq2.
  destruct (QSIMPLEQ_PREPEND_spec rest (wakes to) s3) as (s4 & -> & Hl4).
  { eapply Forall_impl; [exact Hwoken|]. intros x Hx.
    apply (like_is_Some t3 s3 x Hl3). unfold t3, t2. simpl.
    destruct (decide (x = to)) as [->|Hne].
    - rewrite lookup_insert_eq. eauto.
    - unfold s1, slice_start. simpl.
      rewrite !lookup_insert_ne by congruence. exact Hx. }
  cbn [rbind].
  destruct (like_lookup s3 s4 to _ Hl4 Hto3) as (c4 & Hto4 & Hu4).
  rewrite Hto4.
  eexists. split; [reflexivity|].
  eapply like_trans;
    [|apply (like_store t3 s4 to
               (set_co_queue_wakeup []
                  (set_caller None (set_co_queue_wakeup (wakes to) c1)))
               (set_co_queue_wakeup [] c4));
      [eapply like_trans; eassumption|]].
  - split; [|unfold t3, t2, s1, slice_start; simpl; repeat split].
    unfold t3, t2, s1, slice_start, c1. simpl.
    rewrite !insert_insert_eq. apply heap_like_insert; [apply heap_like_refl|].
    destruct c. simpl in *. subst. reflexivity.
  - apply unlinked_set_co_queue_wakeup. rewrite Hu4.
    apply unlinked_set_caller. symmetry. exact Hu2.
Qed.

(** What [waking_slice] leaves of a state in which all coroutines were
    idle. *)
Lemma waking_slice_idle (wakes : loc -> list loc) ctx from to rest s c :
  all_idle s ->
  heap s !! to = Some c ->
  Forall (fun x => is_Some (heap s !! x)) (wakes to) ->
  exists s3,
    enter_slice (waking_switch wakes) ctx from to rest s
      = Done (wakes to ++ rest) s3 /\
    all_idle s3 /\
    (forall x, is_Some (heap s !! x) -> is_Some (heap s3 !! x)) /\
    entered_order (traced s3) = entered_order (traced s) ++ [to].
Proof.
  intros Hidle Hto Hwoken.
  destruct (Hidle to c Hto) as (Hcaller & Hsched & Hwake).
  destruct (waking_slice wakes ctx from to rest s c Hto Hcaller Hsched Hwake
              Hwoken) as (s3 & Hslice & Hl).
  exists s3. split; [exact Hslice|].
  split; [|split].
  - apply (like_all_idle _ _ Hl).
    intros co c' Hco. simpl in Hco.
    destruct (decide (co = to)) as [->|Hne].
    + rewrite lookup_insert_eq in Hco. inversion Hco; subst. auto.
    + rewrite lookup_insert_ne in Hco by congruence. eauto.
  - intros x Hx. apply (like_is_Some _ _ x Hl). simpl.
    destruct (decide (x = to)) as [->|Hne].
    + rewrite lookup_insert_eq. eauto.
    + rewrite lookup_insert_ne by congruence. exact Hx.
  - destruct Hl as (_ & _ & _ & _ & _ & _ & <-). simpl.
    unfold entered_order. rewrite !omap_app. simpl.
    rewrite app_nil_r. reflexivity.
Qed.


(** *** The forest of wake-ups *)

Lemma roots_preorder f x : x ∈ roots f -> x ∈ preorder f.
Proof.
  induction f as [|co woke _ next IH]; simpl; [auto|].
  rewrite !elem_of_cons, elem_of_app. intros [->|Hx]; auto.
Qed.

(** The loop runs a forest at the head of the pending queue to its end
    before it turns to the rest of the queue. *)
Lemma run_pending_forest (wakes : loc -> list loc) ctx from f :
  forall rest s,
    all_idle s ->
    follows wakes f ->
    Forall (fun x => is_Some (heap s !! x)) (preorder f) ->
    exists s1,
      all_idle s1 /\
      (forall x, is_Some (heap s !! x) -> is_Some (heap s1 !! x)) /\
      entered_order (traced s1) = entered_order (traced s) ++ preorder f /\
      forall k,
        run_pending (waking_switch wakes) (forest_size f + k) ctx from
          (roots f ++ rest) s
        = run_pending (waking_switch wakes) k ctx from rest s1.
Proof.
  induction f as [|co woke IHw next IHn]; intros rest s Hidle Hf Hin.
  - exists s. split; [exact Hidle|]. split; [auto|].
    split; [simpl; rewrite app_nil_r; reflexivity|]. reflexivity.
  - destruct Hf as (Hwoke & Hfw & Hfn).
    cbn [preorder] in Hin. apply Forall_cons in Hin as [[c Hco] Hin].
    apply Forall_app in Hin as [Hinw Hinn].
    destruct (waking_slice_idle wakes ctx from co (roots next ++ rest) s c
                Hidle Hco) as (s3 & Hslice & Hidle3 & Hkeep3 & Htr3).
    { rewrite Hwoke. apply Forall_forall. intros x Hx.
      rewrite Forall_forall in Hinw. apply Hinw, roots_preorder, Hx. }
    destruct (IHw (roots next ++ rest) s3 Hidle3 Hfw) as
      (s4 & Hidle4 & Hkeep4 & Htr4 & Hrun4).
    { eapply Forall_impl; [exact Hinw|]. exact Hkeep3. }
    destruct (IHn rest s4 Hidle4 Hfn) as (s5 & Hidle5 & Hkeep5 & Htr5 & Hrun5).
    { eapply Forall_impl; [exact Hinn|]. intros x Hx. apply Hkeep4, Hkeep3, Hx. }
    exists s5. split; [exact Hidle5|].
    split; [intros x Hx; apply Hkeep5, Hkeep4, Hkeep3, Hx|].
    split.
    + rewrite Htr5, Htr4, Htr3. cbn [preorder].
      rewrite <- !app_assoc. reflexivity.
    + intros k. cbn [forest_size roots app].
      change (S (forest_size woke + forest_size next) + k)%nat
        with (S (forest_size woke + forest_size next + k)).
      cbn [run_pending]. rewrite Hslice. cbn [rbind].
      rewrite Hwoke.
      replace (forest_size woke + forest_size next + k)%nat
        with (forest_size woke + (forest_size next + k))%nat by lia.
      rewrite Hrun4. apply Hrun5.
Qed.

(** Whatever the slice does: a turn of the loop that returns, by yield or
    by termination, leaves as pending queue the wake-up queue of the
    coroutine that ran followed by what was pending. *)
Lemma enter_slice_prepends (sw : Switch) ctx from A rest s c pending' s' :
  heap s !! A = Some c ->
  scheduled c = None -> caller c = None ->
  enter_slice sw ctx from A rest s = Done pending' s' ->
  exists ret s2 c2,
    sw from A COROUTINE_ENTER (slice_start ctx from A c s) = Done ret s2 /\
    heap s2 !! A = Some c2 /\
    (ret = COROUTINE_YIELD \/ ret = COROUTINE_TERMINATE) /\
    pending' = co_queue_wakeup c2 ++ rest.
Proof.
  intros HA Hs Hc.
  rewrite (enter_slice_runs sw ctx from A rest s c HA Hs Hc).
  destruct (sw from A COROUTINE_ENTER (slice_start ctx from A c s))
    as [ret s2| | |]; cbn [rbind]; try discriminate.
  unfold after_switch.
  destruct (heap s2 !! A) as [c2|] eqn:HA2; [|discriminate].
  assert (Hprep : forall q s3,
            QSIMPLEQ_PREPEND rest (co_queue_wakeup c2) s2 = Done q s3 ->
            q = (co_queue_wakeup c2 ++ rest, [])).
  { unfold QSIMPLEQ_PREPEND, set_link.
    destruct (last (co_queue_wakeup c2)) as [tail|] eqn:Hlast.
    - destruct (heap s2 !! tail); cbn [rbind]; [|discriminate].
      intros q s3 [= <- _]. reflexivity.
    - apply last_None in Hlast. rewrite Hlast.
      intros q s3 [= <- _]. reflexivity. }
  destruct (QSIMPLEQ_PREPEND rest (co_queue_wakeup c2) s2)
    as [q s3| | |] eqn:Hp; cbn [rbind]; try discriminate.
  rewrite (Hprep q s3 eq_refl).
  destruct (heap s3 !! A) as [c3|]; [|discriminate].
  destruct ret.
  - intros [= <- _]. exists COROUTINE_YIELD, s2, c2. auto.
  - destruct (negb (locks_held c3 =? 0)); [discriminate|].
    destruct (coroutine_delete A _) as [[] s4| | |]; cbn [rbind];
      try discriminate.
    intros [= <- _]. exists COROUTINE_TERMINATE, s2, c2. auto.
  - discriminate.
Qed.

(** C2. Within one call of [qemu_aio_coroutine_enter] the coroutines run
    depth-first.  Whatever a slice does, when it has ended, by yield or by
    termination, the wake-up queue of its coroutine goes, in its order, in
    front of the pending queue.  So a coroutine is followed by everything
    its slice has set going before the coroutines queued after it get
    their turn: for idle coroutines whose bodies queue their wake-ups and
    yield, no coroutine being woken twice, the loop with the roots of a
    forest of wake-ups as its pending queue returns having entered the
    coroutines in the depth-first order of the forest, and a call that
    enters [co] returns having entered [co] and then the forest of its
    wake-ups in that order. *)
Theorem C2_wakeups_run_depth_first (ctx : Z) :
  (* a turn of the loop *)
  (forall (sw : Switch) (from A : loc) (rest : list loc) (s : State)
          (c : Coroutine) (pending' : list loc) (s' : State),
     heap s !! A = Some c ->
     scheduled c = None -> caller c = None ->
     enter_slice sw ctx from A rest s = Done pending' s' ->
     exists ret s2 c2,
       sw from A COROUTINE_ENTER (slice_start ctx from A c s) = Done ret s2 /\
       heap s2 !! A = Some c2 /\
       (ret = COROUTINE_YIELD \/ ret = COROUTINE_TERMINATE) /\
       pending' = co_queue_wakeup c2 ++ rest) /\
  (* the loop, for a pending queue *)
  (forall (wakes : loc -> list loc) (f : wake_forest) (s : State) (from : loc),
     all_idle s ->
     follows wakes f ->
     NoDup (preorder f) ->
     Forall (fun x => is_Some (heap s !! x)) (preorder f) ->
     exists s',
       run_pending (waking_switch wakes) (forest_size f) ctx from (roots f) s
         = Done tt s' /\
       entered_order (traced s') = entered_order (traced s) ++ preorder f /\
       all_idle s') /\
  (* one call *)
  (forall (wakes : loc -> list loc) (co : loc) (woke : wake_forest) (s : State),
     all_idle s ->
     follows wakes (woken co woke nobody) ->
     NoDup (co :: preorder woke) ->
     Forall (fun x => is_Some (heap s !! x)) (co :: preorder woke) ->
     exists s',
       qemu_aio_coroutine_enter (waking_switch wakes) (S (forest_size woke))
         ctx co s = Done tt s' /\
       entered_order (traced s')
         = entered_order (traced s) ++ co :: preorder woke /\
       all_idle s').
Proof.
  assert (Hloop : forall wakes f s from s0,
            all_idle s -> follows wakes f ->
            Forall (fun x => is_Some (heap s !! x)) (preorder f) ->
            like s s0 ->
            exists s',
              run_pending (waking_switch wakes) (forest_size f) ctx from
                (roots f) s0 = Done tt s' /\
              entered_order (traced s')
                = entered_order (traced s) ++ preorder f /\
              all_idle s').
  { intros wakes f s from s0 Hidle Hf Hin Hl.
    destruct (run_pending_forest wakes ctx from f [] s0)
      as (s1 & Hidle1 & _ & Htr1 & Hrun1).
    - exact (like_all_idle _ _ Hl Hidle).
    - exact Hf.
    - eapply Forall_impl; [exact Hin|]. intros x. apply like_is_Some, Hl.
    - exists s1. specialize (Hrun1 0%nat).
      rewrite Nat.add_0_r, app_nil_r in Hrun1.
      split; [exact Hrun1|]. split; [|exact Hidle1].
      rewrite Htr1. destruct Hl as (_ & _ & _ & _ & _ & _ & ->). reflexivity. }
  split; [|split].
  - intros sw from A rest s c pending' s'. apply enter_slice_prepends.
  - intros wakes f s from Hidle Hf _ Hin.
    apply (Hloop wakes f s from s Hidle Hf Hin), like_refl.
  - intros wakes co woke s Hidle Hf _ Hin.
    pose proof Hin as Hin'. apply Forall_cons in Hin' as [[c Hco] _].
    rewrite (enter_alone _ _ ctx co s c Hco).
    destruct (Hloop wakes (woken co woke nobody) s (current s)
                (store co (set_co_queue_next None c) s) Hidle Hf)
      as (s' & Hrun & Horder & Hidle').
    { cbn [preorder]. rewrite app_nil_r. exact Hin. }
    { apply store_link_like. exact Hco. }
    cbn [forest_size preorder] in Hrun, Horder.
    rewrite Nat.add_0_r in Hrun. rewrite app_nil_r in Horder.
    exists s'. split; [exact Hrun|]. split; [exact Horder|exact Hidle'].
Qed.

(** The claim's two examples.  With [co_D] pending, [co_A] queues [co_B]
    and [co_C] and yields: the order is A, B, C, D.  And one call that
    enters [co_A], where [co_A] wakes [co_B] and [co_C] and [co_B] wakes
    [co_D]: the order is A, B, D, C. *)
Lemma C2_wakeups_run_depth_first_witness :
  (exists s',
     run_pending (waking_switch pair_wakes) 4 0 leader [co_A; co_D]
       four_coroutines = Done tt s' /\
     entered_order (traced s') = [] ++ [co_A; co_B; co_C; co_D] /\
     all_idle s') /\
  (exists s',
     qemu_aio_coroutine_enter (waking_switch scenario_wakes) 4 0 co_A
       four_coroutines = Done tt s' /\
     entered_order (traced s') = [] ++ co_A :: [co_B; co_D; co_C] /\
     all_idle s').
Proof.
  assert (Hnodup : forall l : list loc,
            l = [co_A; co_B; co_C; co_D] \/ l = [co_A; co_B; co_D; co_C] ->
            NoDup l).
  { intros l [-> | ->]; repeat constructor;
      rewrite ?elem_of_cons, ?elem_of_nil; unfold co_A, co_B, co_C, co_D;
      intuition discriminate. }
  assert (Hheap : forall l : list loc,
            l = [co_A; co_B; co_C; co_D] \/ l = [co_A; co_B; co_D; co_C] ->
            Forall (fun x => is_Some (heap four_coroutines !! x)) l).
  { intros l [-> | ->]; repeat constructor; vm_compute; eauto. }
  split.
  - apply (proj1 (proj2 (C2_wakeups_run_depth_first 0)) pair_wakes
             pending_forest four_coroutines leader four_coroutines_idle
             ltac:(vm_compute; tauto)
             (Hnodup _ (or_introl eq_refl))
             (Hheap _ (or_introl eq_refl))).
  - apply (proj2 (proj2 (C2_wakeups_run_depth_first 0)) scenario_wakes co_A
             (woken co_B (woken co_D nobody nobody)
                         (woken co_C nobody nobody))
             four_coroutines four_coroutines_idle
             ltac:(vm_compute; tauto)
             (Hnodup _ (or_intror eq_refl))
             (Hheap _ (or_intror eq_refl))).
Defined.

(** The depth-first scenario: [co_A] wakes [co_B] and [co_C], [co_B] wakes
    [co_D]; one call that enters [co_A] runs them in the order A, B, D, C. *)
Example depth_first_scenario :
  exists s',
    qemu_aio_coroutine_enter (waking_switch scenario_wakes) 4 0 co_A four_coroutines
      = Done tt s' /\
    entered_order (traced s') = [co_A; co_B; co_D; co_C].
Proof. eexists. split; [vm_compute; reflexivity|]. reflexivity. Qed.

(** *** Allocation without termination *)

Lemma create_fresh e a s :
  pool_top s = 0 ->
  let co := fresh (dom (heap s)) in
  qemu_coroutine_create e a s
  = Done co (store co (set_co_queue_wakeup [] (set_entry e a fresh_coroutine))
               (set_pool_total (to_uint8 (pool_total s + 1))
                  (store co fresh_coroutine s))).
Proof.
  intros Htop co. unfold qemu_coroutine_create, qemu_coroutine_new.
  rewrite Htop. simpl. fold co. rewrite lookup_insert_eq. reflexivity.
Qed.

(** X11. Created and never terminated, coroutines are all newly allocated
    and distinct, while the counter of the pool is a byte that wraps:
    after [n] creations from a state with an empty free list there are [n]
    more objects, and [total] has advanced by [n] modulo 256. *)
Theorem X11_total_wraps_at_256 (n : nat) (s : State) :
  pool_top s = 0 ->
  0 <= pool_total s < 256 ->
  exists l s',
    create_many n s = Done l s' /\
    length l = n /\ NoDup l /\
    (forall co, co ∈ l -> heap s !! co = None) /\
    dom (heap s') = dom (heap s) ∪ list_to_set l /\
    pool_total s' = to_uint8 (pool_total s + Z.of_nat n) /\
    pool_top s' = 0.
Proof.
  revert s. induction n as [|n IH]; intros s Htop Htotal.
  - exists [], s. simpl. split; [reflexivity|]. split; [reflexivity|].
    split; [constructor|]. split; [intros co Hin; inversion Hin|].
    split; [simpl; rewrite union_empty_r_L; reflexivity|]. split; [|assumption].
    rewrite Z.add_0_r. symmetry. apply to_uint8_small. assumption.
  - set (co := fresh (dom (heap s))).
    pose proof (create_fresh 0 0 s Htop) as Hcreate. fold co in Hcreate.
    cbv zeta in Hcreate.
    match type of Hcreate with _ = Done _ ?x => set (s1 := x) in * end.
    assert (Hfresh : heap s !! co = None)
      by (apply not_elem_of_dom; apply is_fresh).
    assert (Hdom1 : dom (heap s1) = {[co]} ∪ dom (heap s)).
    { unfold s1. simpl.
      rewrite !dom_insert_L, union_assoc_L, union_idemp_L. reflexivity. }
    assert (Htotal1 : pool_total s1 = to_uint8 (pool_total s + 1)) by reflexivity.
    destruct (IH s1) as (l & s' & Hrun & Hlen & Hnodup & Hnew & Hdom & Htot & Htop').
    { exact Htop. }
    { rewrite Htotal1. unfold to_uint8. apply Z.mod_pos_bound. lia. }
    exists (co :: l), s'.
    split; [cbn [create_many]; rewrite Hcreate; cbn [rbind]; rewrite Hrun;
            reflexivity|].
    split; [simpl; lia|].
    assert (Hco1 : is_Some (heap s1 !! co))
      by (apply elem_of_dom; rewrite Hdom1;
          apply elem_of_union_l, elem_of_singleton; reflexivity).
    split.
    { constructor; [|assumption]. intros Hin. apply Hnew in Hin.
      rewrite Hin in Hco1. destruct Hco1; discriminate. }
    split.
    { intros co' Hin. apply elem_of_cons in Hin as [->|Hin]; [assumption|].
      apply Hnew in Hin. apply not_elem_of_dom in Hin.
      apply not_elem_of_dom. rewrite Hdom1 in Hin.
      intros Hx. apply Hin, elem_of_union_r, Hx. }
    split.
    { rewrite Hdom, Hdom1. simpl. apply set_eq. intros x.
      rewrite !elem_of_union. tauto. }
    split; [|assumption].
    rewrite Htot, Htotal1. unfold to_uint8.
    rewrite Zplus_mod_idemp_l. f_equal. lia.
Qed.

Lemma X11_total_wraps_at_256_witness :
  exists l s',
    create_many 256 initial_state = Done l s' /\
    length l = 256%nat /\ NoDup l /\
    (forall co, co ∈ l -> heap initial_state !! co = None) /\
    dom (heap s') = dom (heap initial_state) ∪ list_to_set l /\
    pool_total s' = to_uint8 (pool_total initial_state + Z.of_nat 256) /\
    pool_top s' = 0.
Proof.
  apply (X11_total_wraps_at_256 256 initial_state).
  - reflexivity.
  - simpl. lia.
Defined.

(** *** The counters of the pool *)

Lemma initial_state_counted : pool_counted initial_state.
Proof. unfold pool_counted, COROUTINE_POOL_SIZE. simpl. repeat split; lia. Qed.

Lemma create_keeps_counted e a s co s' :
  pool_counted s ->
  qemu_coroutine_create e a s = Done co s' ->
  pool_counted s'.
Proof.
  unfold pool_counted, COROUTINE_POOL_SIZE.
  intros (Htop & Hlast & Htotal & Hlen).
  unfold qemu_coroutine_create.
  destruct (Z.ltb_spec 0 (pool_top s)) as [Hpos|Hzero].
  - rewrite to_uint8_small by lia. simpl.
    destruct (pool_top s - 1 <? COROUTINE_POOL_SIZE); [|discriminate].
    destruct (pool s !! Z.to_nat (pool_top s - 1)) as [[co0|]|];
      simpl; try discriminate.
    destruct (heap s !! co0); [|discriminate].
    intros Hd. inversion Hd; subst. simpl. repeat split; lia.
  - unfold qemu_coroutine_new. simpl. rewrite lookup_insert_eq.
    intros Hd. inversion Hd; subst. simpl.
    pose proof (Z.mod_pos_bound (pool_total s + 1) 256 ltac:(lia)) as Hmod.
    unfold to_uint8. repeat split; lia.
Qed.

Lemma delete_live_counted co c s :
  pool_counted s ->
  pool_top s < pool_total s ->
  heap s !! co = Some c ->
  exists s',
    coroutine_delete co s = Done tt s' /\
    pool_counted s' /\
    (pool_total s < COROUTINE_POOL_SIZE ->
     pool_top s' = pool_top s + 1 /\ pool_total s' = pool_total s /\
     pool s' !! Z.to_nat (pool_top s) = Some (Some co) /\
     heap s' !! co = Some (set_caller None c)) /\
    (COROUTINE_POOL_SIZE <= pool_total s ->
     pool_top s' = pool_top s /\ pool_total s' = pool_total s - 1 /\
     pool s' = pool s /\ heap s' !! co = None).
Proof.
  unfold pool_counted, COROUTINE_POOL_SIZE.
  intros (Htop & Hlast & Htotal & Hlen) Hlive Hco.
  unfold coroutine_delete, coroutine_delete_claim, coroutine_delete_store.
  rewrite Hco. simpl.
  destruct (Z.geb_spec (pool_total s) COROUTINE_POOL_SIZE) as [Hfull|Hroom];
    unfold COROUTINE_POOL_SIZE in *; cbn [rbind]; simpl.
  - eexists. split; [reflexivity|]. simpl.
    rewrite to_uint8_small by lia.
    split; [repeat split; lia|]. split; [intros; lia|]. intros _.
    repeat split. unfold qemu_coroutine_delete. simpl. apply lookup_delete_eq.
  - destruct (Z.ltb_spec (pool_top s) 16) as [_|Hge]; [|lia].
    destruct (lookup_lt_is_Some_2 (pool s) (Z.to_nat (pool_top s)))
      as [old Hold]; [lia|].
    rewrite Hold. eexists. split; [reflexivity|]. simpl.
    rewrite to_uint8_small by lia. rewrite length_insert.
    split; [repeat split; lia|]. split; [|intros; lia]. intros _.
    split; [reflexivity|]. split; [reflexivity|].
    split; [apply list_lookup_insert_eq; lia|apply lookup_insert_eq].
Qed.

(** The byte [total] after its wrap: with [total = 255] and an empty
    free list, one more [qemu_coroutine_create] gives [total = 0], and the
    [coroutine_delete] of the coroutine just created leaves [top = 1] above
    [total = 0]. *)
Lemma delete_after_wrap e a s :
  pool_counted s -> pool_total s = 255 -> pool_top s = 0 ->
  exists co s1 s2,
    qemu_coroutine_create e a s = Done co s1 /\
    pool_counted s1 /\ pool_total s1 = 0 /\ pool_top s1 = 0 /\
    coroutine_delete co s1 = Done tt s2 /\
    pool_total s2 = 0 /\ pool_top s2 = 1 /\ ~ pool_counted s2.
Proof.
  intros (Htop & Hlast & Htotal & Hlen) H255 H0.
  rewrite (create_fresh e a s H0). rewrite H255.
  change (to_uint8 (255 + 1)) with 0.
  destruct (lookup_lt_is_Some_2 (pool s) 0) as [old Hold]; [lia|].
  eexists _, _, _. split; [reflexivity|].
  split; [unfold pool_counted, COROUTINE_POOL_SIZE; simpl; rewrite H0;
          repeat split; lia|].
  split; [reflexivity|]. split; [exact H0|].
  unfold coroutine_delete, coroutine_delete_claim, coroutine_delete_store.
  simpl. rewrite lookup_insert_eq. simpl. rewrite H0. simpl.
  change (Z.to_nat 0) with 0%nat. rewrite Hold.
  split; [reflexivity|]. simpl.
  split; [reflexivity|]. split; [reflexivity|].
  intros ((_ & Hle) & _). simpl in Hle. change (to_uint8 (0 + 1)) with 1 in Hle.
  lia.
Qed.

(** X12. The counters of the pool, as far as they add up.  [pool_counted]
    ([0 <= top <= total < 256], [top <= 15], 16 slots) holds at the start
    and is kept by every [qemu_coroutine_create].  A [coroutine_delete]
    keeps it under the hypothesis [top < total], which says that by the
    counters there is a coroutine outside the free list: the call then
    returns; with [total] below 16 the coroutine goes to the slot at [top]
    and [top] grows by one, with [total] at 16 or above the object is freed
    and [total] drops by one.  The hypothesis cannot be dropped: [total] is
    a byte, so with [total = 255] and an empty free list one more
    [qemu_coroutine_create] wraps it to 0, and the [coroutine_delete] of
    the coroutine just created leaves [top = 1] above [total = 0]. *)
Theorem X12_pool_counters_add_up :
  pool_counted initial_state /\
  (forall e a s co s',
     pool_counted s ->
     qemu_coroutine_create e a s = Done co s' ->
     pool_counted s') /\
  (forall co c s,
     pool_counted s ->
     pool_top s < pool_total s ->
     heap s !! co = Some c ->
     exists s',
       coroutine_delete co s = Done tt s' /\
       pool_counted s' /\
       (pool_total s < COROUTINE_POOL_SIZE ->
        pool_top s' = pool_top s + 1 /\ pool_total s' = pool_total s /\
        pool s' !! Z.to_nat (pool_top s) = Some (Some co) /\
        heap s' !! co = Some (set_caller None c)) /\
       (COROUTINE_POOL_SIZE <= pool_total s ->
        pool_top s' = pool_top s /\ pool_total s' = pool_total s - 1 /\
        pool s' = pool s /\ heap s' !! co = None)) /\
  (forall e a s,
     pool_counted s -> pool_total s = 255 -> pool_top s = 0 ->
     exists co s1 s2,
       qemu_coroutine_create e a s = Done co s1 /\
       pool_counted s1 /\ pool_total s1 = 0 /\ pool_top s1 = 0 /\
       coroutine_delete co s1 = Done tt s2 /\
       pool_total s2 = 0 /\ pool_top s2 = 1 /\ ~ pool_counted s2).
Proof.
  split; [exact initial_state_counted|]. split; [|split].
  - intros e a s co s'. apply create_keeps_counted.
  - intros co c s. apply delete_live_counted.
  - exact delete_after_wrap.
Qed.

Lemma four_coroutines_counted : pool_counted four_coroutines.
Proof. unfold pool_counted, COROUTINE_POOL_SIZE. simpl. repeat split; lia. Qed.

Lemma crowded_counted :
  pool_counted crowded /\ pool_total crowded = 255 /\ pool_top crowded = 0.
Proof.
  assert (H : pool_total crowded = 255 /\ pool_top crowded = 0 /\
              length (pool crowded) = 16%nat)
    by (vm_compute; auto).
  destruct H as (H1 & H2 & H3).
  unfold pool_counted, COROUTINE_POOL_SIZE. rewrite H1, H2, H3.
  repeat split; lia.
Qed.

(** With four coroutines in existence [co_A] is pooled in slot 0; and
    after 255 coroutines have been created, the next one that is created
    and deleted leaves [top] above [total]. *)
Lemma X12_pool_counters_add_up_witness :
  (exists s',
     coroutine_delete co_A four_coroutines = Done tt s' /\
     pool_counted s' /\
     (pool_total four_coroutines < COROUTINE_POOL_SIZE ->
      pool_top s' = pool_top four_coroutines + 1 /\
      pool_total s' = pool_total four_coroutines /\
      pool s' !! Z.to_nat (pool_top four_coroutines) = Some (Some co_A) /\
      heap s' !! co_A = Some (set_caller None fresh_coroutine)) /\
     (COROUTINE_POOL_SIZE <= pool_total four_coroutines ->
      pool_top s' = pool_top four_coroutines /\
      pool_total s' = pool_total four_coroutines - 1 /\
      pool s' = pool four_coroutines /\ heap s' !! co_A = None)) /\
  (exists co s1 s2,
     qemu_coroutine_create 0 0 crowded = Done co s1 /\
     pool_counted s1 /\ pool_total s1 = 0 /\ pool_top s1 = 0 /\
     coroutine_delete co s1 = Done tt s2 /\
     pool_total s2 = 0 /\ pool_top s2 = 1 /\ ~ pool_counted s2).
Proof.
  split.
  - apply (proj1 (proj2 (proj2 X12_pool_counters_add_up)) co_A fresh_coroutine
             four_coroutines).
    + unfold pool_counted, COROUTINE_POOL_SIZE. simpl. repeat split; lia.
    + simpl. lia.
    + reflexivity.
  - apply (proj2 (proj2 (proj2 X12_pool_counters_add_up)) 0 0 crowded).
    + exact (proj1 crowded_counted).
    + exact (proj1 (proj2 crowded_counted)).
    + exact (proj2 (proj2 crowded_counted)).
Defined.

(** X13. The free list is a stack, and a shell taken from it keeps what
    [create] does not write.  After [coroutine_delete] has pooled a
    coroutine, the next [qemu_coroutine_create] returns that same coroutine
    and puts [top] and [total] back to what they were; [entry], [entry_arg]
    and the wake-up queue are set anew, [caller] is null, while [ctx],
    [scheduled] and [locks_held] are those of the terminated coroutine. *)
Theorem X13_create_returns_last_deleted (e a : Z) (co : loc) (c : Coroutine)
    (s : State) :
  pool_counted s ->
  pool_top s < pool_total s ->
  pool_total s < COROUTINE_POOL_SIZE ->
  heap s !! co = Some c ->
  exists s1 s2 c2,
    coroutine_delete co s = Done tt s1 /\
    qemu_coroutine_create e a s1 = Done co s2 /\
    pool_top s2 = pool_top s /\ pool_total s2 = pool_total s /\
    heap s2 = <[co := c2]> (heap s) /\
    entry c2 = e /\ entry_arg c2 = a /\
    caller c2 = None /\ co_queue_wakeup c2 = [] /\
    ctx c2 = ctx c /\ scheduled c2 = scheduled c /\ locks_held c2 = locks_held c.
Proof.
  intros Hcounted Hlive Hroom Hco.
  destruct (delete_live_counted co c s Hcounted Hlive Hco)
    as (s1 & Hdel & Hcounted1 & Hpooled & _).
  destruct (Hpooled Hroom) as (Htop1 & Htotal1 & Hslot1 & Hco1).
  destruct Hcounted as (Htop & Hlast & Htotal & Hlen).
  unfold COROUTINE_POOL_SIZE in *.
  assert (Hheap1 : heap s1 = <[co := set_caller None c]> (heap s)).
  { unfold coroutine_delete, coroutine_delete_claim, coroutine_delete_store
      in Hdel.
    rewrite Hco in Hdel. simpl in Hdel.
    destruct (Z.geb_spec (pool_total s) COROUTINE_POOL_SIZE) as [Hfull|_];
      [unfold COROUTINE_POOL_SIZE in Hfull; lia|].
    cbn [rbind] in Hdel. simpl in Hdel.
    destruct (pool_top s <? COROUTINE_POOL_SIZE); [|discriminate].
    destruct (pool s !! Z.to_nat (pool_top s)); [|discriminate].
    inversion Hdel. reflexivity. }
  exists s1. unfold qemu_coroutine_create.
  destruct (Z.ltb_spec 0 (pool_top s1)) as [_|Hzero]; [|lia].
  rewrite Htop1. replace (pool_top s + 1 - 1) with (pool_top s) by lia.
  rewrite to_uint8_small by lia. simpl.
  destruct (Z.ltb_spec (pool_top s) COROUTINE_POOL_SIZE) as [_|Hge];
    [|unfold COROUTINE_POOL_SIZE in Hge; lia].
  rewrite Hslot1. simpl. rewrite Hco1.
  eexists _, _. split; [exact Hdel|]. split; [reflexivity|]. simpl.
  split; [reflexivity|]. split; [exact Htotal1|].
  split; [rewrite Hheap1, insert_insert_eq; reflexivity|].
  repeat split.
Qed.

Lemma X13_create_returns_last_deleted_witness :
  exists s1 s2 c2,
    coroutine_delete co_A four_coroutines = Done tt s1 /\
    qemu_coroutine_create 7 9 s1 = Done co_A s2 /\
    pool_top s2 = pool_top four_coroutines /\
    pool_total s2 = pool_total four_coroutines /\
    heap s2 = <[co_A := c2]> (heap four_coroutines) /\
    entry c2 = 7 /\ entry_arg c2 = 9 /\
    caller c2 = None /\ co_queue_wakeup c2 = [] /\
    ctx c2 = ctx fresh_coroutine /\ scheduled c2 = scheduled fresh_coroutine /\
    locks_held c2 = locks_held fresh_coroutine.
Proof.
  apply (X13_create_returns_last_deleted 7 9 co_A fresh_coroutine four_coroutines).
  - unfold pool_counted, COROUTINE_POOL_SIZE. simpl. repeat split; lia.
  - simpl. lia.
  - unfold COROUTINE_POOL_SIZE. simpl. lia.
  - reflexivity.
Defined.

(** *** Slices that end badly, and entering with care *)

(** X14. A slice that ends with the action [COROUTINE_ENTER], or that
    terminates with locks held, aborts the process after the wake-up queue
    of the coroutine has been emptied: the coroutines it had queued are
    never entered, the coroutine is neither freed nor pooled, and the
    counters of the pool stay as the slice left them; the coroutines are as
    the slice left them up to queue links, but for the emptied queue.  In
    the first case nothing is written to stderr, in the second the
    diagnostic of the failed assertion is. *)
Theorem X14_bad_slice_end_aborts (sw : Switch) (fuel : nat) (ctx : Z)
    (co : loc) (s : State) (c : Coroutine) (ret : CoroutineAction)
    (s2 : State) (c2 : Coroutine) :
  heap s !! co = Some c ->
  scheduled c = None -> caller c = None ->
  let c0 := set_co_queue_next None c in
  sw (current s) co COROUTINE_ENTER
     (slice_start ctx (current s) co c0 (store co c0 s))
    = Done ret s2 ->
  heap s2 !! co = Some c2 ->
  Forall (fun x => is_Some (heap s2 !! x)) (co_queue_wakeup c2) ->
  ret = COROUTINE_ENTER \/ (ret = COROUTINE_TERMINATE /\ locks_held c2 <> 0) ->
  exists s',
    qemu_aio_coroutine_enter sw (S fuel) ctx co s = Aborted s' /\
    heap_like (heap s') (<[co := set_co_queue_wakeup [] c2]> (heap s2)) /\
    pool s' = pool s2 /\ pool_top s' = pool_top s2 /\
    pool_total s' = pool_total s2 /\
    stderr s' = stderr s2 ++ match ret with
                             | COROUTINE_TERMINATE => [locks_held_msg]
                             | _ => []
                             end /\
    entered_order (traced s') = entered_order (traced s2).
Proof.
  intros Hco Hs Hc c0 Hsw Hco2 Hq Hbad.
  rewrite (enter_alone sw _ ctx co s c Hco). cbn [run_pending].
  assert (Hco0 : heap (store co c0 s) !! co = Some c0)
    by (simpl; apply lookup_insert_eq).
  rewrite (enter_slice_runs sw ctx _ co [] _ c0 Hco0 Hs Hc), Hsw.
  cbn [rbind]. unfold after_switch. rewrite Hco2.
  destruct (QSIMPLEQ_PREPEND_spec [] (co_queue_wakeup c2) s2 Hq)
    as (s3 & -> & Hl3).
  cbn [rbind].
  destruct (like_lookup s2 s3 co c2 Hl3 Hco2) as (c3 & Hco3 & Hu3).
  rewrite Hco3.
  destruct (unlinked_fields _ _ Hu3) as (_ & _ & _ & _ & _ & Hlocks3 & _).
  assert (Hheap : heap_like (<[co := set_co_queue_wakeup [] c3]> (heap s3))
                            (<[co := set_co_queue_wakeup [] c2]> (heap s2))).
  { apply heap_like_insert.
    - apply heap_like_sym. exact (proj1 Hl3).
    - apply unlinked_set_co_queue_wakeup. exact Hu3. }
  destruct Hl3 as (_ & Htotal & Htop & Hpool & _ & Herr & Htr).
  destruct Hbad as [->|[-> Hlocks]].
  - eexists. split; [reflexivity|]. simpl.
    rewrite app_nil_r. repeat split; congruence.
  - rewrite Hlocks3.
    destruct (Z.eqb_spec (locks_held c2) 0) as [|_]; [contradiction|].
    cbn [negb]. eexists. split; [reflexivity|]. simpl.
    repeat split; congruence.
Qed.

(** [co_A] ends with a lock held and [co_B] on its wake-up queue. *)
Lemma X14_bad_slice_end_aborts_witness :
  let c2 := {| entry := 0; entry_arg := 0; caller := Some leader;
               ctx := 0; scheduled := None; locks_held := 1;
               co_queue_wakeup := [co_B]; co_queue_next := None |} in
  let s2 := store co_A c2
              (slice_start 0 leader co_A fresh_coroutine
                 (store co_A fresh_coroutine four_coroutines)) in
  exists s',
    qemu_aio_coroutine_enter (ending_switch COROUTINE_TERMINATE 1 [co_B]) 1 0
      co_A four_coroutines = Aborted s' /\
    heap_like (heap s') (<[co_A := set_co_queue_wakeup [] c2]> (heap s2)) /\
    pool s' = pool s2 /\ pool_top s' = pool_top s2 /\
    pool_total s' = pool_total s2 /\
    stderr s' = stderr s2 ++ [locks_held_msg] /\
    entered_order (traced s') = entered_order (traced s2).
Proof.
  intros c2 s2.
  apply (X14_bad_slice_end_aborts (ending_switch COROUTINE_TERMINATE 1 [co_B])
           0 0 co_A four_coroutines fresh_coroutine COROUTINE_TERMINATE s2 c2).
  - reflexivity.
  - reflexivity.
  - reflexivity.
  - vm_compute. reflexivity.
  - vm_compute. reflexivity.
  - repeat constructor. vm_compute. eauto.
  - right. split; [reflexivity|]. simpl. lia.
Defined.

(** X15. [qemu_coroutine_enter_if_inactive] looks at [caller] alone.  For a
    coroutine that is entered it does nothing at all, where
    [qemu_coroutine_enter] would abort; for one that is not, it is
    [qemu_coroutine_enter] in the current context, and so a coroutine that a
    wake path has claimed ([scheduled] set, [caller] null) still aborts the
    process. *)
Theorem X15_enter_if_inactive_checks_caller_only (sw : Switch)
    (getctx : State -> Z) (fuel : nat) (co : loc) (s : State) (c : Coroutine) :
  heap s !! co = Some c ->
  (caller c <> None ->
   qemu_coroutine_enter_if_inactive sw getctx fuel co s = Done tt s) /\
  (caller c = None ->
   qemu_coroutine_enter_if_inactive sw getctx fuel co s
   = qemu_aio_coroutine_enter sw fuel (getctx s) co s) /\
  (caller c = None ->
   forall tag, scheduled c = Some tag ->
   exists s',
     qemu_coroutine_enter_if_inactive sw getctx (S fuel) co s = Aborted s' /\
     heap s' = <[co := set_co_queue_next None c]> (heap s) /\
     stderr s' = stderr s ++ [already_scheduled_msg tag]).
Proof.
  intros Hco.
  assert (Hidle : caller c = None ->
            qemu_coroutine_enter_if_inactive sw getctx fuel co s
            = qemu_aio_coroutine_enter sw fuel (getctx s) co s /\
            forall fuel', qemu_coroutine_enter_if_inactive sw getctx fuel' co s
            = qemu_aio_coroutine_enter sw fuel' (getctx s) co s).
  { intros Hc.
    assert (forall f, qemu_coroutine_enter_if_inactive sw getctx f co s
                      = qemu_aio_coroutine_enter sw f (getctx s) co s).
    { intros f. unfold qemu_coroutine_enter_if_inactive, qemu_coroutine_entered.
      rewrite Hco, Hc. reflexivity. }
    auto. }
  split; [|split].
  - intros Hc. unfold qemu_coroutine_enter_if_inactive, qemu_coroutine_entered.
    rewrite Hco. destruct (caller c) as [x|]; [reflexivity|congruence].
  - intros Hc. apply (Hidle Hc).
  - intros Hc tag Hs. rewrite (proj2 (Hidle Hc) (S fuel)).
    rewrite (enter_alone sw _ (getctx s) co s c Hco). cbn [run_pending].
    assert (Hco0 : heap (store co (set_co_queue_next None c) s) !! co
                   = Some (set_co_queue_next None c))
      by (simpl; apply lookup_insert_eq).
    rewrite (enter_slice_checks sw (getctx s) _ co [] _ _ Hco0)
      by (left; simpl; congruence).
    cbn [rbind]. simpl scheduled. rewrite Hs.
    eexists. split; [reflexivity|]. split; reflexivity.
Qed.

Lemma X15_enter_if_inactive_checks_caller_only_witness :
  qemu_coroutine_enter_if_inactive returns_at_once (fun _ => 0) 1 co_A
    (slice_start 0 leader co_A fresh_coroutine four_coroutines)
  = Done tt (slice_start 0 leader co_A fresh_coroutine four_coroutines).
Proof.
  refine (proj1 (X15_enter_if_inactive_checks_caller_only returns_at_once
                   (fun _ => 0) 1 co_A
                   (slice_start 0 leader co_A fresh_coroutine four_coroutines)
                   (set_ctx 0 (set_caller (Some leader) fresh_coroutine)) _) _).
  - vm_compute. reflexivity.
  - simpl. discriminate.
Defined.

(** *** Whole runs *)



(** [enter], [yield] and back: the state after a coroutine that is idle has
    been entered and has yielded at once. *)
Lemma yielding_enter ctx co s c :
  heap s !! co = Some c ->
  caller c = None -> scheduled c = None -> co_queue_wakeup c = [] ->
  qemu_aio_coroutine_enter yielding_switch 1 ctx co s
  = Done tt {| heap := <[co := set_co_queue_next None (set_ctx ctx c)]> (heap s);
               pool_total := pool_total s; pool_top := pool_top s;
               pool := pool s; current := current s; stderr := stderr s;
               traced := traced s ++ [TraceEnter ctx (current s) co (entry_arg c);
                                      TraceYield co (Some (current s))] |}.
Proof.
  intros Hco Hcaller Hsched Hwake.
  rewrite (enter_alone _ _ ctx co s c Hco). cbn [run_pending].
  assert (Hco0 : heap (store co (set_co_queue_next None c) s) !! co
                 = Some (set_co_queue_next None c))
    by (simpl; apply lookup_insert_eq).
  rewrite (enter_slice_runs _ ctx _ co [] _ _ Hco0 Hsched Hcaller).
  unfold yielding_switch, waking_switch, slice_start. simpl.
  unfold qemu_coroutine_yield, qemu_coroutine_self. simpl.
  rewrite lookup_insert_eq. simpl.
  unfold after_switch. simpl. rewrite lookup_insert_eq. simpl.
  rewrite Hwake. simpl. rewrite lookup_insert_eq. simpl.
  unfold store, set_heap, trace. simpl.
  rewrite !insert_insert_eq, <- app_assoc. simpl.
  f_equal. f_equal. f_equal.
  destruct c; simpl in *; subst; reflexivity.
Qed.

Lemma enter_times_S (sw : Switch) n ctx co s :
  enter_times sw (S n) ctx co s
  = rbind (qemu_aio_coroutine_enter sw 1 ctx co s)
          (fun _ s => enter_times sw n ctx co s).
Proof. reflexivity. Qed.

(** X17. Entering and yielding go round any number of times.  When the
    body of an idle coroutine yields at once, each
    [qemu_aio_coroutine_enter] returns to its caller with the coroutine
    idle again: not entered, its wake-up queue empty, its context the one
    passed, its queue link null; the running coroutine, the pool, its
    counters and stderr are as before, and the trace shows one entry per
    call. *)
Theorem X17_enter_and_yield_go_round (n : nat) (ctx : Z) (co : loc)
    (s : State) (c : Coroutine) :
  heap s !! co = Some c ->
  caller c = None -> scheduled c = None -> co_queue_wakeup c = [] ->
  exists s',
    enter_times yielding_switch (S n) ctx co s = Done tt s' /\
    entered_order (traced s') = entered_order (traced s) ++ replicate (S n) co /\
    heap s' = <[co := set_co_queue_next None (set_ctx ctx c)]> (heap s) /\
    qemu_coroutine_entered co s' = Done false s' /\
    qemu_coroutine_get_aio_context co s' = Done ctx s' /\
    current s' = current s /\
    pool s' = pool s /\ pool_top s' = pool_top s /\
    pool_total s' = pool_total s /\
    stderr s' = stderr s.
Proof.
  revert s c. induction n as [|n IH]; intros s c Hco Hcaller Hsched Hwake.
  - rewrite enter_times_S.
    rewrite (yielding_enter ctx co s c Hco Hcaller Hsched Hwake).
    cbn [rbind enter_times]. eexists. split; [reflexivity|]. simpl.
    split; [unfold entered_order; rewrite omap_app; reflexivity|].
    split; [reflexivity|].
    unfold qemu_coroutine_entered, qemu_coroutine_get_aio_context. simpl.
    rewrite lookup_insert_eq. simpl. rewrite Hcaller.
    repeat split.
  - rewrite enter_times_S.
    rewrite (yielding_enter ctx co s c Hco Hcaller Hsched Hwake).
    cbn [rbind].
    match goal with |- context [enter_times _ _ _ _ ?x] => set (s1 := x) end.
    destruct (IH s1 (set_co_queue_next None (set_ctx ctx c)))
      as (s' & Hrun & Horder & Hheap & Hent & Hctx
                                         & Hcur & Hpool & Htop & Htotal & Herr).
    { unfold s1. simpl. apply lookup_insert_eq. }
    { exact Hcaller. }
    { exact Hsched. }
    { exact Hwake. }
    exists s'. split; [exact Hrun|].
    split.
    { rewrite Horder. unfold s1. simpl. unfold entered_order.
      rewrite omap_app. simpl. rewrite <- app_assoc. reflexivity. }
    split.
    { rewrite Hheap. unfold s1. simpl. rewrite insert_insert_eq. reflexivity. }
    split; [exact Hent|]. split; [exact Hctx|].
    split; [exact Hcur|]. split; [exact Hpool|]. split; [exact Htop|].
    split; [exact Htotal|exact Herr].
Qed.

Lemma X17_enter_and_yield_go_round_witness :
  exists s',
    enter_times yielding_switch 3 7 co_A four_coroutines = Done tt s' /\
    entered_order (traced s')
      = entered_order (traced four_coroutines) ++ replicate 3 co_A /\
    heap s' = <[co_A := set_co_queue_next None (set_ctx 7 fresh_coroutine)]>
                (heap four_coroutines) /\
    qemu_coroutine_entered co_A s' = Done false s' /\
    qemu_coroutine_get_aio_context co_A s' = Done 7 s' /\
    current s' = current four_coroutines /\
    pool s' = pool four_coroutines /\ pool_top s' = pool_top four_coroutines /\
    pool_total s' = pool_total four_coroutines /\
    stderr s' = stderr four_coroutines.
Proof.
  apply (X17_enter_and_yield_go_round 2 7 co_A four_coroutines fresh_coroutine);
    reflexivity.
Defined.

(** *** Termination *)

Lemma coroutine_delete_traced (co : loc) (s s' : State) :
  coroutine_delete co s = Done tt s' -> traced s' = traced s.
Proof.
  unfold coroutine_delete, coroutine_delete_claim, coroutine_delete_store.
  intros H.
  destruct (heap s !! co); [|discriminate]. cbv zeta in H.
  match type of H with
  | context [if ?b then _ else _] => destruct b
  end; cbn [rbind] in H; [injection H as <-; reflexivity|].
  repeat match type of H with
         | context [if ?b then _ else _] => destruct b
         | context [match ?o with Some _ => _ | None => _ end] => destruct o
         end;
    try discriminate; injection H as <-; reflexivity.
Qed.

(** X19. Termination moves exactly one counter by one.  Let an idle
    coroutine that holds no lock and has nobody on its wake-up queue be
    entered, its body returning at once, in a state whose counters are in
    order and show a coroutine outside the free list ([top < total]).  Then
    [qemu_aio_coroutine_enter] returns to its caller; if [total] is below
    16 the coroutine is then on top of the free list with a null [caller]
    ([top] up by one, [total] unchanged), and if [total] is 16 or above it
    has been freed ([total] down by one, [top] and the free list
    unchanged).  [total] is the byte counter of the pool: it is the number
    of coroutines in existence only while fewer than 256 exist. *)
Theorem X19_termination_moves_one_counter (fuel : nat) (ctx : Z) (co : loc)
    (s : State) (c : Coroutine) :
  pool_counted s ->
  pool_top s < pool_total s ->
  heap s !! co = Some c ->
  caller c = None -> scheduled c = None -> locks_held c = 0 ->
  co_queue_wakeup c = [] ->
  exists s',
    qemu_aio_coroutine_enter returns_at_once (S fuel) ctx co s = Done tt s' /\
    pool_counted s' /\
    entered_order (traced s') = entered_order (traced s) ++ [co] /\
    (pool_total s < COROUTINE_POOL_SIZE ->
     pool_top s' = pool_top s + 1 /\ pool_total s' = pool_total s /\
     pool s' !! Z.to_nat (pool_top s) = Some (Some co) /\
     qemu_coroutine_entered co s' = Done false s') /\
    (COROUTINE_POOL_SIZE <= pool_total s ->
     pool_top s' = pool_top s /\ pool_total s' = pool_total s - 1 /\
     pool s' = pool s /\ heap s' !! co = None).
Proof.
  intros Hcounted Hlive Hco Hcaller Hsched Hlocks Hwake.
  rewrite (enter_alone _ _ ctx co s c Hco). cbn [run_pending].
  assert (Hco0 : heap (store co (set_co_queue_next None c) s) !! co
                 = Some (set_co_queue_next None c))
    by (simpl; apply lookup_insert_eq).
  rewrite (enter_slice_runs _ ctx _ co [] _ _ Hco0 Hsched Hcaller).
  unfold returns_at_once at 1. cbn [rbind].
  unfold after_switch, slice_start. simpl. rewrite lookup_insert_eq. simpl.
  rewrite Hwake. simpl. rewrite lookup_insert_eq. simpl.
  rewrite Hlocks. simpl.
  match goal with
  | |- context [coroutine_delete co ?x] => set (s3 := x)
  end.
  assert (Hcounted3 : pool_counted s3) by exact Hcounted.
  assert (Hco3 : heap s3 !! co
                 = Some (set_co_queue_wakeup []
                           (set_ctx ctx (set_caller (Some (current s))
                                           (set_co_queue_next None c)))))
    by (unfold s3; simpl; apply lookup_insert_eq).
  destruct (delete_live_counted co _ s3 Hcounted3 Hlive Hco3)
    as (s' & Hdel & Hcounted' & Hpooled & Hfreed).
  rewrite Hdel. cbn [rbind].
  assert (Htr : traced s' = traced s3)
    by exact (coroutine_delete_traced co s3 s' Hdel).
  destruct fuel; cbn [run_pending];
    (exists s'; split; [reflexivity|]; split; [exact Hcounted'|];
     split;
     [rewrite Htr; unfold s3; simpl; unfold entered_order;
      rewrite !omap_app; simpl; rewrite app_nil_r; reflexivity|];
     split;
     [intros Hroom; destruct (Hpooled Hroom) as (H1 & H2 & H3 & H4);
      split; [exact H1|]; split; [exact H2|]; split; [exact H3|];
      unfold qemu_coroutine_entered; rewrite H4; reflexivity
     |exact Hfreed]).
Qed.

Lemma X19_termination_moves_one_counter_witness :
  exists s',
    qemu_aio_coroutine_enter returns_at_once 1 0 co_A four_coroutines
      = Done tt s' /\
    pool_counted s' /\
    entered_order (traced s') = entered_order (traced four_coroutines) ++ [co_A] /\
    (pool_total four_coroutines < COROUTINE_POOL_SIZE ->
     pool_top s' = pool_top four_coroutines + 1 /\
     pool_total s' = pool_total four_coroutines /\
     pool s' !! Z.to_nat (pool_top four_coroutines) = Some (Some co_A) /\
     qemu_coroutine_entered co_A s' = Done false s') /\
    (COROUTINE_POOL_SIZE <= pool_total four_coroutines ->
     pool_top s' = pool_top four_coroutines /\
     pool_total s' = pool_total four_coroutines - 1 /\
     pool s' = pool four_coroutines /\ heap s' !! co_A = None).
Proof.
  apply (X19_termination_moves_one_counter 0 0 co_A four_coroutines
           fresh_coroutine).
  - unfold pool_counted, COROUTINE_POOL_SIZE. simpl. repeat split; lia.
  - simpl. lia.
  - reflexivity.
  - reflexivity.
  - reflexivity.
  - reflexivity.
  - reflexivity.
Defined.

End QemuCoroutineProofs.
